(** * cfg_parser: left factoring, left-recursion removal, FIRST/FOLLOW and
      the LL(1) table, embedded from [src/cfg_parser.cpp].

    Productions are the strings the program stores ([vector<string>]); a
    production's symbols are what [split(prod, ' ')] returns.  A
    [std::map<string, V>] is an association list kept in the key order the
    program iterates it in (byte-wise lexicographic order of [std::string]);
    a [std::set<string>] is a list kept in the same order.  The two
    [while (changed)] loops are run with fuel, and fuel is shown to
    suffice. *)

From Stdlib Require Import List String Ascii Bool Arith ZArith Lia.
From Stdlib Require Import Sorting.Sorted Structures.OrdersEx.
From Stdlib Require Import Numbers.DecimalString.
Import ListNotations.

Local Open Scope list_scope.
Local Open Scope string_scope.

Set Implicit Arguments.

(** ** Containers *)

(** [std::map<string, V>]: operations the program uses. *)
Module StdMap.
Section Map.
Variable V : Type.

Definition t := list (string * V).

Definition keys (m : t) : list string := map fst m.

(** [m.find(k)], with [None] for [m.end()]; also [m.at(k)], with [None]
  for the [std::out_of_range] it throws. *)
Fixpoint find (k : string) (m : t) : option V :=
match m with
| [] => None
| (k', v) :: m' => if k =? k' then Some v else find k m'
end.

(** [m[k] = v]. *)
Fixpoint insert (k : string) (v : V) (m : t) : t :=
match m with
| [] => [(k, v)]
| (k', v') :: m' =>
    match String.compare k k' with
    | Lt => (k, v) :: m
    | Eq => (k, v) :: m'
    | Gt => (k', v') :: insert k v m'
    end
end.

Variable dflt : V.

(** The value [m[k]] reads: the default-constructed one when [k] is new. *)
Definition get (k : string) (m : t) : V :=
match find k m with Some v => v | None => dflt end.

(** [m[k]] used as an rvalue: a missing key is added with the default
  value, and the map is part of the result. *)
Definition index (k : string) (m : t) : V * t :=
match find k m with
| Some v => (v, m)
| None => (dflt, insert k dflt m)
end.
End Map.
End StdMap.

(** [std::set<string>]. *)
Module StdSet.
Definition t := list string.

(** [s.find(x) != s.end()]. *)
Fixpoint mem (x : string) (s : t) : bool :=
  match s with
  | [] => false
  | y :: s' => (x =? y) || mem x s'
  end.

Fixpoint place (x : string) (s : t) : t :=
  match s with
  | [] => [x]
  | y :: s' =>
      match String.compare x y with
      | Gt => y :: place x s'
      | _ => x :: s
      end
  end.

(** [s.insert(x)]: the set and the [.second] of the returned pair. *)
Definition insert (x : string) (s : t) : t * bool :=
  if mem x s then (s, false) else (place x s, true).
End StdSet.

Definition Grammar := StdMap.t (list string).
Definition SetMap := StdMap.t StdSet.t.
Definition Table := StdMap.t (StdMap.t string).

Definition sets_get : string -> SetMap -> StdSet.t := @StdMap.get StdSet.t [].
Definition sets_index : string -> SetMap -> StdSet.t * SetMap :=
  @StdMap.index StdSet.t [].

(** ** Tokens *)

Definition EPSILON : string := "ε".
Definition ENDMARK : string := "$".
Definition SPACE : ascii := " "%char.
Definition TAB : ascii := "009"%char.

(** Membership in the character set [" \t"]. *)
Definition is_blank (c : ascii) : bool := ((c =? SPACE) || (c =? TAB))%char.

(** [token.find_first_not_of(" \t")], [None] for [npos]. *)
Fixpoint find_first_not_of (s : string) : option nat :=
  match s with
  | EmptyString => None
  | String c s' =>
      if is_blank c then option_map S (find_first_not_of s') else Some 0
  end.

(** [token.find_last_not_of(" \t")]. *)
Fixpoint find_last_not_of (s : string) : option nat :=
  match s with
  | EmptyString => None
  | String c s' =>
      match find_last_not_of s' with
      | Some j => Some (S j)
      | None => if is_blank c then None else Some 0
      end
  end.

(** Lines 22-25 of [split]: the token kept for one [getline] result. *)
Definition trimmed (token : string) : list string :=
  match find_first_not_of token, find_last_not_of token with
  | Some start, Some last => [substring start (last - start + 1) token]
  | _, _ => []
  end.

(** The successive results of [getline(iss, token, delimiter)]; [cur] holds
    the characters extracted so far by the running call.  At the end of the
    input a call that extracted nothing fails and ends the loop. *)
Fixpoint getlines (delimiter : ascii) (cur s : string) : list string :=
  match s with
  | EmptyString => match cur with EmptyString => [] | _ => [cur] end
  | String c s' =>
      if (c =? delimiter)%char then cur :: getlines delimiter "" s'
      else getlines delimiter (cur ++ String c "") s'
  end.

Definition split (s : string) (delimiter : ascii) : list string :=
  flat_map trimmed (getlines delimiter "" s).

Definition tokens_of (prod : string) : list string := split prod SPACE.

(** [for (auto &t : ts) oss << t << " "]. *)
Fixpoint spaced (ts : list string) : string :=
  match ts with
  | [] => ""
  | t :: ts' => t ++ " " ++ spaced ts'
  end.

(** ** Phase 1: left factoring *)

(** [std::to_string(int)]. *)
Definition to_string (n : Z) : string := NilZero.string_of_int (Z.to_int n).

(** [int] arithmetic: the value of [n] brought back into the 32-bit signed
    range. *)
Definition int_wrap (n : Z) : Z :=
  ((n + 2147483648) mod 4294967296 - 2147483648)%Z.

Fixpoint commonPrefix (a b : list string) : list string :=
  match a, b with
  | x :: a', y :: b' => if x =? y then x :: commonPrefix a' b' else []
  | _, _ => []
  end.

(** Lines 66-72: the reduction over [tokenized[1..]], left as soon as
    [common] is empty. *)
Fixpoint commonOfAll (common : list string) (rest : list (list string))
  : list string :=
  match rest with
  | [] => common
  | tokens :: rest' =>
      match commonPrefix common tokens with
      | [] => []
      | common' => commonOfAll common' rest'
      end
  end.

(** Lines 78-80. *)
Definition freshName (nonTerminal : string) (newNTcount : Z) : string :=
  (nonTerminal ++ "'") ++
  (if (1 <? newNTcount)%Z then to_string newNTcount else "").

(** Lines 93-109, for one tokenized alternative. *)
Definition suffixProd (common tokens : list string) : string :=
  match skipn (List.length common) tokens with
  | [] => EPSILON
  | suffix => spaced suffix
  end.

(** [newProds[nonTerminal].push_back(prod)]. *)
Definition push_back (nonTerminal prod : string) (newProds : Grammar)
  : Grammar :=
  StdMap.insert nonTerminal (StdMap.get [] nonTerminal newProds ++ [prod])%list
    newProds.

Definition leftFactor (nonTerminal : string) (prods : list string)
  (st : Grammar * Z) : Grammar * Z :=
  let '(newProds, newNTcount) := st in
  if Nat.ltb (List.length prods) 2 then (StdMap.insert nonTerminal prods newProds, newNTcount)
  else
    let tokenized := map tokens_of prods in
    match commonOfAll (hd [] tokenized) (tl tokenized) with
    | [] => (StdMap.insert nonTerminal prods newProds, newNTcount)
    | common =>
        let newNT := freshName nonTerminal newNTcount in
        let factoredProd := spaced common ++ newNT in
        let newProds1 := push_back nonTerminal factoredProd newProds in
        let newNTProds := map (suffixProd common) tokenized in
        (StdMap.insert newNT newNTProds newProds1, int_wrap (newNTcount + 1))
    end.

(** Lines 415-420 of [main]. *)
Definition factorPhase (grammar : Grammar) : Grammar * Z :=
  fold_left (fun st rule => leftFactor (fst rule) (snd rule) st) grammar
    ([], 1%Z).

Definition factoredGrammar (grammar : Grammar) : Grammar :=
  fst (factorPhase grammar).

(** ** Phase 2: immediate left recursion *)

(** Lines 129-143: [(recursiveProds, nonRecursiveProds)]. *)
Fixpoint partitionProds (nonTerminal : string) (prods : list string)
  : list string * list string :=
  match prods with
  | [] => ([], [])
  | prod :: prods' =>
      let '(rec, nonrec) := partitionProds nonTerminal prods' in
      match tokens_of prod with
      | t0 :: rest =>
          if t0 =? nonTerminal then (spaced rest :: rec, nonrec)
          else (rec, prod :: nonrec)
      | [] => (rec, prod :: nonrec)
      end
  end.

(** [oss << p << " " << newNT]. *)
Definition withTail (newNT p : string) : string := p ++ " " ++ newNT.

Definition leftRecursion (nonTerminal : string) (prods : list string)
  (newGrammar : Grammar) : Grammar :=
  let '(recursiveProds, nonRecursiveProds) :=
    partitionProds nonTerminal prods in
  match recursiveProds with
  | [] => StdMap.insert nonTerminal prods newGrammar
  | _ =>
      let newNT := nonTerminal ++ "'" in
      let newNonRecursive := map (withTail newNT) nonRecursiveProds in
      let g1 := StdMap.insert nonTerminal newNonRecursive newGrammar in
      let newRecursive := (map (withTail newNT) recursiveProds ++ [EPSILON])%list in
      StdMap.insert newNT newRecursive g1
  end.

(** Lines 423-427 of [main]. *)
Definition recursionPhase (factored : Grammar) : Grammar :=
  fold_left (fun acc rule => leftRecursion (fst rule) (snd rule) acc)
    factored [].

Definition finalGrammar (grammar : Grammar) : Grammar :=
  recursionPhase (factoredGrammar grammar).

(** ** Phases 3 and 4: FIRST and FOLLOW *)

(** What a call of the program gives: a value, the [std::out_of_range] of
    [map::at], or no answer within the fuel given to a [while (changed)]
    loop. *)
Inductive outcome (A : Type) : Type :=
| Returns (a : A)
| OutOfRange
| OutOfFuel.
Arguments OutOfRange {A}.
Arguments OutOfFuel {A}.

(** The sets under construction and the [changed] flag. *)
Definition solver := (SetMap * bool)%type.

(** [if (m[X].insert(sym).second) changed = true;].  When [sym] is already
    in [m[X]] the key [X] is bound and nothing is touched. *)
Definition add (X sym : string) (st : solver) : solver :=
  let '(s, fresh) := StdSet.insert sym (sets_get X (fst st)) in
  if fresh then (StdMap.insert X s (fst st), true) else st.

(** [for (sym : src) if (sym != "ε" && m[X].insert(sym).second) changed = true;]. *)
Definition addButEpsilon (X : string) (src : StdSet.t) (st : solver) : solver :=
  fold_left (fun st sym => if sym =? EPSILON then st else add X sym st) src st.

(** [for (sym : src) if (m[X].insert(sym).second) changed = true;]. *)
Definition addAll (X : string) (src : StdSet.t) (st : solver) : solver :=
  fold_left (fun st sym => add X sym st) src st.

(** Lines 205-235: the scan of one production; the flag is [addEpsilon]. *)
Fixpoint firstScan (grammar : Grammar) (X : string) (tokens : list string)
  (st : solver) : solver * bool :=
  match tokens with
  | [] => (st, true)
  | token :: rest =>
      if token =? EPSILON then (add X EPSILON st, false)
      else
        match StdMap.find token grammar with
        | None => (add X token st, false)
        | Some _ =>
            let '(src, m1) := sets_index token (fst st) in
            let st1 := addButEpsilon X src (m1, snd st) in
            let '(src', m2) := sets_index token (fst st1) in
            if StdSet.mem EPSILON src' then firstScan grammar X rest (m2, snd st1)
            else ((m2, snd st1), false)
        end
  end.

(** Lines 197-242, for one production of [X]. *)
Definition firstProd (grammar : Grammar) (X prod : string) (st : solver)
  : solver :=
  match tokens_of prod with
  | [] => st
  | tokens =>
      let '(st1, addEpsilon) := firstScan grammar X tokens st in
      if addEpsilon then add X EPSILON st1 else st1
  end.

Definition firstRule (grammar : Grammar) (st : solver)
  (rule : string * list string) : solver :=
  fold_left (fun st prod => firstProd grammar (fst rule) prod st) (snd rule) st.

(** One run of the body of [while (changed)]. *)
Definition firstPass (grammar : Grammar) (first : SetMap) : solver :=
  fold_left (firstRule grammar) grammar (first, false).

Fixpoint firstLoop (fuel : nat) (grammar : Grammar) (first : SetMap)
  : outcome SetMap :=
  match fuel with
  | O => OutOfFuel
  | S fuel' =>
      let '(first', changed) := firstPass grammar first in
      if changed then firstLoop fuel' grammar first' else Returns first'
  end.

(** Lines 183-186 and 257-260: every key bound to the empty set. *)
Definition emptySets (grammar : Grammar) : SetMap :=
  fold_left (fun m rule => StdMap.insert (fst rule) [] m) grammar [].

(** Every token of every production. *)
Definition grammarTokens (grammar : Grammar) : list string :=
  flat_map (fun rule => flat_map tokens_of (snd rule)) grammar.

(** Passes that are enough for the FIRST loop (see [firstSet_returns]). *)
Definition firstFuel (grammar : Grammar) : nat :=
  S (List.length grammar * S (List.length (grammarTokens grammar))).

Definition firstSet (grammar : Grammar) : outcome SetMap :=
  firstLoop (firstFuel grammar) grammar (emptySets grammar).

(** Lines 284-318: the [while (true)] loop for the occurrence of [B] whose
    right context is [rest]; the flag is [addFollowA]. *)
Fixpoint followScan (grammar : Grammar) (first : SetMap) (B : string)
  (rest : list string) (st : solver) : option (solver * bool) :=
  match rest with
  | [] => Some (st, true)
  | beta :: rest' =>
      match StdMap.find beta grammar with
      | None => Some (add B beta st, false)
      | Some _ =>
          match StdMap.find beta first with
          | None => None
          | Some firstBeta =>
              let st1 := addButEpsilon B firstBeta st in
              if StdSet.mem EPSILON firstBeta
              then followScan grammar first B rest' st1
              else Some (st1, false)
          end
      end
  end.

(** Lines 275-329: the positions [i] of one production of [A]. *)
Fixpoint followTokens (grammar : Grammar) (first : SetMap) (A : string)
  (tokens : list string) (st : solver) : option solver :=
  match tokens with
  | [] => Some st
  | B :: rest =>
      match StdMap.find B grammar with
      | None => followTokens grammar first A rest st
      | Some _ =>
          match followScan grammar first B rest st with
          | None => None
          | Some (st1, addFollowA) =>
              let st2 :=
                if addFollowA
                then let '(src, m1) := sets_index A (fst st1) in
                     addAll B src (m1, snd st1)
                else st1 in
              followTokens grammar first A rest st2
          end
      end
  end.

Fixpoint followProds (grammar : Grammar) (first : SetMap) (A : string)
  (prods : list string) (st : solver) : option solver :=
  match prods with
  | [] => Some st
  | prod :: prods' =>
      match followTokens grammar first A (tokens_of prod) st with
      | None => None
      | Some st1 => followProds grammar first A prods' st1
      end
  end.

Fixpoint followRules (grammar : Grammar) (first : SetMap)
  (rules : Grammar) (st : solver) : option solver :=
  match rules with
  | [] => Some st
  | (A, prods) :: rules' =>
      match followProds grammar first A prods st with
      | None => None
      | Some st1 => followRules grammar first rules' st1
      end
  end.

(** One run of the body of [while (changed)]. *)
Definition followPass (grammar : Grammar) (first follow : SetMap)
  : option solver :=
  followRules grammar first grammar (follow, false).

Fixpoint followLoop (fuel : nat) (grammar : Grammar) (first follow : SetMap)
  : outcome SetMap :=
  match fuel with
  | O => OutOfFuel
  | S fuel' =>
      match followPass grammar first follow with
      | None => OutOfRange
      | Some (follow', changed) =>
          if changed then followLoop fuel' grammar first follow'
          else Returns follow'
      end
  end.

(** Lines 255-262. *)
Definition followInit (grammar : Grammar) (startSymbol : string) : SetMap :=
  fst (add startSymbol ENDMARK (emptySets grammar, false)).

(** Every member of every set of a map. *)
Definition members (m : SetMap) : list string := flat_map snd m.

(** Passes that are enough for the FOLLOW loop (see
    [followSets_returns_within]). *)
Definition followFuel (grammar : Grammar) (first : SetMap) : nat :=
  S (S (List.length grammar) *
     S (List.length (grammarTokens grammar) + List.length (members first))).

Definition computeFollowSets (grammar : Grammar) (first : SetMap)
  (startSymbol : string) : outcome SetMap :=
  followLoop (followFuel grammar first) grammar first
    (followInit grammar startSymbol).

(** ** Phase 5: the parsing table *)

(** Lines 343-367; the flag is [allEpsilon]. *)
Fixpoint firstOfScan (tokens : list string) (first : SetMap)
  (grammar : Grammar) (result : StdSet.t) : option (StdSet.t * bool) :=
  match tokens with
  | [] => Some (result, true)
  | token :: rest =>
      match StdMap.find token grammar with
      | None => Some (fst (StdSet.insert token result), false)
      | Some _ =>
          match StdMap.find token first with
          | None => None
          | Some firstToken =>
              let result1 :=
                fold_left
                  (fun r sym =>
                     if sym =? EPSILON then r else fst (StdSet.insert sym r))
                  firstToken result in
              if StdSet.mem EPSILON firstToken
              then firstOfScan rest first grammar result1
              else Some (result1, false)
          end
      end
  end.

Definition computeFirstOfString (tokens : list string) (first : SetMap)
  (grammar : Grammar) : option StdSet.t :=
  match firstOfScan tokens first grammar [] with
  | None => None
  | Some (result, allEpsilon) =>
      Some (if allEpsilon then fst (StdSet.insert EPSILON result) else result)
  end.

(** [parsingTable[nonTerminal][terminal] = prod]. *)
Definition setCell (nonTerminal terminal prod : string) (table : Table)
  : Table :=
  StdMap.insert nonTerminal
    (StdMap.insert terminal prod
       (@StdMap.get (StdMap.t string) [] nonTerminal table))
    table.

Definition cell (table : Table) (nonTerminal terminal : string)
  : option string :=
  match StdMap.find nonTerminal table with
  | None => None
  | Some row => StdMap.find terminal row
  end.

(** Lines 451-465, given [firstAlpha]. *)
Definition fillCells (follow : SetMap) (nonTerminal prod : string)
  (firstAlpha : StdSet.t) (table : Table) : Table :=
  let table1 :=
    fold_left
      (fun tb terminal =>
         if terminal =? EPSILON then tb else setCell nonTerminal terminal prod tb)
      firstAlpha table in
  if StdSet.mem EPSILON firstAlpha
  then fold_left (fun tb terminal => setCell nonTerminal terminal prod tb)
         (sets_get nonTerminal follow) table1
  else table1.

(** Lines 444-466, for one production. *)
Definition tableProd (grammar : Grammar) (first follow : SetMap)
  (nonTerminal prod : string) (table : Table) : option Table :=
  match computeFirstOfString (tokens_of prod) first grammar with
  | None => None
  | Some firstAlpha => Some (fillCells follow nonTerminal prod firstAlpha table)
  end.

Fixpoint tableProds (grammar : Grammar) (first follow : SetMap)
  (nonTerminal : string) (prods : list string) (table : Table)
  : option Table :=
  match prods with
  | [] => Some table
  | prod :: prods' =>
      match tableProd grammar first follow nonTerminal prod table with
      | None => None
      | Some table1 => tableProds grammar first follow nonTerminal prods' table1
      end
  end.

Fixpoint tableRules (grammar : Grammar) (first follow : SetMap)
  (rules : Grammar) (table : Table) : option Table :=
  match rules with
  | [] => Some table
  | (nonTerminal, prods) :: rules' =>
      match tableProds grammar first follow nonTerminal prods table with
      | None => None
      | Some table1 => tableRules grammar first follow rules' table1
      end
  end.

(** Lines 439-467 of [main]. *)
Definition parsingTable (grammar : Grammar) (first follow : SetMap)
  : option Table :=
  tableRules grammar first follow grammar [].

(** ** Reading the grammar: lines 384-411 of [main] *)

Definition BAR : ascii := "|"%char.
Definition NEWLINE : ascii := "010"%char.
Definition ARROW : string := "->".

(** The line break as a text. *)
Definition NL : string := String NEWLINE "".

(** [s.substr(pos)]. *)
Definition substr_from (pos : nat) (s : string) : string :=
  substring pos (String.length s - pos) s.

(** Lines 397-400: the text is cut down to what lies between its first and
    last characters outside [" \t"], and kept as it is when it has none. *)
Definition trimOrKeep (s : string) : string :=
  match find_first_not_of s, find_last_not_of s with
  | Some start, Some last => substring start (last - start + 1) s
  | _, _ => s
  end.

(** Lines 389-409: the rule a line gives, [None] for a line the loop skips. *)
Definition parseLine (line : string) : option (string * list string) :=
  match line with
  | EmptyString => None
  | _ =>
      match index 0 ARROW line with
      | None => None
      | Some arrowPos =>
          let nonTerminal := trimOrKeep (substring 0 arrowPos line) in
          let rhs := substr_from (arrowPos + 2) line in
          Some (nonTerminal, split rhs BAR)
      end
  end.

(** The body of the [while (getline(infile, line))] loop on the pair
    [(grammar, startSymbol)]. *)
Definition readLine (st : Grammar * string) (line : string)
  : Grammar * string :=
  match parseLine line with
  | None => st
  | Some (nonTerminal, prods) =>
      (StdMap.insert nonTerminal prods (fst st),
       match snd st with
       | EmptyString => nonTerminal
       | startSymbol => startSymbol
       end)
  end.

Definition readLines (lines : list string) : Grammar * string :=
  fold_left readLine lines ([], "").

(** The loop over the text of [grammar.txt]. *)
Definition readGrammar (text : string) : Grammar * string :=
  readLines (getlines NEWLINE "" text).

(** ** The whole of [main] after the grammar is read *)

Record analysis : Type := {
  factored : Grammar;
  final : Grammar;
  firstSets : SetMap;
  followSets : SetMap;
  table : Table
}.

Definition run (grammar : Grammar) (startSymbol : string) : outcome analysis :=
  let fg := factoredGrammar grammar in
  let g := recursionPhase fg in
  match firstSet g with
  | Returns first =>
      match computeFollowSets g first startSymbol with
      | Returns follow =>
          match parsingTable g first follow with
          | Some tb => Returns (Build_analysis fg g first follow tb)
          | None => OutOfRange
          end
      | OutOfRange => OutOfRange
      | OutOfFuel => OutOfFuel
      end
  | OutOfRange => OutOfRange
  | OutOfFuel => OutOfFuel
  end.

(** [main] from the text of [grammar.txt] to the values it prints. *)
Definition mainOn (text : string) : outcome analysis :=
  run (fst (readGrammar text)) (snd (readGrammar text)).

(** ** Writing the results: lines 477-570 of [main] *)

(** What a loop that writes [f x] for each [x] of [items] sends to the
    stream. *)
Fixpoint printed (A : Type) (f : A -> string) (items : list A) : string :=
  match items with
  | [] => ""
  | x :: rest => f x ++ printed f rest
  end.

(** The items with [sep] between two of them: lines 481-486 and 509-516. *)
Fixpoint joined (sep : string) (items : list string) : string :=
  match items with
  | [] => ""
  | x :: rest =>
      match rest with
      | [] => x
      | _ => x ++ sep ++ joined sep rest
      end
  end.

(** Lines 480-487 and 494-501, for one entry of the grammar. *)
Definition printRule (nt : string * list string) : string :=
  fst nt ++ " -> " ++ joined " | " (snd nt) ++ NL.

Definition printRules (grammar : Grammar) : string := printed printRule grammar.

(** Lines 508-517 and 524-533, for one entry. *)
Definition printSet (name : string) (entry : string * StdSet.t) : string :=
  name ++ "(" ++ fst entry ++ ") = { " ++ joined ", " (snd entry) ++ " }" ++ NL.

Definition printSets (name : string) (sets : SetMap) : string :=
  printed (printSet name) sets.

(** [string(n, c)]. *)
Fixpoint repeated (n : nat) (c : ascii) : string :=
  match n with
  | O => ""
  | S n' => String c (repeated n' c)
  end.

(** [outfile << std::setw(width) << s]: [s] after the spaces that bring it
    to [width] characters, and [s] alone when it is that long already. *)
Definition setw (width : nat) (s : string) : string :=
  repeated (width - String.length s) " " ++ s.

Definition colWidth : nat := 20.

(** Lines 542-547: the columns of the table. *)
Definition tableTerminals (tb : Table) : StdSet.t :=
  fold_left
    (fun terminals row =>
       fold_left (fun terminals entry => fst (StdSet.insert (fst entry) terminals))
         (snd row) terminals)
    tb [].

(** Lines 561-569, for one row. *)
Definition printRow (terminals : StdSet.t) (row : string * StdMap.t string)
  : string :=
  setw colWidth (fst row) ++
  printed
    (fun t =>
       setw colWidth
         (match StdMap.find t (snd row) with Some prod => prod | None => "" end))
    terminals ++
  NL.

(** Lines 550-570. *)
Definition printTable (tb : Table) : string :=
  let terminals := tableTerminals tb in
  setw colWidth "Non-Terminal" ++ printed (setw colWidth) terminals ++ NL ++
  repeated (colWidth * (List.length terminals + 1)) "-" ++ NL ++
  printed (printRow terminals) tb.

(** The text [main] writes to [output.txt].  The FOLLOW map written is the
    one the solver returned: it binds every key of the final grammar (see
    [main_on_text]), so [followSets[nonTerminal]] at line 461 adds nothing. *)
Definition output (r : analysis) : string :=
  "Grammar after Left Factoring:" ++ NL ++
  printRules (factored r) ++
  NL ++ "Grammar after Left Recursion Removal:" ++ NL ++
  printRules (final r) ++
  NL ++ "FIRST Sets:" ++ NL ++
  printSets "FIRST" (firstSets r) ++
  NL ++ "FOLLOW Sets:" ++ NL ++
  printSets "FOLLOW" (followSets r) ++
  NL ++ "LL(1) Parsing Table:" ++ NL ++ NL ++
  printTable (table r).

(** ** Vocabulary of the statements *)

Section SolverVocabulary.
(** [K]: the keys the solver may bind; [U]: the symbols it may insert. *)
Variables K U : list string.

(** Number of (key, member) pairs of [m] over the keys [K]. *)
Definition size (m : SetMap) : nat :=
  list_sum (map (fun k => List.length (sets_get k m)) K).

Record kept (m : SetMap) : Prop := {
  kept_keys : forall k, In k K -> StdMap.find k m <> None;
  kept_nodup : forall k, NoDup (sets_get k m);
  kept_within : forall k, incl (sets_get k m) U
}.

(** Every set of [m] is included in the set [m'] has for the same key. *)
Definition subsets (m m' : SetMap) : Prop :=
  forall k x, In x (sets_get k m) -> In x (sets_get k m').

(** What a piece of a pass does to the solver: sets only gain members,
    and either nothing at all happened or [changed] is set and there are
    more pairs than before. *)
Definition grows (st st' : solver) : Prop :=
  kept (fst st') /\ subsets (fst st) (fst st') /\
  (st' = st \/ (snd st' = true /\ size (fst st) < size (fst st'))).

End SolverVocabulary.

(** The tokens of [tokens] that are not keys of the grammar are in [U]. *)
Definition terminals_in (grammar : Grammar) (U tokens : list string) : Prop :=
  forall t, In t tokens -> StdMap.find t grammar = None -> In t U.

(** The tokens to the right of the first key of the grammar in [tokens]:
    the positions the FOLLOW scan can look at. *)
Fixpoint rightOfKey (grammar : Grammar) (tokens : list string) : list string :=
  match tokens with
  | [] => []
  | t :: rest =>
      match StdMap.find t grammar with
      | Some _ => rest
      | None => rightOfKey grammar rest
      end
  end.

Definition right_terminals_in (grammar : Grammar) (U tokens : list string)
  : Prop :=
  terminals_in grammar U (rightOfKey grammar tokens).

(** The rules have their keys in [K] and productions whose tokens are [ok]. *)
Definition rules_within (K : list string) (ok : list string -> Prop)
  (rules : Grammar) : Prop :=
  forall A prods, In (A, prods) rules ->
    In A K /\ forall prod, In prod prods -> ok (tokens_of prod).

(** The tokens of the grammar that are not keys. *)
Definition terminals (grammar : Grammar) : list string :=
  filter (fun t => match StdMap.find t grammar with
                   | None => true
                   | Some _ => false
                   end)
    (grammarTokens grammar).

(** The symbols a FIRST set can hold. *)
Definition firstUniverse (grammar : Grammar) : list string :=
  EPSILON :: grammarTokens grammar.

(** The symbols a FOLLOW set can hold. *)
Definition followUniverse (grammar : Grammar) : list string :=
  ENDMARK :: grammarTokens grammar.

(** [c] occurs in [s]. *)
Fixpoint occurs (c : ascii) (s : string) : bool :=
  match s with
  | EmptyString => false
  | String c' s' => (c' =? c)%char || occurs c s'
  end.

(** No character of [s] is in [" \t"]. *)
Fixpoint blank_free (s : string) : bool :=
  match s with
  | EmptyString => true
  | String c s' => negb (is_blank c) && blank_free s'
  end.

(** The shape of the tokens [split(prod, ' ')] returns: not empty, no
    space inside, no blank at either end. *)
Definition word (t : string) : Prop :=
  find_first_not_of t = Some 0 /\
  find_last_not_of t = Some (String.length t - 1) /\
  occurs SPACE t = false.

(** [s] up to its last character outside [" \t"]. *)
Definition rstrip (s : string) : string :=
  match find_last_not_of s with
  | Some j => substring 0 (S j) s
  | None => ""
  end.

(** [p] is an initial segment of [l]. *)
Definition is_prefix (p l : list string) : Prop := exists r, l = (p ++ r)%list.

(** Lines 59-72 of [leftFactor]: the value of [common] after the loop. *)
Definition commonOf (prods : list string) : list string :=
  let tokenized := map tokens_of prods in
  commonOfAll (hd [] tokenized) (tl tokenized).

(** [leftFactor] takes its factoring branch on [prods]. *)
Definition factorable (prods : list string) : bool :=
  negb (Nat.ltb (List.length prods) 2) &&
  match commonOf prods with [] => false | _ => true end.

(** Number of fresh names one pass allocates over [rules]. *)
Definition allocations (rules : Grammar) : nat :=
  List.length (filter (fun rule => factorable (snd rule)) rules).

(** The order in which a [std::map] keeps its keys. *)
Definition key_lt (k k' : string) : Prop := String.compare k k' = Lt.
Definition ordered (V : Type) (m : StdMap.t V) : Prop :=
  StronglySorted key_lt (StdMap.keys m).

(** The test of line 132: the production starts with the non-terminal. *)
Definition selfRecursive (nonTerminal prod : string) : bool :=
  match tokens_of prod with
  | t0 :: _ => t0 =? nonTerminal
  | [] => false
  end.

(** The productions [leftRecursion] binds to the non-terminal itself. *)
Definition rewritten (nonTerminal : string) (prods : list string)
  : list string :=
  match filter (selfRecursive nonTerminal) prods with
  | [] => prods
  | _ =>
      map (withTail (nonTerminal ++ "'"))
        (filter (fun prod => negb (selfRecursive nonTerminal prod)) prods)
  end.

(** The productions [leftRecursion] binds to the primed non-terminal when
    some production is recursive. *)
Definition primed (nonTerminal : string) (prods : list string) : list string :=
  (map (fun prod => withTail (nonTerminal ++ "'") (spaced (tl (tokens_of prod))))
     (filter (selfRecursive nonTerminal) prods) ++ [EPSILON])%list.

(** The cells of row [A] that a production with FIRST set [firstAlpha]
    writes: the members of [firstAlpha] other than Epsilon and, when Epsilon
    is a member, the members of FOLLOW([A]). *)
Definition claimed (follow : SetMap) (A : string) (firstAlpha : StdSet.t)
  (t : string) : bool :=
  (StdSet.mem t firstAlpha && negb (t =? EPSILON)) ||
  (StdSet.mem EPSILON firstAlpha && StdSet.mem t (sets_get A follow)).

Definition claimsb (grammar : Grammar) (first follow : SetMap)
  (A prod t : string) : bool :=
  match computeFirstOfString (tokens_of prod) first grammar with
  | Some firstAlpha => claimed follow A firstAlpha t
  | None => false
  end.

(** Production [prod] of [A] claims the cell of terminal [t]. *)
Definition claims (grammar : Grammar) (first follow : SetMap)
  (A prod t : string) : Prop :=
  exists firstAlpha,
    computeFirstOfString (tokens_of prod) first grammar = Some firstAlpha /\
    ((In t firstAlpha /\ t <> EPSILON) \/
     (In EPSILON firstAlpha /\ In t (sets_get A follow))).

(** The last production of [prods] that claims [t], or [earlier]. *)
Fixpoint winner (grammar : Grammar) (first follow : SetMap) (A : string)
  (prods : list string) (t : string) (earlier : option string)
  : option string :=
  match prods with
  | [] => earlier
  | prod :: prods' =>
      winner grammar first follow A prods' t
        (if claimsb grammar first follow A prod t then Some prod else earlier)
  end.

(** Epsilon or a symbol that can start the token sequence, by the rules the
    FIRST solver applies: the literal epsilon token gives Epsilon and ends
    the scan, a token that is not a key gives itself, a key gives what its
    productions give without Epsilon, and is passed when they give Epsilon;
    a sequence passed to its end gives Epsilon. *)
Inductive derivesFirst (grammar : Grammar) : list string -> string -> Prop :=
| first_end : derivesFirst grammar [] EPSILON
| first_epsilon rest : derivesFirst grammar (EPSILON :: rest) EPSILON
| first_terminal t rest :
    t <> EPSILON -> StdMap.find t grammar = None ->
    derivesFirst grammar (t :: rest) t
| first_head N rest prods prod x :
    N <> EPSILON -> In (N, prods) grammar -> In prod prods ->
    tokens_of prod <> [] -> derivesFirst grammar (tokens_of prod) x ->
    x <> EPSILON -> derivesFirst grammar (N :: rest) x
| first_skip N rest prods prod x :
    N <> EPSILON -> In (N, prods) grammar -> In prod prods ->
    tokens_of prod <> [] -> derivesFirst grammar (tokens_of prod) EPSILON ->
    derivesFirst grammar rest x -> derivesFirst grammar (N :: rest) x.

(** [x] is in FIRST([A]): some production of [A] that has tokens gives it. *)
Definition firstOf (grammar : Grammar) (A x : string) : Prop :=
  exists prods prod,
    In (A, prods) grammar /\ In prod prods /\ tokens_of prod <> [] /\
    derivesFirst grammar (tokens_of prod) x.

(** Every member of every set of [m] stands in relation [P] to its key. *)
Definition justified (P : string -> string -> Prop) (m : SetMap) : Prop :=
  forall A x, In x (sets_get A m) -> P A x.

(** The tokens the scan of a production has gone past: each is a
    non-terminal with Epsilon in its FIRST. *)
Definition passed (grammar : Grammar) (pre : list string) : Prop :=
  forall t, In t pre -> t <> EPSILON /\ firstOf grammar t EPSILON.

(** [x] is in FOLLOW([B]) by the rules the FOLLOW solver applies, FIRST of
    the tokens to the right of an occurrence being what [firstOfScan]
    collects under the FIRST map [first]. *)
Inductive followOf (grammar : Grammar) (first : SetMap) (startSymbol : string)
  : string -> string -> Prop :=
| follow_start : followOf grammar first startSymbol startSymbol ENDMARK
| follow_right A prods prod pre B rest firstRest allEpsilon x :
    In (A, prods) grammar -> In prod prods ->
    tokens_of prod = (pre ++ B :: rest)%list ->
    StdMap.find B grammar <> None ->
    firstOfScan rest first grammar [] = Some (firstRest, allEpsilon) ->
    In x firstRest ->
    followOf grammar first startSymbol B x
| follow_end A prods prod pre B rest firstRest x :
    In (A, prods) grammar -> In prod prods ->
    tokens_of prod = (pre ++ B :: rest)%list ->
    StdMap.find B grammar <> None ->
    firstOfScan rest first grammar [] = Some (firstRest, true) ->
    followOf grammar first startSymbol A x ->
    followOf grammar first startSymbol B x.

(** The tokens the scan to the right of an occurrence has gone past: keys
    with Epsilon in their FIRST set. *)
Definition passedBy (grammar : Grammar) (first : SetMap) (done : list string)
  : Prop :=
  forall t, In t done ->
    StdMap.find t grammar <> None /\
    exists firstToken,
      StdMap.find t first = Some firstToken /\ In EPSILON firstToken.

(** A grammar whose listing can be read as a grammar file: a non-terminal
    starts and ends with a character outside [" \t"] and holds no arrow and
    no line break; a production has a character outside [" \t"] and holds no
    ['|'] and no line break. *)
Definition printable (grammar : Grammar) : Prop :=
  forall A prods, In (A, prods) grammar ->
    find_first_not_of A = Some 0 /\
    find_last_not_of A = Some (String.length A - 1) /\
    index 0 ARROW A = None /\
    occurs NEWLINE A = false /\
    forall p, In p prods ->
      find_first_not_of p <> None /\ occurs BAR p = false /\
      occurs NEWLINE p = false.

(** What reading stores for a grammar that was printed. *)
Definition trimmedRules (grammar : Grammar) : Grammar :=
  map (fun nt => (fst nt, map trimOrKeep (snd nt))) grammar.

(** Production [p] of [A] is chosen on terminal [t]: [t] can start [p], or
    [p] can derive Epsilon and [t] can follow [A]. *)
Definition selects (grammar : Grammar) (first : SetMap) (startSymbol : string)
  (A p t : string) : Prop :=
  (derivesFirst grammar (tokens_of p) t /\ t <> EPSILON) \/
  (derivesFirst grammar (tokens_of p) EPSILON /\
   followOf grammar first startSymbol A t).

(** FIRST of a symbol sequence as sections 4.3 and 4.5 of the specification
    word it, over a FIRST map: the sequence is scanned from the left; the
    epsilon token gives Epsilon and ends the scan; a terminal (a token that
    is not a key) gives itself and ends the scan; a non-terminal gives the
    members of its FIRST set other than Epsilon, and the scan goes on past it
    when its FIRST set holds Epsilon; a sequence scanned to its end gives
    Epsilon. *)
Inductive specFirstOfString (grammar : Grammar) (first : SetMap)
  : list string -> string -> Prop :=
| spec_end : specFirstOfString grammar first [] EPSILON
| spec_epsilon rest : specFirstOfString grammar first (EPSILON :: rest) EPSILON
| spec_terminal t rest :
    t <> EPSILON -> StdMap.find t grammar = None ->
    specFirstOfString grammar first (t :: rest) t
| spec_head N rest x :
    N <> EPSILON -> StdMap.find N grammar <> None ->
    In x (sets_get N first) -> x <> EPSILON ->
    specFirstOfString grammar first (N :: rest) x
| spec_skip N rest x :
    N <> EPSILON -> StdMap.find N grammar <> None ->
    In EPSILON (sets_get N first) ->
    specFirstOfString grammar first rest x ->
    specFirstOfString grammar first (N :: rest) x.

(** The cells section 4.5 of the specification gives to production [prod]
    of [A]: [t] other than Epsilon in FIRST([prod]), or Epsilon in
    FIRST([prod]) and [t] in FOLLOW([A]). *)
Definition specClaims (grammar : Grammar) (first follow : SetMap)
  (A prod t : string) : Prop :=
  (specFirstOfString grammar first (tokens_of prod) t /\ t <> EPSILON) \/
  (specFirstOfString grammar first (tokens_of prod) EPSILON /\
   In t (sets_get A follow)).

(** The character that marks the names made by the two transformations. *)
Definition APOSTROPHE : ascii := "'"%char.

(** ** Grammars used as examples *)

(** A production list as token sequences, a grammar and a table likewise. *)
Definition symbolsOf (g : Grammar) : list (string * list (list string)) :=
  map (fun rule => (fst rule, map tokens_of (snd rule))) g.

Definition tableSymbols (tb : Table)
  : list (string * list (string * list string)) :=
  map (fun row => (fst row, map (fun c => (fst c, tokens_of (snd c))) (snd row)))
    tb.

(** [S -> A a | A b], [A -> c | d], read in that order. *)
Definition scenarioGrammar : Grammar :=
  StdMap.insert "A" ["c"; "d"] (StdMap.insert "S" ["A a"; "A b"] []).

Definition scenarioFinal : Grammar :=
  [("A", ["c"; "d"]); ("S", ["A S'"]); ("S'", ["a "; "b "])].
Definition scenarioFirst : SetMap :=
  [("A", ["c"; "d"]); ("S", ["c"; "d"]); ("S'", ["a"; "b"])].
Definition scenarioFollow : SetMap :=
  [("A", ["a"; "b"]); ("S", ["$"]); ("S'", ["$"])].

(** [A -> A | b]. *)
Definition cyclicGrammar : Grammar := StdMap.insert "A" ["A"; "b"] [].

(** [A -> a b | a c], [B -> d e | d f]. *)
Definition twoFactorable : Grammar :=
  StdMap.insert "B" ["d e"; "d f"] (StdMap.insert "A" ["a b"; "a c"] []).

(** [A -> a b | a c], [A' -> d e | d f]. *)
Definition collidingGrammar : Grammar :=
  StdMap.insert "A'" ["d e"; "d f"] (StdMap.insert "A" ["a b"; "a c"] []).

(** [S -> A ε], [A -> a]. *)
Definition epsilonAfterNonTerminal : Grammar :=
  StdMap.insert "A" ["a"] (StdMap.insert "S" ["A ε"] []).

(** [S -> a S | ε]. *)
Definition epsilonGrammar : Grammar := StdMap.insert "S" ["a S"; "ε"] [].

(** [A -> c | d], [S -> A a | b]: nothing to factor, no left recursion. *)
Definition plainGrammar : Grammar :=
  StdMap.insert "A" ["c"; "d"] (StdMap.insert "S" ["A a"; "b"] []).

(** The text of a grammar file: a line with an arrow and no name, a line
    without arrow, an empty line, and the two rules of the scenario. *)
Definition scenarioText : string :=
  "-> x" ++ NL ++ "no rule here" ++ NL ++ NL ++
  "S -> A a | A b" ++ NL ++ "A -> c | d" ++ NL.

(** The file [A -> ε], [ε -> z]: the epsilon token is also a
    non-terminal. *)
Definition epsilonKeyText : string :=
  "A -> ε" ++ NL ++ "ε -> z" ++ NL.

(** [S -> a S | a | ε] with FIRST(S) = {a, ε} and FOLLOW(S) = {$}: two
    productions start with [a]. *)
Definition conflictGrammar : Grammar :=
  StdMap.insert "S" ["a S"; "a"; "ε"] [].
Definition conflictFirst : SetMap := [("S", ["a"; "ε"])].
Definition conflictFollow : SetMap := [("S", ["$"])].

(** * Facts about the containers *)

Lemma compare_refl (k : string) : String.compare k k = Eq.
Proof.
  pose proof (String.compare_antisym k k) as H.
  destruct (String.compare k k); simpl in H; congruence.
Qed.

Lemma compare_Eq_eqb (k k' : string) :
  String.compare k k' = Eq -> (k =? k') = true.
Proof. intros H. apply String.compare_eq_iff in H. now apply String.eqb_eq. Qed.

Lemma compare_neq_eqb (k k' : string) :
  String.compare k k' <> Eq -> (k =? k') = false.
Proof.
  intros H. apply String.eqb_neq. intros ->. now rewrite compare_refl in H.
Qed.

Section MapFacts.
Variable V : Type.
Implicit Types (m : StdMap.t V) (k : string) (v : V).

Lemma find_insert k k' v m :
  StdMap.find k' (StdMap.insert k v m) =
  if k' =? k then Some v else StdMap.find k' m.
Proof.
  induction m as [|[k0 v0] m IH]; simpl.
  - reflexivity.
  - destruct (String.compare k k0) eqn:C; simpl.
    + apply String.compare_eq_iff in C. subst k0.
      destruct (k' =? k); reflexivity.
    + destruct (k' =? k) eqn:E; [reflexivity|]. reflexivity.
    + rewrite IH. destruct (k' =? k0) eqn:E0; [|reflexivity].
      apply String.eqb_eq in E0. subst k0.
      rewrite (compare_neq_eqb k' k); [reflexivity|].
      rewrite String.compare_antisym, C. discriminate.
Qed.

Lemma find_insert_eq k v m : StdMap.find k (StdMap.insert k v m) = Some v.
Proof. now rewrite find_insert, String.eqb_refl. Qed.

Lemma find_insert_neq k k' v m :
  k' <> k -> StdMap.find k' (StdMap.insert k v m) = StdMap.find k' m.
Proof. intros H. rewrite find_insert. now apply String.eqb_neq in H as ->. Qed.

Lemma find_In k v m : StdMap.find k m = Some v -> In (k, v) m.
Proof.
  induction m as [|[k0 v0] m IH]; simpl; [discriminate|].
  destruct (k =? k0) eqn:E.
  - apply String.eqb_eq in E. intros [= ->]. subst. now left.
  - intros H. right. auto.
Qed.

Lemma find_keys k m : StdMap.find k m <> None <-> In k (StdMap.keys m).
Proof.
  induction m as [|[k0 v0] m IH]; simpl.
  - split; [congruence | tauto].
  - destruct (k =? k0) eqn:E.
    + apply String.eqb_eq in E. subst. split; [now left | discriminate].
    + apply String.eqb_neq in E. rewrite IH. split; [now right|].
      intros [H|H]; [congruence | exact H].
Qed.

Lemma find_None_keys k m : StdMap.find k m = None <-> ~ In k (StdMap.keys m).
Proof.
  rewrite <- find_keys. destruct (StdMap.find k m); split; try congruence.
  intros H. exfalso. apply H. discriminate.
Qed.

Lemma keys_insert k k' v m :
  In k' (StdMap.keys (StdMap.insert k v m)) <-> k' = k \/ In k' (StdMap.keys m).
Proof.
  rewrite <- !find_keys, find_insert.
  destruct (k' =? k) eqn:E.
  - apply String.eqb_eq in E. split; [now left | discriminate].
  - apply String.eqb_neq in E. split; [now right | intros [H|H]; congruence].
Qed.

Variable dflt : V.

Lemma get_insert k k' v m :
  StdMap.get dflt k' (StdMap.insert k v m) =
  if k' =? k then v else StdMap.get dflt k' m.
Proof. unfold StdMap.get. rewrite find_insert. now destruct (k' =? k). Qed.

Lemma index_bound k m :
  StdMap.find k m <> None -> StdMap.index dflt k m = (StdMap.get dflt k m, m).
Proof.
  unfold StdMap.index, StdMap.get. destruct (StdMap.find k m); congruence.
Qed.
End MapFacts.

Section SetFacts.
Implicit Types (s : StdSet.t) (x y : string).

Lemma mem_In x s : StdSet.mem x s = true <-> In x s.
Proof.
  induction s as [|y s IH]; simpl.
  - split; [discriminate | tauto].
  - rewrite orb_true_iff, IH, String.eqb_eq. split; intros [H|H]; auto.
Qed.

Lemma mem_false x s : StdSet.mem x s = false <-> ~ In x s.
Proof.
  rewrite <- mem_In. destruct (StdSet.mem x s); split; congruence.
Qed.

Lemma In_place x y s : In y (StdSet.place x s) <-> y = x \/ In y s.
Proof.
  induction s as [|z s IH]; simpl.
  - intuition.
  - destruct (String.compare x z); simpl; rewrite ?IH; intuition.
Qed.

Lemma length_place x s :
  List.length (StdSet.place x s) = S (List.length s).
Proof.
  induction s as [|z s IH]; simpl; [reflexivity|].
  destruct (String.compare x z); simpl; rewrite ?IH; reflexivity.
Qed.

Lemma NoDup_place x s : ~ In x s -> NoDup s -> NoDup (StdSet.place x s).
Proof.
  induction s as [|z s IH]; simpl; intros Hx Hs.
  - constructor; [tauto | constructor].
  - destruct (String.compare x z); try (constructor; [simpl; tauto | exact Hs]).
    inversion Hs; subst. constructor.
    + rewrite In_place. intuition.
    + apply IH; tauto.
Qed.

Lemma In_insert x y s : In y (fst (StdSet.insert x s)) <-> y = x \/ In y s.
Proof.
  unfold StdSet.insert. destruct (StdSet.mem x s) eqn:M; simpl.
  - apply mem_In in M. split; [now right | intros [->|H]; assumption].
  - apply In_place.
Qed.
End SetFacts.

(** * The fixed-point loops *)

Section SolverFacts.
Variables K U : list string.

Lemma grows_refl st : kept K U (fst st) -> grows K U st st.
Proof. intros H. split; [exact H|]. split; [intros k x Hx; exact Hx | now left]. Qed.

Lemma grows_trans st1 st2 st3 :
  grows K U st1 st2 -> grows K U st2 st3 -> grows K U st1 st3.
Proof.
  intros (_ & S12 & C12) (K3 & S23 & C23).
  split; [exact K3|]. split.
  - intros k x Hx. apply S23, S12, Hx.
  - destruct C23 as [->|[T3 L23]]; [exact C12|].
    right. split; [exact T3|].
    destruct C12 as [->|[_ L12]]; [exact L23 | lia].
Qed.

Lemma grows_kept st st' : grows K U st st' -> kept K U (fst st').
Proof. now intros [H _]. Qed.

Lemma size_lt (m m' : SetMap) X :
  (forall k, List.length (sets_get k m) <= List.length (sets_get k m')) ->
  In X K ->
  List.length (sets_get X m) < List.length (sets_get X m') ->
  size K m < size K m'.
Proof.
  unfold size. intros Hle. induction K as [|k K' IH]; simpl; [tauto|].
  intros [->|HX] Hlt.
  - assert (list_sum (map (fun k => List.length (sets_get k m)) K') <=
            list_sum (map (fun k => List.length (sets_get k m')) K')).
    { clear IH. induction K' as [|k' K'' IH']; simpl; [lia|].
      specialize (Hle k'). lia. }
    lia.
  - specialize (IH HX Hlt). specialize (Hle k). lia.
Qed.

Lemma size_bound (m : SetMap) :
  kept K U m -> size K m <= List.length K * List.length U.
Proof.
  intros H. unfold size.
  assert (B : forall k, List.length (sets_get k m) <= List.length U).
  { intros k. apply NoDup_incl_length;
      [apply (kept_nodup H) | apply (kept_within H)]. }
  clear H. induction K as [|k K' IH]; simpl; [lia|].
  specialize (B k). lia.
Qed.

Lemma add_grows X sym st :
  kept K U (fst st) -> In X K -> In sym U -> grows K U st (add X sym st).
Proof.
  intros H HX Hsym. unfold add, StdSet.insert.
  destruct (StdSet.mem sym (sets_get X (fst st))) eqn:M.
  - now apply grows_refl.
  - apply mem_false in M. simpl.
    assert (G : forall k, sets_get k (StdMap.insert X (StdSet.place sym (sets_get X (fst st))) (fst st)) =
                if k =? X then StdSet.place sym (sets_get X (fst st)) else sets_get k (fst st)).
    { intros k. apply get_insert. }
    unfold grows, subsets. cbn [fst snd].
    split; [|split].
    + split.
      * intros k Hk. rewrite find_insert. destruct (k =? X); [discriminate|].
        now apply (kept_keys H).
      * intros k. rewrite G. destruct (k =? X).
        -- apply NoDup_place; [exact M | apply (kept_nodup H)].
        -- apply (kept_nodup H).
      * intros k x. rewrite G. destruct (k =? X).
        -- rewrite In_place. intros [->|Hx]; [exact Hsym | now apply (kept_within H X)].
        -- apply (kept_within H).
    + intros k x Hx. simpl. rewrite G. destruct (k =? X) eqn:E; [|exact Hx].
      apply String.eqb_eq in E. subst k. apply In_place. now right.
    + right. split; [reflexivity|]. simpl. apply size_lt with (X := X).
      * intros k. rewrite G. destruct (k =? X) eqn:E; [|lia].
        apply String.eqb_eq in E. subst k. rewrite length_place. lia.
      * exact HX.
      * rewrite G, String.eqb_refl, length_place. lia.
Qed.

Lemma addButEpsilon_grows X src st :
  kept K U (fst st) -> In X K ->
  (forall x, In x src -> x <> EPSILON -> In x U) ->
  grows K U st (addButEpsilon X src st).
Proof.
  intros H HX. unfold addButEpsilon. revert st H.
  induction src as [|x src IH]; intros st H Hsrc; simpl.
  - now apply grows_refl.
  - destruct (x =? EPSILON) eqn:E.
    + apply IH; [exact H | intros y Hy; apply Hsrc; now right].
    + apply String.eqb_neq in E.
      assert (G : grows K U st (add X x st)).
      { apply add_grows; [exact H | exact HX | apply Hsrc; [now left | exact E]]. }
      eapply grows_trans; [exact G|].
      apply IH; [apply (grows_kept G) | intros y Hy; apply Hsrc; now right].
Qed.

Lemma addAll_grows X src st :
  kept K U (fst st) -> In X K -> incl src U -> grows K U st (addAll X src st).
Proof.
  intros H HX. unfold addAll. revert st H.
  induction src as [|x src IH]; intros st H Hsrc; simpl.
  - now apply grows_refl.
  - assert (G : grows K U st (add X x st)).
    { apply add_grows; [exact H | exact HX | apply Hsrc; now left]. }
    eapply grows_trans; [exact G|].
    apply IH; [apply (grows_kept G) | intros y Hy; apply Hsrc; now right].
Qed.

Lemma In_add X sym st : In sym (sets_get X (fst (add X sym st))).
Proof.
  unfold add, StdSet.insert.
  destruct (StdSet.mem sym (sets_get X (fst st))) eqn:M.
  - now apply mem_In.
  - simpl. unfold sets_get. rewrite get_insert, String.eqb_refl.
    apply In_place. now left.
Qed.

Lemma sets_index_bound k (m : SetMap) :
  kept K U m -> In k K -> sets_index k m = (sets_get k m, m).
Proof. intros H Hk. apply index_bound. now apply (kept_keys H). Qed.
End SolverFacts.

Section FirstFacts.
Variable grammar : Grammar.
Variables K U : list string.
Hypothesis keys_in_K : forall t, StdMap.find t grammar <> None -> In t K.
Hypothesis epsilon_in_U : In EPSILON U.

Lemma firstScan_grows X tokens st :
  kept K U (fst st) -> In X K -> terminals_in grammar U tokens ->
  grows K U st (fst (firstScan grammar X tokens st)).
Proof.
  intros H HX. revert st H.
  induction tokens as [|token rest IH]; intros st H Htok; simpl.
  - now apply grows_refl.
  - destruct (token =? EPSILON); [now apply add_grows|].
    destruct (StdMap.find token grammar) eqn:F.
    2:{ simpl. apply add_grows;
          [exact H | exact HX | apply Htok; [now left | exact F]]. }
    assert (Ht : In token K) by (apply keys_in_K; congruence).
    rewrite (sets_index_bound token H Ht).
    assert (G : grows K U st (addButEpsilon X (sets_get token (fst st)) (fst st, snd st))).
    { rewrite <- surjective_pairing. apply addButEpsilon_grows; [exact H | exact HX |].
      intros x Hx _. now apply (kept_within H token). }
    set (st1 := addButEpsilon X (sets_get token (fst st)) (fst st, snd st)) in *.
    rewrite (sets_index_bound token (grows_kept G) Ht).
    rewrite <- surjective_pairing.
    destruct (StdSet.mem EPSILON (sets_get token (fst st1))).
    + eapply grows_trans; [exact G|].
      apply IH; [apply (grows_kept G) | intros y Hy; apply Htok; now right].
    + exact G.
Qed.

Lemma firstProd_grows X prod st :
  kept K U (fst st) -> In X K -> terminals_in grammar U (tokens_of prod) ->
  grows K U st (firstProd grammar X prod st).
Proof.
  intros H HX Htok. unfold firstProd.
  destruct (tokens_of prod) as [|t ts] eqn:T; [now apply grows_refl|].
  pose proof (firstScan_grows X st H HX Htok) as G.
  destruct (firstScan grammar X (t :: ts) st) as [st1 addEpsilon].
  simpl in G. destruct addEpsilon; [|exact G].
  eapply grows_trans; [exact G|].
  apply add_grows; [apply (grows_kept G) | exact HX | exact epsilon_in_U].
Qed.

Lemma firstProds_grows X prods st :
  kept K U (fst st) -> In X K ->
  (forall prod, In prod prods -> terminals_in grammar U (tokens_of prod)) ->
  grows K U st (fold_left (fun st prod => firstProd grammar X prod st) prods st).
Proof.
  intros H HX. revert st H.
  induction prods as [|prod prods IH]; intros st H Hp; simpl.
  - now apply grows_refl.
  - assert (G : grows K U st (firstProd grammar X prod st)).
    { apply firstProd_grows; [exact H | exact HX | apply Hp; now left]. }
    eapply grows_trans; [exact G|].
    apply IH; [apply (grows_kept G) | intros p Hin; apply Hp; now right].
Qed.

Lemma firstRules_grows rules st :
  kept K U (fst st) -> rules_within K (terminals_in grammar U) rules ->
  grows K U st (fold_left (firstRule grammar) rules st).
Proof.
  revert st. induction rules as [|[A prods] rules IH]; intros st H Hr; simpl.
  - now apply grows_refl.
  - destruct (Hr A prods (or_introl eq_refl)) as [HA Hp].
    assert (G : grows K U st (firstRule grammar st (A, prods))).
    { unfold firstRule. simpl. now apply firstProds_grows. }
    eapply grows_trans; [exact G|].
    apply IH; [apply (grows_kept G)|].
    intros B q Hin. apply Hr. now right.
Qed.

Hypothesis grammar_within : rules_within K (terminals_in grammar U) grammar.

Lemma firstPass_grows first :
  kept K U first -> grows K U (first, false) (firstPass grammar first).
Proof. intros H. now apply firstRules_grows. Qed.

Lemma firstLoop_returns fuel first :
  kept K U first ->
  List.length K * List.length U - size K first < fuel ->
  exists r, firstLoop fuel grammar first = Returns r /\
            kept K U r /\ subsets first r /\
            firstPass grammar r = (r, false).
Proof.
  revert first. induction fuel as [|fuel IH]; intros first H Hfuel; [lia|].
  simpl. destruct (firstPass_grows H) as (Hk & Hs & Hc).
  destruct (firstPass grammar first) as [first' changed] eqn:P.
  simpl in Hk, Hs, Hc. destruct Hc as [E|[-> Hlt]].
  - injection E as -> ->. exists first. repeat split; try assumption.
    + apply (kept_keys H). + apply (kept_nodup H). + apply (kept_within H).
  - pose proof (size_bound Hk) as B.
    destruct (IH first' Hk) as (r & Hr & Hkr & Hsr & Hst); [lia|].
    exists r. repeat split; try assumption.
    + apply (kept_keys Hkr). + apply (kept_nodup Hkr). + apply (kept_within Hkr).
    + intros k x Hx. apply Hsr, Hs, Hx.
Qed.
End FirstFacts.

Lemma emptySets_spec (rules : Grammar) (m0 : SetMap) k :
  let m := fold_left (fun m rule => StdMap.insert (fst rule) [] m) rules m0 in
  (sets_get k m0 = [] -> sets_get k m = []) /\
  (In k (StdMap.keys rules) \/ StdMap.find k m0 <> None ->
   StdMap.find k m <> None).
Proof.
  revert m0. induction rules as [|[A prods] rules IH]; intros m0; simpl.
  - split; [tauto | intros [[]|H]; exact H].
  - destruct (IH (StdMap.insert A [] m0)) as [IH1 IH2]. split.
    + intros H. apply IH1. unfold sets_get. rewrite get_insert.
      destruct (k =? A); [reflexivity | exact H].
    + intros H. apply IH2. rewrite find_insert.
      destruct (k =? A) eqn:E; [right; discriminate|].
      apply String.eqb_neq in E.
      destruct H as [[H|H]|H]; [congruence | now left | now right].
Qed.

Lemma sets_get_emptySets grammar k : sets_get k (emptySets grammar) = [].
Proof. now apply (emptySets_spec grammar []). Qed.

Lemma find_emptySets grammar k :
  In k (StdMap.keys grammar) -> StdMap.find k (emptySets grammar) <> None.
Proof. intros H. apply (emptySets_spec grammar []). now left. Qed.

Lemma kept_emptySets grammar U :
  kept (StdMap.keys grammar) U (emptySets grammar).
Proof.
  split.
  - apply find_emptySets.
  - intros k. rewrite sets_get_emptySets. constructor.
  - intros k. rewrite sets_get_emptySets. intros x [].
Qed.

Lemma tokens_in_grammarTokens (grammar : Grammar) A prods prod :
  In (A, prods) grammar -> In prod prods ->
  incl (tokens_of prod) (grammarTokens grammar).
Proof.
  intros HA Hp t Ht. unfold grammarTokens. apply in_flat_map.
  exists (A, prods). split; [exact HA|]. simpl. apply in_flat_map.
  exists prod. now split.
Qed.

Lemma In_terminals (grammar : Grammar) t :
  In t (terminals grammar) <->
  In t (grammarTokens grammar) /\ StdMap.find t grammar = None.
Proof.
  unfold terminals. rewrite filter_In.
  destruct (StdMap.find t grammar); intuition discriminate.
Qed.

Lemma rules_within_grammar (grammar : Grammar) U :
  incl (terminals grammar) U ->
  rules_within (StdMap.keys grammar) (terminals_in grammar U) grammar.
Proof.
  intros HU A prods HA. split.
  - unfold StdMap.keys. apply in_map_iff. now exists (A, prods).
  - intros prod Hp t Ht Hn. apply HU, In_terminals. split; [|exact Hn].
    now apply (tokens_in_grammarTokens grammar A prods prod).
Qed.

Lemma incl_terminals (grammar : Grammar) :
  incl (terminals grammar) (grammarTokens grammar).
Proof. intros t Ht. now apply In_terminals in Ht. Qed.

Lemma In_rightOfKey (grammar : Grammar) tokens t :
  In t (rightOfKey grammar tokens) -> In t tokens.
Proof.
  induction tokens as [|x rest IH]; simpl; [tauto|].
  destruct (StdMap.find x grammar); auto.
Qed.

Lemma rules_right_within_grammar (grammar : Grammar) U :
  (forall A prods prod t,
      In (A, prods) grammar -> In prod prods ->
      In t (rightOfKey grammar (tokens_of prod)) ->
      StdMap.find t grammar = None -> In t U) ->
  rules_within (StdMap.keys grammar) (right_terminals_in grammar U) grammar.
Proof.
  intros HU A prods HA. split.
  - unfold StdMap.keys. apply in_map_iff. now exists (A, prods).
  - intros prod Hp t Ht Hn. now apply (HU A prods prod t).
Qed.

Lemma rules_right_within_terminals (grammar : Grammar) U :
  incl (terminals grammar) U ->
  rules_within (StdMap.keys grammar) (right_terminals_in grammar U) grammar.
Proof.
  intros HU. apply rules_right_within_grammar.
  intros A prods prod t HA Hp Ht Hn. apply HU, In_terminals. split; [|exact Hn].
  apply (tokens_in_grammarTokens grammar A prods prod HA Hp).
  now apply In_rightOfKey in Ht.
Qed.

Lemma firstSet_returns (grammar : Grammar) :
  exists first,
    firstSet grammar = Returns first /\
    kept (StdMap.keys grammar) (firstUniverse grammar) first /\
    firstPass grammar first = (first, false).
Proof.
  destruct (@firstLoop_returns grammar (StdMap.keys grammar)
              (firstUniverse grammar)) with
    (fuel := firstFuel grammar) (first := emptySets grammar)
    as (r & Hr & Hk & _ & Hst).
  - intros t. apply find_keys.
  - now left.
  - apply rules_within_grammar. intros t Ht. right. now apply incl_terminals.
  - apply kept_emptySets.
  - unfold firstFuel, firstUniverse, StdMap.keys. simpl List.length.
    rewrite length_map. lia.
  - exists r. auto.
Qed.

(** The FIRST sets hold only Epsilon and tokens that are not keys. *)
Lemma firstSet_terminals (grammar : Grammar) :
  exists first,
    firstSet grammar = Returns first /\
    kept (StdMap.keys grammar) (EPSILON :: terminals grammar) first.
Proof.
  destruct (@firstLoop_returns grammar (StdMap.keys grammar)
              (EPSILON :: terminals grammar)) with
    (fuel := firstFuel grammar) (first := emptySets grammar)
    as (r & Hr & Hk & _ & _).
  - intros t. apply find_keys.
  - now left.
  - apply rules_within_grammar. intros t Ht. now right.
  - apply kept_emptySets.
  - unfold firstFuel, StdMap.keys. simpl List.length. rewrite length_map.
    pose proof (filter_length_le
                  (fun t => match StdMap.find t grammar with
                            | None => true
                            | Some _ => false
                            end) (grammarTokens grammar)) as L.
    fold (terminals grammar) in L.
    assert (List.length grammar * S (List.length (terminals grammar)) <=
            List.length grammar * S (List.length (grammarTokens grammar))).
    { apply Nat.mul_le_mono_l. lia. }
    lia.
  - exists r. auto.
Qed.

Section FollowFacts.
Variable grammar : Grammar.
Variable first : SetMap.
Variables K U : list string.
Hypothesis keys_in_K : forall t, StdMap.find t grammar <> None -> In t K.
(** [first.at] finds every key of the grammar. *)
Hypothesis first_total :
  forall t, StdMap.find t grammar <> None -> StdMap.find t first <> None.
Hypothesis first_within :
  forall t s x, StdMap.find t first = Some s -> In x s -> x <> EPSILON -> In x U.

Lemma followScan_grows B rest st :
  kept K U (fst st) -> In B K -> terminals_in grammar U rest ->
  exists st' addFollowA,
    followScan grammar first B rest st = Some (st', addFollowA) /\
    grows K U st st'.
Proof.
  intros H HB. revert st H.
  induction rest as [|beta rest IH]; intros st H Hrest; simpl.
  - exists st, true. split; [reflexivity | now apply grows_refl].
  - destruct (StdMap.find beta grammar) eqn:F.
    2:{ eexists _, _. split; [reflexivity|].
        apply add_grows; [exact H | exact HB | apply Hrest; [now left | exact F]]. }
    destruct (StdMap.find beta first) as [firstBeta|] eqn:F1.
    2:{ exfalso. apply (first_total beta); congruence. }
    assert (G : grows K U st (addButEpsilon B firstBeta st)).
    { apply addButEpsilon_grows; [exact H | exact HB |].
      intros x Hx Hne. exact (first_within beta F1 Hx Hne). }
    destruct (StdSet.mem EPSILON firstBeta).
    + destruct (IH (addButEpsilon B firstBeta st)) as (st' & b & E & G').
      * apply (grows_kept G).
      * intros y Hy. apply Hrest. now right.
      * exists st', b. split; [exact E | eapply grows_trans; eassumption].
    + eexists _, _. split; [reflexivity | exact G].
Qed.

Lemma followTokens_grows A tokens st :
  kept K U (fst st) -> In A K -> right_terminals_in grammar U tokens ->
  exists st', followTokens grammar first A tokens st = Some st' /\
              grows K U st st'.
Proof.
  intros H HA. revert st H.
  induction tokens as [|B rest IH]; intros st H Htok; simpl.
  - exists st. split; [reflexivity | now apply grows_refl].
  - unfold right_terminals_in in Htok. simpl in Htok.
    destruct (StdMap.find B grammar) eqn:F; [|now apply IH].
    assert (Hrest : right_terminals_in grammar U rest).
    { intros y Hy. apply Htok. now apply In_rightOfKey in Hy. }
    assert (HB : In B K) by (apply keys_in_K; congruence).
    destruct (followScan_grows B st H HB Htok) as (st1 & b & E & G).
    rewrite E.
    set (st2 := if b then let '(src, m1) := sets_index A (fst st1) in
                           addAll B src (m1, snd st1) else st1).
    assert (G2 : grows K U st st2).
    { subst st2. destruct b; [|exact G].
      rewrite (sets_index_bound A (grows_kept G) HA).
      rewrite <- surjective_pairing.
      eapply grows_trans; [exact G|].
      apply addAll_grows; [apply (grows_kept G) | exact HB |].
      apply (kept_within (grows_kept G)). }
    destruct (IH st2 (grows_kept G2) Hrest) as (st' & E' & G').
    exists st'. split; [exact E' | eapply grows_trans; eassumption].
Qed.

Lemma followProds_grows A prods st :
  kept K U (fst st) -> In A K ->
  (forall prod, In prod prods -> right_terminals_in grammar U (tokens_of prod)) ->
  exists st', followProds grammar first A prods st = Some st' /\
              grows K U st st'.
Proof.
  intros H HA. revert st H.
  induction prods as [|prod prods IH]; intros st H Hp; simpl.
  - exists st. split; [reflexivity | now apply grows_refl].
  - destruct (followTokens_grows A st H HA (Hp prod (or_introl eq_refl)))
      as (st1 & E & G).
    rewrite E.
    destruct (IH st1 (grows_kept G)) as (st' & E' & G').
    + intros p Hin. apply Hp. now right.
    + exists st'. split; [exact E' | eapply grows_trans; eassumption].
Qed.

Lemma followRules_grows rules st :
  kept K U (fst st) -> rules_within K (right_terminals_in grammar U) rules ->
  exists st', followRules grammar first rules st = Some st' /\
              grows K U st st'.
Proof.
  revert st. induction rules as [|[A prods] rules IH]; intros st H Hr; simpl.
  - exists st. split; [reflexivity | now apply grows_refl].
  - destruct (Hr A prods (or_introl eq_refl)) as [HA Hp].
    destruct (followProds_grows A prods st H HA Hp) as (st1 & E & G).
    rewrite E.
    destruct (IH st1 (grows_kept G)) as (st' & E' & G').
    + intros B q Hin. apply Hr. now right.
    + exists st'. split; [exact E' | eapply grows_trans; eassumption].
Qed.

Hypothesis grammar_within :
  rules_within K (right_terminals_in grammar U) grammar.

Lemma followLoop_returns fuel follow :
  kept K U follow ->
  List.length K * List.length U - size K follow < fuel ->
  exists r, followLoop fuel grammar first follow = Returns r /\
            kept K U r /\ subsets follow r /\
            followPass grammar first r = Some (r, false).
Proof.
  revert follow. induction fuel as [|fuel IH]; intros follow H Hfuel; [lia|].
  simpl. unfold followPass at 1.
  destruct (@followRules_grows grammar (follow, false) H grammar_within)
    as ([follow' changed] & E & Hk & Hs & Hc).
  rewrite E. simpl in Hk, Hs, Hc. destruct Hc as [Ec|[-> Hlt]].
  - injection Ec as -> ->. exists follow. repeat split; try assumption.
    + apply (kept_keys H). + apply (kept_nodup H). + apply (kept_within H).
  - pose proof (size_bound Hk) as B.
    destruct (IH follow' Hk) as (r & Hr & Hkr & Hsr & Hst); [lia|].
    exists r. repeat split; try assumption.
    + apply (kept_keys Hkr). + apply (kept_nodup Hkr). + apply (kept_within Hkr).
    + intros k x Hx. apply Hsr, Hs, Hx.
Qed.
End FollowFacts.

Lemma followInit_spec grammar startSymbol k :
  sets_get k (followInit grammar startSymbol) =
  if k =? startSymbol then [ENDMARK] else [].
Proof.
  unfold followInit, add. simpl. rewrite sets_get_emptySets. simpl.
  unfold sets_get. rewrite get_insert. destruct (k =? startSymbol); [reflexivity|].
  apply sets_get_emptySets.
Qed.

Lemma kept_followInit grammar startSymbol U :
  In ENDMARK U ->
  kept (startSymbol :: StdMap.keys grammar) U (followInit grammar startSymbol).
Proof.
  intros HU. split.
  - intros k Hk. unfold followInit, add. simpl. rewrite sets_get_emptySets.
    simpl. rewrite find_insert. destruct (k =? startSymbol) eqn:E; [discriminate|].
    apply String.eqb_neq in E. apply find_emptySets.
    destruct Hk as [Hk|Hk]; [congruence | exact Hk].
  - intros k. rewrite followInit_spec. destruct (k =? startSymbol).
    + constructor; [intros [] | constructor].
    + constructor.
  - intros k x. rewrite followInit_spec. destruct (k =? startSymbol).
    + intros [<-|[]]. exact HU.
    + intros [].
Qed.

Lemma rules_within_cons (grammar : Grammar) k K ok :
  rules_within K ok grammar -> rules_within (k :: K) ok grammar.
Proof. intros H A prods Hin. destruct (H A prods Hin). split; [now right | assumption]. Qed.

(** The FOLLOW loop returns for any FIRST map that binds the keys of the
    grammar, within any universe [U] closed under what the scan inserts and
    no larger than the fuel accounts for. *)
Lemma followSets_returns_within (grammar : Grammar) (first : SetMap)
  (startSymbol : string) (U : list string) :
  (forall t, StdMap.find t grammar <> None -> StdMap.find t first <> None) ->
  (forall t s x, StdMap.find t first = Some s -> In x s -> x <> EPSILON -> In x U) ->
  In ENDMARK U ->
  rules_within (StdMap.keys grammar) (right_terminals_in grammar U) grammar ->
  List.length U <=
    S (List.length (grammarTokens grammar) + List.length (members first)) ->
  exists follow,
    computeFollowSets grammar first startSymbol = Returns follow /\
    kept (startSymbol :: StdMap.keys grammar) U follow /\
    subsets (followInit grammar startSymbol) follow /\
    followPass grammar first follow = Some (follow, false).
Proof.
  intros Htotal Hwithin Hend Htok Hlen.
  apply followLoop_returns.
  - intros t Ht. right. now apply find_keys.
  - exact Htotal.
  - exact Hwithin.
  - now apply rules_within_cons.
  - now apply kept_followInit.
  - unfold followFuel. simpl List.length. unfold StdMap.keys.
    rewrite length_map.
    set (n := List.length grammar) in *.
    assert (S n * List.length U <=
            S n * S (List.length (grammarTokens grammar) + List.length (members first))).
    { apply Nat.mul_le_mono_l. exact Hlen. }
    lia.
Qed.

Lemma In_members (m : SetMap) t s x :
  StdMap.find t m = Some s -> In x s -> In x (members m).
Proof.
  intros F Hx. unfold members. apply in_flat_map. exists (t, s).
  split; [now apply find_In | exact Hx].
Qed.

Lemma firstPass_flag (grammar : Grammar) (m : SetMap) :
  kept (StdMap.keys grammar) (firstUniverse grammar) m ->
  subsets m (fst (firstPass grammar m)) /\
  (snd (firstPass grammar m) = false <-> fst (firstPass grammar m) = m).
Proof.
  intros H.
  destruct (@firstPass_grows grammar (StdMap.keys grammar) (firstUniverse grammar))
    with (first := m) as (_ & Hs & Hc).
  - intros t. apply find_keys.
  - now left.
  - apply rules_within_grammar. intros t Ht. right. now apply incl_terminals.
  - exact H.
  - split; [exact Hs|]. simpl in Hc. destruct Hc as [->|[E L]]; simpl.
    + tauto.
    + rewrite E. split; [discriminate|]. intros E'. rewrite E' in L. lia.
Qed.

Lemma firstLoop_more_fuel (grammar : Grammar) fuel fuel' m r :
  firstLoop fuel grammar m = Returns r -> fuel <= fuel' ->
  firstLoop fuel' grammar m = Returns r.
Proof.
  revert fuel' m. induction fuel as [|fuel IH]; intros fuel' m; simpl; [discriminate|].
  intros H Hle. destruct fuel' as [|fuel']; [lia|]. simpl.
  destruct (firstPass grammar m) as [m' changed].
  destruct changed; [|exact H]. apply IH; [exact H | lia].
Qed.

Lemma followLoop_more_fuel (grammar : Grammar) first fuel fuel' m r :
  followLoop fuel grammar first m = Returns r -> fuel <= fuel' ->
  followLoop fuel' grammar first m = Returns r.
Proof.
  revert fuel' m. induction fuel as [|fuel IH]; intros fuel' m; simpl; [discriminate|].
  intros H Hle. destruct fuel' as [|fuel']; [lia|]. simpl.
  destruct (followPass grammar first m) as [[m' changed]|]; [|exact H].
  destruct changed; [|exact H]. apply IH; [exact H | lia].
Qed.

Lemma first_within_follow (grammar : Grammar) (first : SetMap) :
  kept (StdMap.keys grammar) (firstUniverse grammar) first ->
  forall t s x, StdMap.find t first = Some s -> In x s -> x <> EPSILON ->
                In x (followUniverse grammar).
Proof.
  intros H t s x F Hx Hne.
  assert (Hs : sets_get t first = s).
  { unfold sets_get, StdMap.get. now rewrite F. }
  pose proof (kept_within H t) as W. rewrite Hs in W.
  destruct (W x Hx) as [E|Hin]; [congruence | now right].
Qed.

Lemma followPass_flag (grammar : Grammar) (first : SetMap) startSymbol U m :
  (forall t, StdMap.find t grammar <> None -> StdMap.find t first <> None) ->
  (forall t s x, StdMap.find t first = Some s -> In x s -> x <> EPSILON -> In x U) ->
  rules_within (StdMap.keys grammar) (right_terminals_in grammar U) grammar ->
  kept (startSymbol :: StdMap.keys grammar) U m ->
  exists m' changed,
    followPass grammar first m = Some (m', changed) /\
    subsets m m' /\ (changed = false <-> m' = m).
Proof.
  intros Ht Hw HU H.
  destruct (@followRules_grows grammar first (startSymbol :: StdMap.keys grammar) U)
    with (rules := grammar) (st := (m, false))
    as ([m' changed] & E & _ & Hs & Hc).
  - intros t Hf. right. now apply find_keys.
  - exact Ht.
  - exact Hw.
  - exact H.
  - now apply rules_within_cons.
  - exists m', changed. split; [exact E|]. split; [exact Hs|].
    simpl in Hc. destruct Hc as [Ec|[-> L]].
    + injection Ec as -> ->. tauto.
    + split; [discriminate|]. intros E'. rewrite E' in L. lia.
Qed.

(** C9.  Both fixed-point loops terminate on every grammar: with the fuel the
    solvers are given (and with any larger amount) the FIRST loop and then the
    FOLLOW loop return.  Every FIRST set stays within the tokens of the
    grammar plus Epsilon and every FOLLOW set within the tokens of the grammar
    plus the end marker; a pass only adds members to the sets, its [changed]
    flag is false exactly when no set changed, each loop goes on after a pass
    whose flag is set and returns after the first pass whose flag is not, and
    the maps returned are those of a pass that changed nothing. *)
Theorem solver_loops_terminate (grammar : Grammar) (startSymbol : string) :
  exists first follow,
    firstSet grammar = Returns first /\
    computeFollowSets grammar first startSymbol = Returns follow /\
    (forall fuel, firstFuel grammar <= fuel ->
       firstLoop fuel grammar (emptySets grammar) = Returns first) /\
    (forall fuel, followFuel grammar first <= fuel ->
       followLoop fuel grammar first (followInit grammar startSymbol) =
       Returns follow) /\
    (forall k x, In x (sets_get k first) ->
       x = EPSILON \/ In x (grammarTokens grammar)) /\
    (forall k x, In x (sets_get k follow) ->
       x = ENDMARK \/ In x (grammarTokens grammar)) /\
    firstPass grammar first = (first, false) /\
    followPass grammar first follow = Some (follow, false) /\
    (forall fuel m,
       firstLoop (S fuel) grammar m =
       if snd (firstPass grammar m)
       then firstLoop fuel grammar (fst (firstPass grammar m))
       else Returns (fst (firstPass grammar m))) /\
    (forall fuel m m' changed,
       followPass grammar first m = Some (m', changed) ->
       followLoop (S fuel) grammar first m =
       if changed then followLoop fuel grammar first m' else Returns m') /\
    (forall m, kept (StdMap.keys grammar) (firstUniverse grammar) m ->
       subsets m (fst (firstPass grammar m)) /\
       (snd (firstPass grammar m) = false <-> fst (firstPass grammar m) = m)) /\
    (forall m,
       kept (startSymbol :: StdMap.keys grammar) (followUniverse grammar) m ->
       exists m' changed,
         followPass grammar first m = Some (m', changed) /\
         subsets m m' /\ (changed = false <-> m' = m)).
Proof.
  destruct (firstSet_returns grammar) as (first & Hf & Hkf & Hstf).
  assert (Htotal : forall t, StdMap.find t grammar <> None ->
                             StdMap.find t first <> None).
  { intros t Ht. apply (kept_keys Hkf). now apply find_keys. }
  pose proof (first_within_follow Hkf) as Hwithin.
  destruct (@followSets_returns_within grammar first startSymbol
              (followUniverse grammar))
    as (follow & Ho & Hko & _ & Hsto).
  - exact Htotal.
  - exact Hwithin.
  - now left.
  - apply rules_right_within_terminals. intros t Ht. right.
    now apply incl_terminals.
  - unfold followUniverse. simpl. lia.
  - exists first, follow. repeat split.
    + exact Hf.
    + exact Ho.
    + intros fuel Hle. eapply firstLoop_more_fuel; [exact Hf | exact Hle].
    + intros fuel Hle. eapply followLoop_more_fuel; [exact Ho | exact Hle].
    + intros k x Hx. destruct (kept_within Hkf k x Hx) as [<-|Hin]; auto.
    + intros k x Hx. destruct (kept_within Hko k x Hx) as [<-|Hin]; auto.
    + exact Hstf.
    + exact Hsto.
    + intros fuel m. simpl. now destruct (firstPass grammar m).
    + intros fuel m m' changed E. simpl. now rewrite E.
    + apply (firstPass_flag H).
    + apply (firstPass_flag H).
    + apply (firstPass_flag H).
    + intros m H.
      apply (@followPass_flag grammar first startSymbol (followUniverse grammar) m).
      * exact Htotal.
      * exact Hwithin.
      * apply rules_right_within_terminals. intros t Ht. right.
        now apply incl_terminals.
      * exact H.
Qed.

(** C8.  Whenever the FIRST map handed to the FOLLOW solver binds every key
    of the grammar (so that [first.at] never throws), the solver returns a
    map whose set for the start symbol holds the end marker: it is there at
    initialization, every pass only inserts members, and so every set of the
    result includes the initial one. *)
Theorem follow_start_has_endmarker (grammar : Grammar) (first : SetMap)
  (startSymbol : string) :
  (forall t, StdMap.find t grammar <> None -> StdMap.find t first <> None) ->
  exists follow,
    computeFollowSets grammar first startSymbol = Returns follow /\
    In ENDMARK (sets_get startSymbol (followInit grammar startSymbol)) /\
    (forall m,
       kept (startSymbol :: StdMap.keys grammar)
         (ENDMARK :: grammarTokens grammar ++ members first) m ->
       exists m' changed,
         followPass grammar first m = Some (m', changed) /\ subsets m m') /\
    subsets (followInit grammar startSymbol) follow /\
    In ENDMARK (sets_get startSymbol follow).
Proof.
  intros Htotal.
  set (U := ENDMARK :: (grammarTokens grammar ++ members first)%list).
  assert (Hw : forall t s x, StdMap.find t first = Some s -> In x s ->
                             x <> EPSILON -> In x U).
  { intros t s x F Hx _. right. apply in_or_app. right.
    eapply In_members; eassumption. }
  assert (HU : rules_within (StdMap.keys grammar)
                 (right_terminals_in grammar U) grammar).
  { apply rules_right_within_terminals. intros t Ht. right. apply in_or_app.
    left. now apply incl_terminals. }
  destruct (@followSets_returns_within grammar first startSymbol U)
    as (follow & Ho & Hko & Hsub & _); try assumption.
  - now left.
  - unfold U. simpl. rewrite length_app. lia.
  - assert (Hinit : In ENDMARK (sets_get startSymbol (followInit grammar startSymbol))).
    { rewrite followInit_spec, String.eqb_refl. now left. }
    exists follow. repeat split.
    + exact Ho.
    + exact Hinit.
    + intros m Hm.
      destruct (@followPass_flag grammar first startSymbol U m Htotal Hw HU Hm)
        as (m' & changed & E & Hs & _).
      exists m', changed. now split.
    + exact Hsub.
    + apply Hsub, Hinit.
Qed.

(** X1.  In a grammar where the epsilon token never stands to the right of a
    non-terminal, the FOLLOW solver, run on the FIRST sets of the grammar,
    returns sets that hold only the end marker and tokens that are not keys
    of the grammar and are not Epsilon. *)
Theorem follow_sets_hold_terminals (grammar : Grammar) (startSymbol : string) :
  (forall A prods prod,
      In (A, prods) grammar -> In prod prods ->
      ~ In EPSILON (rightOfKey grammar (tokens_of prod))) ->
  exists first follow,
    firstSet grammar = Returns first /\
    computeFollowSets grammar first startSymbol = Returns follow /\
    forall k x, In x (sets_get k follow) ->
      x <> EPSILON /\ (x = ENDMARK \/ In x (terminals grammar)).
Proof.
  intros Hright.
  destruct (firstSet_terminals grammar) as (first & Hf & Hk).
  set (U := ENDMARK :: filter (fun t => negb (t =? EPSILON)) (terminals grammar)).
  assert (HU : forall x, In x (terminals grammar) -> x <> EPSILON -> In x U).
  { intros x Hx Hne. right. apply filter_In. split; [exact Hx|].
    now apply negb_true_iff, String.eqb_neq. }
  destruct (@followSets_returns_within grammar first startSymbol U)
    as (follow & Ho & Hko & _ & _).
  - intros t Ht. apply (kept_keys Hk). now apply find_keys.
  - intros t s x F Hx Hne. apply HU; [|exact Hne].
    assert (Hs : sets_get t first = s).
    { unfold sets_get, StdMap.get. now rewrite F. }
    pose proof (kept_within Hk t) as W. rewrite Hs in W.
    destruct (W x Hx) as [E|Hin]; [congruence | exact Hin].
  - now left.
  - apply rules_right_within_grammar. intros A prods prod t HA Hp Ht Hn.
    apply HU.
    + apply In_terminals. split; [|exact Hn].
      apply (tokens_in_grammarTokens grammar A prods prod HA Hp).
      now apply In_rightOfKey in Ht.
    + intros ->. now apply (Hright A prods prod HA Hp).
  - unfold U. simpl List.length.
    pose proof (filter_length_le (fun t => negb (t =? EPSILON))
                  (terminals grammar)) as L1.
    pose proof (filter_length_le
                  (fun t => match StdMap.find t grammar with
                            | None => true
                            | Some _ => false
                            end) (grammarTokens grammar)) as L2.
    fold (terminals grammar) in L2. lia.
  - exists first, follow. split; [exact Hf|]. split; [exact Ho|].
    intros k x Hx. destruct (kept_within Hko k x Hx) as [<-|Hin].
    + split; [discriminate | now left].
    + apply filter_In in Hin. destruct Hin as [Hin Hne].
      apply negb_true_iff, String.eqb_neq in Hne. split; [exact Hne | now right].
Qed.

Section FirstReach.
Variable grammar : Grammar.
Variables K U : list string.
Hypothesis keys_in_K : forall t, StdMap.find t grammar <> None -> In t K.
Hypothesis epsilon_in_U : In EPSILON U.

Lemma firstProd_epsilon X prod st :
  tokens_of prod = [EPSILON] ->
  firstProd grammar X prod st = add X EPSILON st.
Proof. intros T. unfold firstProd. rewrite T. reflexivity. Qed.

Lemma firstProds_reach X prods prod st :
  kept K U (fst st) -> In X K ->
  (forall p, In p prods -> terminals_in grammar U (tokens_of p)) ->
  In prod prods -> tokens_of prod = [EPSILON] ->
  In EPSILON
    (sets_get X
       (fst (fold_left (fun st p => firstProd grammar X p st) prods st))).
Proof.
  intros H HX. revert st H.
  induction prods as [|p prods IH]; intros st H Hp Hin T; [destruct Hin|].
  simpl.
  assert (G : grows K U st (firstProd grammar X p st)).
  { apply firstProd_grows; auto. apply Hp. now left. }
  assert (Hp' : forall q, In q prods -> terminals_in grammar U (tokens_of q)).
  { intros q Hq. apply Hp. now right. }
  destruct Hin as [->|Hin].
  - destruct (@firstProds_grows grammar K U keys_in_K epsilon_in_U X prods
                (firstProd grammar X prod st) (grows_kept G) HX Hp')
      as (_ & Hs & _).
    apply Hs. rewrite (firstProd_epsilon X prod st T). apply In_add.
  - apply IH; auto. apply (grows_kept G).
Qed.

Lemma firstRules_reach rules A prods prod st :
  kept K U (fst st) -> rules_within K (terminals_in grammar U) rules ->
  In (A, prods) rules -> In prod prods -> tokens_of prod = [EPSILON] ->
  In EPSILON (sets_get A (fst (fold_left (firstRule grammar) rules st))).
Proof.
  revert st. induction rules as [|[B q] rules IH]; intros st H Hr HA Hp T;
    [destruct HA|].
  simpl.
  destruct (Hr B q (or_introl eq_refl)) as [HB Hq].
  assert (G : grows K U st (firstRule grammar st (B, q))).
  { unfold firstRule. simpl. now apply firstProds_grows. }
  assert (Hr' : rules_within K (terminals_in grammar U) rules).
  { intros C c Hin. apply Hr. now right. }
  destruct HA as [E|HA].
  - injection E as -> ->.
    destruct (@firstRules_grows grammar K U keys_in_K epsilon_in_U rules
                (firstRule grammar st (A, prods)) (grows_kept G) Hr')
      as (_ & Hs & _).
    apply Hs. unfold firstRule. simpl.
    now apply firstProds_reach with (prod := prod).
  - apply IH; auto. apply (grows_kept G).
Qed.
End FirstReach.

(** A production that is the epsilon token alone puts Epsilon in the FIRST
    set of its non-terminal. *)
Lemma epsilon_in_firstSet (grammar : Grammar) first A prods prod :
  firstSet grammar = Returns first ->
  In (A, prods) grammar -> In prod prods -> tokens_of prod = [EPSILON] ->
  In EPSILON (sets_get A first).
Proof.
  intros Hf HA Hp T.
  destruct (firstSet_returns grammar) as (r & Hr & Hk & Hst).
  rewrite Hf in Hr. injection Hr as <-.
  replace first with (fst (firstPass grammar first)) at 1 by now rewrite Hst.
  unfold firstPass.
  apply (@firstRules_reach grammar (StdMap.keys grammar) (firstUniverse grammar))
    with (prods := prods) (prod := prod); auto.
  - intros t. apply find_keys.
  - now left.
  - apply rules_within_grammar. intros t Ht. right. now apply incl_terminals.
Qed.

(** * The parsing table *)

Lemma cell_setCell A t p (tb : Table) A' t' :
  cell (setCell A t p tb) A' t' =
  if (A' =? A) && (t' =? t) then Some p else cell tb A' t'.
Proof.
  unfold cell, setCell. rewrite find_insert.
  destruct (A' =? A) eqn:E; simpl; [|reflexivity].
  apply String.eqb_eq in E. subst A'. rewrite find_insert.
  destruct (t' =? t); [reflexivity|].
  unfold StdMap.get. destruct (StdMap.find A tb); reflexivity.
Qed.

Lemma cell_fold_first A p l (tb : Table) A' t' :
  cell (fold_left
          (fun tb t => if t =? EPSILON then tb else setCell A t p tb) l tb)
       A' t' =
  if (A' =? A) && (StdSet.mem t' l && negb (t' =? EPSILON)) then Some p
  else cell tb A' t'.
Proof.
  revert tb. induction l as [|x l IH]; intros tb; simpl.
  - now rewrite andb_false_r.
  - rewrite IH.
    destruct (x =? EPSILON) eqn:Ex; rewrite ?cell_setCell;
      destruct (A' =? A), (StdSet.mem t' l), (t' =? EPSILON) eqn:Et,
        (t' =? x) eqn:Etx; simpl; try reflexivity;
      apply String.eqb_eq in Etx; subst; congruence.
Qed.

Lemma cell_fold_follow A p l (tb : Table) A' t' :
  cell (fold_left (fun tb t => setCell A t p tb) l tb) A' t' =
  if (A' =? A) && StdSet.mem t' l then Some p else cell tb A' t'.
Proof.
  revert tb. induction l as [|x l IH]; intros tb; simpl.
  - now rewrite andb_false_r.
  - rewrite IH, cell_setCell.
    destruct (A' =? A), (StdSet.mem t' l), (t' =? x); reflexivity.
Qed.

Lemma cell_fillCells follow A p firstAlpha (tb : Table) A' t' :
  cell (fillCells follow A p firstAlpha tb) A' t' =
  if (A' =? A) && claimed follow A firstAlpha t' then Some p
  else cell tb A' t'.
Proof.
  unfold fillCells, claimed.
  destruct (StdSet.mem EPSILON firstAlpha); simpl.
  - rewrite cell_fold_follow, cell_fold_first.
    destruct (A' =? A), (StdSet.mem t' (sets_get A follow)),
      (StdSet.mem t' firstAlpha && negb (t' =? EPSILON)); reflexivity.
  - rewrite cell_fold_first, orb_false_r. reflexivity.
Qed.

Section TableFacts.
Variable grammar : Grammar.
Variables first follow : SetMap.

Lemma cell_tableProd A p (tb tb' : Table) A' t :
  tableProd grammar first follow A p tb = Some tb' ->
  cell tb' A' t =
  if (A' =? A) && claimsb grammar first follow A p t then Some p
  else cell tb A' t.
Proof.
  unfold tableProd, claimsb.
  destruct (computeFirstOfString (tokens_of p) first grammar) as [fa|];
    [|discriminate].
  intros [= <-]. apply cell_fillCells.
Qed.

Lemma cell_tableProds A prods (tb tb' : Table) A' t :
  tableProds grammar first follow A prods tb = Some tb' ->
  cell tb' A' t =
  if A' =? A then winner grammar first follow A prods t (cell tb A' t)
  else cell tb A' t.
Proof.
  revert tb. induction prods as [|p prods IH]; intros tb; simpl.
  - intros [= <-]. now destruct (A' =? A).
  - destruct (tableProd grammar first follow A p tb) as [tb1|] eqn:E;
      [|discriminate].
    intros H. rewrite (IH tb1 H), (cell_tableProd A p tb A' t E).
    destruct (A' =? A); reflexivity.
Qed.

Lemma cell_tableRules (rules : Grammar) (tb tb' : Table) A t :
  NoDup (StdMap.keys rules) ->
  tableRules grammar first follow rules tb = Some tb' ->
  cell tb' A t =
  match StdMap.find A rules with
  | Some prods => winner grammar first follow A prods t (cell tb A t)
  | None => cell tb A t
  end.
Proof.
  revert tb. induction rules as [|[B q] rules IH]; intros tb ND; simpl.
  - now intros [= <-].
  - destruct (tableProds grammar first follow B q tb) as [tb1|] eqn:E;
      [|discriminate].
    intros H. inversion ND as [|? ? HB ND']; subst.
    rewrite (IH tb1 ND' H), (cell_tableProds B q tb A t E).
    destruct (A =? B) eqn:EA; [|reflexivity].
    apply String.eqb_eq in EA. subst B.
    apply find_None_keys in HB. now rewrite HB.
Qed.

Lemma claimsb_spec A p t :
  claimsb grammar first follow A p t = true <->
  claims grammar first follow A p t.
Proof.
  unfold claimsb, claims, claimed.
  destruct (computeFirstOfString (tokens_of p) first grammar) as [fa|].
  - rewrite orb_true_iff, !andb_true_iff, negb_true_iff, !mem_In,
      String.eqb_neq.
    split.
    + intros H. exists fa. now split.
    + intros (fa' & [= <-] & H). exact H.
  - split; [discriminate | intros (fa' & E & _); discriminate].
Qed.

Lemma winner_None A prods t :
  winner grammar first follow A prods t None = None <->
  forall q, In q prods -> claimsb grammar first follow A q t = false.
Proof.
  assert (S : forall prods p,
             winner grammar first follow A prods t (Some p) <> None).
  { clear prods. induction prods as [|q prods IH]; intros p; simpl;
      [discriminate|].
    destruct (claimsb grammar first follow A q t); apply IH. }
  induction prods as [|q prods IH]; simpl.
  - split; [intros _ q [] | reflexivity].
  - destruct (claimsb grammar first follow A q t) eqn:C.
    + split; [intros H; now apply S in H|].
      intros H. specialize (H q (or_introl eq_refl)). congruence.
    + rewrite IH. split.
      * intros H r [<-|Hr]; auto.
      * intros H r Hr. apply H. now right.
Qed.

Lemma winner_Some A prods t earlier p :
  winner grammar first follow A prods t earlier = Some p <->
  (exists before after,
      prods = (before ++ p :: after)%list /\
      claimsb grammar first follow A p t = true /\
      forall q, In q after -> claimsb grammar first follow A q t = false) \/
  (earlier = Some p /\
   forall q, In q prods -> claimsb grammar first follow A q t = false).
Proof.
  revert earlier. induction prods as [|q prods IH]; intros earlier; simpl.
  - split.
    + intros ->. right. split; [reflexivity | intros q []].
    + intros [(b & a & E & _)|[-> _]]; [|reflexivity].
      destruct b; discriminate.
  - rewrite IH. split.
    + intros [(b & a & -> & C & L)|[E L]].
      * left. exists (q :: b), a. now split.
      * destruct (claimsb grammar first follow A q t) eqn:C.
        -- injection E as ->. left. exists [], prods. now split.
        -- right. split; [exact E|]. intros r [<-|Hr]; auto.
    + intros [(b & a & E & C & L)|[-> L]].
      * destruct b as [|q' b]; simpl in E; injection E as -> ->.
        -- right. rewrite C. now split.
        -- left. exists b, a. now split.
      * right. rewrite (L q (or_introl eq_refl)). split; [reflexivity|].
        intros r Hr. apply L. now right.
Qed.

Hypothesis first_total :
  forall t, StdMap.find t grammar <> None -> StdMap.find t first <> None.

Lemma firstOfScan_total tokens result :
  firstOfScan tokens first grammar result <> None.
Proof.
  revert result. induction tokens as [|token rest IH]; intros result; simpl.
  - discriminate.
  - destruct (StdMap.find token grammar) eqn:F; [|discriminate].
    destruct (StdMap.find token first) eqn:F1.
    + destruct (StdSet.mem EPSILON t); [apply IH | discriminate].
    + exfalso. apply (first_total token); congruence.
Qed.

Lemma computeFirstOfString_total tokens :
  computeFirstOfString tokens first grammar <> None.
Proof.
  unfold computeFirstOfString.
  pose proof (firstOfScan_total tokens []) as H.
  destruct (firstOfScan tokens first grammar []) as [[r b]|]; congruence.
Qed.

Lemma tableProds_total A prods (tb : Table) :
  tableProds grammar first follow A prods tb <> None.
Proof.
  revert tb. induction prods as [|p prods IH]; intros tb; simpl.
  - discriminate.
  - unfold tableProd.
    pose proof (computeFirstOfString_total (tokens_of p)) as H.
    destruct (computeFirstOfString (tokens_of p) first grammar); [apply IH | congruence].
Qed.

Lemma tableRules_total (rules : Grammar) (tb : Table) :
  tableRules grammar first follow rules tb <> None.
Proof.
  revert tb. induction rules as [|[B q] rules IH]; intros tb; simpl.
  - discriminate.
  - pose proof (tableProds_total B q tb) as H.
    destruct (tableProds grammar first follow B q tb); [apply IH | congruence].
Qed.
End TableFacts.

Lemma not_claims_iff grammar first follow A q t :
  claimsb grammar first follow A q t = false <->
  ~ claims grammar first follow A q t.
Proof.
  rewrite <- claimsb_spec.
  destruct (claimsb grammar first follow A q t); split; congruence.
Qed.

(** * FIRST of a production, from a FIRST map *)

Lemma specFirstOfString_nil grammar first x :
  specFirstOfString grammar first [] x <-> x = EPSILON.
Proof. split; [now inversion 1 | intros ->; constructor]. Qed.

Lemma specFirstOfString_epsilon grammar first rest x :
  specFirstOfString grammar first (EPSILON :: rest) x <-> x = EPSILON.
Proof.
  split; [|intros ->; constructor].
  inversion 1; subst; congruence.
Qed.

Lemma specFirstOfString_terminal grammar first t rest x :
  StdMap.find t grammar = None ->
  (specFirstOfString grammar first (t :: rest) x <-> x = t).
Proof.
  intros F. split.
  - inversion 1; subst; congruence.
  - intros ->. destruct (String.eqb_spec t EPSILON) as [->|N];
      [constructor | now constructor].
Qed.

Lemma specFirstOfString_key grammar first N rest x :
  N <> EPSILON -> StdMap.find N grammar <> None ->
  (specFirstOfString grammar first (N :: rest) x <->
   (In x (sets_get N first) /\ x <> EPSILON) \/
   (In EPSILON (sets_get N first) /\ specFirstOfString grammar first rest x)).
Proof.
  intros Hne F. split.
  - inversion 1; subst; try congruence; tauto.
  - intros [[H1 H2]|[H1 H2]].
    + now apply spec_head.
    + now apply spec_skip.
Qed.

(** * Tokens *)

Lemma append_empty_r (s : string) : s ++ "" = s.
Proof. induction s; simpl; congruence. Qed.

Lemma append_assoc (a b c : string) : (a ++ b) ++ c = a ++ (b ++ c).
Proof. induction a; simpl; congruence. Qed.

Lemma length_append (a b : string) :
  String.length (a ++ b) = String.length a + String.length b.
Proof. induction a; simpl; congruence. Qed.

Lemma trimmed_empty : trimmed "" = [].
Proof. reflexivity. Qed.

Lemma split_app_delim d cur s u :
  flat_map trimmed (getlines d cur (s ++ String d u)) =
  (flat_map trimmed (getlines d cur s) ++ flat_map trimmed (getlines d "" u))%list.
Proof.
  revert cur. induction s as [|c s IH]; intros cur; simpl.
  - rewrite Ascii.eqb_refl. simpl. destruct cur; simpl.
    + reflexivity.
    + now rewrite app_nil_r.
  - destruct (c =? d)%char; simpl.
    + now rewrite IH, app_assoc.
    + apply IH.
Qed.

Lemma tokens_of_app_space s u :
  tokens_of (s ++ String " " u) = (tokens_of s ++ tokens_of u)%list.
Proof. apply split_app_delim. Qed.

Lemma trimmed_cons c s :
  trimmed (String c s) =
  if is_blank c then trimmed s else [String c (rstrip s)].
Proof.
  unfold trimmed, rstrip. simpl.
  destruct (is_blank c) eqn:B.
  - destruct (find_first_not_of s) as [a|]; simpl; [|reflexivity].
    destruct (find_last_not_of s) as [b|]; simpl; reflexivity.
  - destruct (find_last_not_of s) as [b|]; simpl.
    + now rewrite Nat.add_1_r.
    + destruct s; reflexivity.
Qed.

Lemma substring_0_length s : substring 0 (String.length s) s = s.
Proof. induction s; simpl; congruence. Qed.

Lemma getlines_no_delim d cur s :
  occurs d s = false ->
  getlines d cur s = match cur ++ s with EmptyString => [] | _ => [cur ++ s] end.
Proof.
  revert cur. induction s as [|c s IH]; intros cur; simpl.
  - intros _. rewrite append_empty_r. reflexivity.
  - intros H. apply orb_false_iff in H. destruct H as [H1 H2].
    rewrite H1, (IH _ H2), append_assoc. reflexivity.
Qed.

Lemma word_nonempty t : word t -> t <> "".
Proof. intros [H _] ->. discriminate. Qed.

Lemma tokens_of_word t : word t -> tokens_of t = [t].
Proof.
  intros W. pose proof (word_nonempty W) as Hne. destruct W as (F & L & O).
  unfold tokens_of, split. rewrite (@getlines_no_delim SPACE "" t O). simpl.
  destruct t as [|c t]; [congruence|]. simpl. rewrite app_nil_r.
  unfold trimmed. rewrite F, L.
  replace (String.length (String c t) - 1 - 0 + 1) with (String.length (String c t))
    by (simpl; lia).
  now rewrite substring_0_length.
Qed.

Lemma occurs_getlines d cur s r :
  occurs d cur = false -> In r (getlines d cur s) -> occurs d r = false.
Proof.
  revert cur. induction s as [|c s IH]; intros cur Hc; simpl.
  - destruct cur; simpl; [tauto|]. intros [<-|[]]. exact Hc.
  - destruct (c =? d)%char eqn:E.
    + intros [<-|H]; [exact Hc|]. now apply (IH "").
    + apply IH. clear IH. induction cur as [|x cur IHc]; simpl in *.
      * now rewrite E.
      * apply orb_false_iff in Hc. destruct Hc as [H1 H2].
        rewrite H1. now apply IHc.
Qed.

Lemma occurs_substring d n m s :
  occurs d s = false -> occurs d (substring n m s) = false.
Proof.
  revert n m. induction s as [|c s IH]; intros n m H; simpl.
  - destruct n, m; reflexivity.
  - simpl in H. apply orb_false_iff in H. destruct H as [H1 H2].
    destruct n; [destruct m|]; simpl; auto.
    rewrite H1. simpl. auto.
Qed.

Lemma rstrip_spec s j :
  find_last_not_of s = Some j ->
  find_last_not_of (substring 0 (S j) s) = Some j /\
  String.length (substring 0 (S j) s) = S j.
Proof.
  revert j. induction s as [|c s IH]; intros j; simpl; [discriminate|].
  destruct (find_last_not_of s) as [j'|] eqn:L.
  - intros [= <-]. destruct (IH j' eq_refl) as [IH1 IH2].
    rewrite IH1, IH2. now split.
  - destruct (is_blank c) eqn:B; [discriminate|]. intros [= <-].
    destruct s; simpl; now split.
Qed.

Lemma word_trimmed r t :
  occurs SPACE r = false -> In t (trimmed r) -> word t.
Proof.
  induction r as [|c r IH]; [intros _ []|].
  simpl occurs. intros H. apply orb_false_iff in H. destruct H as [H1 H2].
  rewrite trimmed_cons. destruct (is_blank c) eqn:B; [now apply IH|].
  intros [<-|[]]. unfold word, rstrip. simpl. rewrite B, H1. simpl.
  destruct (find_last_not_of r) as [j|] eqn:L.
  - destruct (rstrip_spec r L) as [E1 E2]. rewrite E1, E2.
    split; [reflexivity|]. split; [f_equal; lia|].
    now apply occurs_substring.
  - simpl. now repeat split.
Qed.

Lemma word_tokens_of s t : In t (tokens_of s) -> word t.
Proof.
  unfold tokens_of, split. intros H. apply in_flat_map in H.
  destruct H as (r & Hr & Ht).
  apply (@word_trimmed r); [|exact Ht].
  now apply (@occurs_getlines SPACE "" s).
Qed.

Lemma tokens_of_spaced_app ts u :
  Forall word ts -> tokens_of (spaced ts ++ u) = (ts ++ tokens_of u)%list.
Proof.
  induction 1 as [|t ts Ht Hts IH]; simpl; [reflexivity|].
  rewrite append_assoc. simpl.
  rewrite tokens_of_app_space, (tokens_of_word Ht), IH. reflexivity.
Qed.

Lemma tokens_of_spaced ts : Forall word ts -> tokens_of (spaced ts) = ts.
Proof.
  intros H. rewrite <- (append_empty_r (spaced ts)).
  rewrite (tokens_of_spaced_app "" H). apply app_nil_r.
Qed.

Lemma Forall_word_tokens s : Forall word (tokens_of s).
Proof. apply Forall_forall. intros t. apply word_tokens_of. Qed.

Lemma occurs_append d a b : occurs d (a ++ b) = occurs d a || occurs d b.
Proof. induction a as [|c a IH]; simpl; [reflexivity|]. now rewrite IH, orb_assoc. Qed.

Lemma find_last_append a b j :
  find_last_not_of b = Some j ->
  find_last_not_of (a ++ b) = Some (String.length a + j).
Proof. intros H. induction a as [|c a IH]; simpl; [exact H|]. now rewrite IH. Qed.

Lemma blank_free_last w :
  blank_free w = true -> w <> "" ->
  find_last_not_of w = Some (String.length w - 1).
Proof.
  induction w as [|c w IH]; [congruence|]. simpl. intros H _.
  apply andb_true_iff in H. destruct H as [H1 H2]. apply negb_true_iff in H1.
  destruct w as [|c' w].
  - simpl. now rewrite H1.
  - rewrite (IH H2); [|discriminate]. simpl. f_equal. lia.
Qed.

Lemma blank_free_no_space w : blank_free w = true -> occurs SPACE w = false.
Proof.
  induction w as [|c w IH]; simpl; [reflexivity|]. intros H.
  apply andb_true_iff in H. destruct H as [H1 H2]. rewrite (IH H2).
  apply negb_true_iff in H1. unfold is_blank in H1.
  apply orb_false_iff in H1. destruct H1 as [H1 _]. now rewrite H1.
Qed.

Lemma word_append N w : word N -> blank_free w = true -> word (N ++ w).
Proof.
  intros W Hw. destruct w as [|c w]; [now rewrite append_empty_r|].
  destruct W as (F & L & O). repeat split.
  - destruct N as [|x N]; [discriminate|]. simpl in *.
    destruct (is_blank x); [|reflexivity].
    destruct (find_first_not_of N); discriminate.
  - assert (Hl : find_last_not_of (String c w) =
                  Some (String.length (String c w) - 1)).
    { apply blank_free_last; [exact Hw | discriminate]. }
    rewrite (find_last_append N _ Hl), length_append. simpl. f_equal. lia.
  - rewrite occurs_append, O. apply (blank_free_no_space (String c w) Hw).
Qed.

Lemma blank_free_uint d : blank_free (NilEmpty.string_of_uint d) = true.
Proof. induction d; simpl; auto. Qed.

Lemma blank_free_to_string n : blank_free (to_string n) = true.
Proof.
  unfold to_string, NilZero.string_of_int, NilZero.string_of_uint.
  destruct (Z.to_int n) as [d|d]; destruct d; simpl; auto using blank_free_uint.
Qed.

Lemma blank_free_append a b :
  blank_free (a ++ b) = blank_free a && blank_free b.
Proof. induction a as [|c a IH]; simpl; [reflexivity|]. now rewrite IH, andb_assoc. Qed.

Lemma freshName_append N c :
  freshName N c = N ++ ("'" ++ if (1 <? c)%Z then to_string c else "").
Proof. unfold freshName. now rewrite append_assoc. Qed.

Lemma word_freshName N c : word N -> word (freshName N c).
Proof.
  intros W. rewrite freshName_append. apply word_append; [exact W|].
  simpl. destruct (1 <? c)%Z; [apply blank_free_to_string | reflexivity].
Qed.

Lemma append_neq s w : w <> "" -> s ++ w <> s.
Proof.
  intros Hw E. apply (f_equal String.length) in E.
  rewrite length_append in E. destruct w; [congruence | simpl in E; lia].
Qed.

Lemma primed_neq N : N ++ "'" <> N.
Proof. apply append_neq. discriminate. Qed.

Lemma freshName_neq N c : freshName N c <> N.
Proof. rewrite freshName_append. apply append_neq. discriminate. Qed.

(** * Left factoring *)

Lemma is_prefix_nil l : is_prefix [] l.
Proof. now exists l. Qed.

Lemma commonPrefix_l a b : is_prefix (commonPrefix a b) a.
Proof.
  revert b. induction a as [|x a IH]; intros [|y b]; simpl;
    try apply is_prefix_nil.
  destruct (x =? y); [|apply is_prefix_nil].
  destruct (IH b) as [r Hr]. exists r. simpl. now rewrite <- Hr.
Qed.

Lemma commonPrefix_r a b : is_prefix (commonPrefix a b) b.
Proof.
  revert b. induction a as [|x a IH]; intros [|y b]; simpl;
    try apply is_prefix_nil.
  destruct (x =? y) eqn:E; [|apply is_prefix_nil].
  apply String.eqb_eq in E. subst y.
  destruct (IH b) as [r Hr]. exists r. simpl. now rewrite <- Hr.
Qed.

Lemma commonPrefix_greatest p a b :
  is_prefix p a -> is_prefix p b -> is_prefix p (commonPrefix a b).
Proof.
  revert a b. induction p as [|x p IH]; intros a b [ra Ha] [rb Hb];
    [apply is_prefix_nil|].
  subst a b. simpl. rewrite String.eqb_refl.
  destruct (IH (p ++ ra)%list (p ++ rb)%list) as [r Hr];
    [now exists ra | now exists rb |].
  exists r. simpl. now rewrite <- Hr.
Qed.

Lemma is_prefix_trans p q l : is_prefix p q -> is_prefix q l -> is_prefix p l.
Proof.
  intros [r1 ->] [r2 ->]. exists (r1 ++ r2)%list. now rewrite app_assoc.
Qed.

Lemma commonOfAll_prefix common rest :
  is_prefix (commonOfAll common rest) common /\
  forall tokens, In tokens rest -> is_prefix (commonOfAll common rest) tokens.
Proof.
  revert common. induction rest as [|t rest IH]; intros common; simpl.
  - split; [exists []; now rewrite app_nil_r | intros ? []].
  - destruct (commonPrefix common t) as [|x c'] eqn:E.
    + split; [apply is_prefix_nil | intros; apply is_prefix_nil].
    + destruct (IH (x :: c')) as [IH1 IH2]. rewrite <- E in *. split.
      * eapply is_prefix_trans; [exact IH1 | apply commonPrefix_l].
      * intros tk [<-|Hin]; [|now apply IH2].
        eapply is_prefix_trans; [exact IH1 | apply commonPrefix_r].
Qed.

Lemma commonOfAll_greatest p common rest :
  is_prefix p common ->
  (forall tokens, In tokens rest -> is_prefix p tokens) ->
  is_prefix p (commonOfAll common rest).
Proof.
  revert common. induction rest as [|t rest IH]; intros common Hc Hr; simpl.
  - exact Hc.
  - assert (G : is_prefix p (commonPrefix common t)).
    { apply commonPrefix_greatest; [exact Hc | apply Hr; now left]. }
    destruct (commonPrefix common t) as [|x c'] eqn:E; [exact G|].
    apply IH; [exact G | intros tk Hin; apply Hr; now right].
Qed.

(** The value of [common] is the longest token sequence that starts every
    alternative. *)
Lemma commonOf_longest prods :
  prods <> [] ->
  (forall prod, In prod prods -> is_prefix (commonOf prods) (tokens_of prod)) /\
  (forall p, (forall prod, In prod prods -> is_prefix p (tokens_of prod)) ->
             is_prefix p (commonOf prods)).
Proof.
  destruct prods as [|q prods]; [congruence|]. intros _. unfold commonOf.
  simpl. destruct (commonOfAll_prefix (tokens_of q) (map tokens_of prods))
    as [H1 H2].
  split.
  - intros prod [<-|Hin]; [exact H1|]. apply H2. now apply in_map.
  - intros p Hp. apply commonOfAll_greatest.
    + apply Hp. now left.
    + intros tk Hin. apply in_map_iff in Hin. destruct Hin as (prod & <- & Hin).
      apply Hp. now right.
Qed.

Lemma leftFactor_copy N prods (np : Grammar) c :
  factorable prods = false ->
  leftFactor N prods (np, c) = (StdMap.insert N prods np, c).
Proof.
  unfold factorable, commonOf, leftFactor.
  destruct (Nat.ltb (List.length prods) 2); [reflexivity|]. simpl.
  destruct (commonOfAll (hd [] (map tokens_of prods)) (tl (map tokens_of prods)));
    [reflexivity | discriminate].
Qed.

Lemma leftFactor_factor N prods (np : Grammar) c :
  factorable prods = true ->
  leftFactor N prods (np, c) =
  (StdMap.insert (freshName N c)
     (map (suffixProd (commonOf prods)) (map tokens_of prods))
     (push_back N (spaced (commonOf prods) ++ freshName N c) np),
   int_wrap (c + 1)).
Proof.
  unfold factorable, commonOf, leftFactor.
  destruct (Nat.ltb (List.length prods) 2); [discriminate|]. simpl.
  destruct (commonOfAll (hd [] (map tokens_of prods)) (tl (map tokens_of prods)));
    [discriminate | reflexivity].
Qed.

Lemma factorable_spec prods :
  factorable prods = true <-> 2 <= List.length prods /\ commonOf prods <> [].
Proof.
  unfold factorable. rewrite andb_true_iff, negb_true_iff, Nat.ltb_ge.
  destruct (commonOf prods); split; intros [H1 H2]; split;
    congruence || assumption || discriminate.
Qed.

Lemma suffixProd_spec common tokens :
  is_prefix common tokens -> Forall word tokens ->
  exists suffix,
    tokens = (common ++ suffix)%list /\
    (suffix = [] -> suffixProd common tokens = EPSILON) /\
    (suffix <> [] -> suffixProd common tokens = spaced suffix /\
                     tokens_of (suffixProd common tokens) = suffix).
Proof.
  intros [suffix ->] W. exists suffix. split; [reflexivity|].
  unfold suffixProd. rewrite skipn_app, skipn_all, Nat.sub_diag. simpl.
  split.
  - now intros ->.
  - intros Hne. destruct suffix as [|s suffix]; [congruence|].
    split; [reflexivity|]. apply (tokens_of_spaced (ts := s :: suffix)).
    apply Forall_app in W. apply W.
Qed.

Lemma int_wrap_small n :
  (- 2147483648 <= n < 2147483648)%Z -> int_wrap n = n.
Proof. intros H. unfold int_wrap. rewrite Z.mod_small; lia. Qed.

Lemma factor_count (rules : Grammar) (np : Grammar) c :
  (1 <= c)%Z -> (c + Z.of_nat (allocations rules) < 2147483648)%Z ->
  snd (fold_left (fun st rule => leftFactor (fst rule) (snd rule) st) rules (np, c)) =
  (c + Z.of_nat (allocations rules))%Z.
Proof.
  revert np c. induction rules as [|[N prods] rules IH]; intros np c H1 H2.
  - simpl. unfold allocations. simpl. lia.
  - cbn [fold_left fst snd]. unfold allocations in *. cbn [filter snd] in *.
    destruct (factorable prods) eqn:F.
    + rewrite (leftFactor_factor N prods np c F).
      simpl List.length in H2.
      rewrite int_wrap_small by lia. rewrite IH by lia. simpl List.length. lia.
    + rewrite (leftFactor_copy N prods np c F).
      now apply IH.
Qed.

Lemma find_push_back N prod (np : Grammar) K :
  StdMap.find K (push_back N prod np) =
  if K =? N then Some (StdMap.get [] N np ++ [prod])%list else StdMap.find K np.
Proof. unfold push_back. apply find_insert. Qed.

(** X2.  One call of [leftFactor] when the output grammar has no entry yet
    for the non-terminal [N].  When [N] has at least two productions with a
    common prefix that is not empty: that prefix is the longest token
    sequence that starts every alternative; [N] is bound to the single
    production made of the prefix and the fresh name; the fresh name is
    bound to one production per alternative, the tokens left after the
    prefix or Epsilon when none is left; no other key changes.  Otherwise [N]
    is bound to its productions as they are. *)
Lemma leftFactor_spec N prods (np : Grammar) c :
  StdMap.find N np = None ->
  let common := commonOf prods in
  let fresh := freshName N c in
  let np' := fst (leftFactor N prods (np, c)) in
  (factorable prods = true ->
     (forall prod, In prod prods -> is_prefix common (tokens_of prod)) /\
     (forall p, (forall prod, In prod prods -> is_prefix p (tokens_of prod)) ->
                is_prefix p common) /\
     StdMap.find N np' = Some [spaced common ++ fresh] /\
     tokens_of (spaced common ++ fresh) = (common ++ tokens_of fresh)%list /\
     (word N -> tokens_of (spaced common ++ fresh) = (common ++ [fresh])%list) /\
     StdMap.find fresh np' =
       Some (map (fun prod => suffixProd common (tokens_of prod)) prods) /\
     (forall prod, In prod prods ->
        exists suffix,
          tokens_of prod = (common ++ suffix)%list /\
          (suffix = [] -> suffixProd common (tokens_of prod) = EPSILON) /\
          (suffix <> [] ->
           suffixProd common (tokens_of prod) = spaced suffix /\
           tokens_of (suffixProd common (tokens_of prod)) = suffix)) /\
     (forall K, K <> N -> K <> fresh -> StdMap.find K np' = StdMap.find K np)) /\
  (factorable prods = false ->
     StdMap.find N np' = Some prods /\
     (forall K, K <> N -> StdMap.find K np' = StdMap.find K np)).
Proof.
  intros FN common fresh np'. split; intros F.
  - subst np'. rewrite (leftFactor_factor N prods np c F). cbn [fst].
    fold common. fold fresh.
    assert (Hne : prods <> []).
    { apply factorable_spec in F. destruct F as [F _].
      intros ->. simpl in F. lia. }
    destruct (commonOf_longest Hne) as [L1 L2]. fold common in L1, L2.
    assert (Wc : Forall word common).
    { destruct prods as [|q prods]; [congruence|].
      destruct (L1 q (or_introl eq_refl)) as [r Hr].
      pose proof (Forall_word_tokens q) as W. rewrite Hr in W.
      apply Forall_app in W. apply W. }
    assert (T : tokens_of (spaced common ++ fresh) = (common ++ tokens_of fresh)%list).
    { now apply tokens_of_spaced_app. }
    repeat split.
    + exact L1.
    + exact L2.
    + rewrite find_insert.
      destruct (N =? fresh) eqn:E.
      * apply String.eqb_eq in E. symmetry in E. now apply freshName_neq in E.
      * rewrite find_push_back, String.eqb_refl. unfold StdMap.get. now rewrite FN.
    + exact T.
    + intros W. rewrite T. f_equal. apply tokens_of_word. now apply word_freshName.
    + rewrite find_insert, String.eqb_refl, map_map. reflexivity.
    + intros prod Hin. apply suffixProd_spec; [now apply L1|].
      apply Forall_word_tokens.
    + intros K H1 H2. rewrite find_insert.
      apply String.eqb_neq in H2. rewrite H2, find_push_back.
      apply String.eqb_neq in H1. now rewrite H1.
  - subst np'. rewrite (leftFactor_copy N prods np c F). cbn [fst]. split.
    + apply find_insert_eq.
    + intros K HK. now apply find_insert_neq.
Qed.

(** C3 (amended).  In a pass over [before ++ (N, prods) :: after] that
    factors [N], the counter has value 1 plus the number of fresh names
    allocated for the rules before [N]; the name allocated for [N] is [N]
    followed by an apostrophe, and by the decimal value of the counter as
    soon as one name has been allocated before (so the second allocation is
    already [N'2]); the suffixes of [N] are bound to that name and the
    counter goes up by one. *)
Theorem fresh_name_allocation (before after : Grammar) (N : string)
  (prods : list string) :
  factorable prods = true ->
  (Z.of_nat (allocations before) < 2147483646)%Z ->
  let k := allocations before in
  let st := factorPhase before in
  snd st = (1 + Z.of_nat k)%Z /\
  freshName N (snd st) =
    (N ++ "'") ++ (if Nat.eqb k 0 then "" else to_string (Z.of_nat (S k))) /\
  StdMap.find (freshName N (snd st)) (fst (leftFactor N prods st)) =
    Some (map (fun prod => suffixProd (commonOf prods) (tokens_of prod)) prods) /\
  snd (leftFactor N prods st) = (2 + Z.of_nat k)%Z /\
  factorPhase (before ++ (N, prods) :: after)%list =
    fold_left (fun st rule => leftFactor (fst rule) (snd rule) st) after
      (leftFactor N prods st).
Proof.
  intros F Hk k st.
  assert (C : snd st = (1 + Z.of_nat k)%Z).
  { unfold st, factorPhase. apply factor_count; fold k; lia. }
  split; [exact C|]. split; [|split; [|split]].
  - rewrite C. unfold freshName. f_equal.
    destruct k as [|k']; [reflexivity|].
    replace (1 <? 1 + Z.of_nat (S k'))%Z with true
      by (symmetry; apply Z.ltb_lt; lia).
    cbn [Nat.eqb]. f_equal. lia.
  - rewrite (surjective_pairing st) at 2.
    rewrite (leftFactor_factor N prods (fst st) (snd st) F). cbn [fst].
    rewrite find_insert, String.eqb_refl, map_map. reflexivity.
  - rewrite (surjective_pairing st).
    rewrite (leftFactor_factor N prods (fst st) (snd st) F). cbn [snd].
    rewrite C, int_wrap_small; lia.
  - unfold factorPhase. rewrite fold_left_app. reflexivity.
Qed.

(** * Left-recursion removal *)

Lemma partitionProds_spec A prods :
  partitionProds A prods =
  (map (fun prod => spaced (tl (tokens_of prod))) (filter (selfRecursive A) prods),
   filter (fun prod => negb (selfRecursive A prod)) prods).
Proof.
  induction prods as [|p prods IH]; simpl; [reflexivity|].
  rewrite IH. destruct (tokens_of p) as [|t0 rest] eqn:T.
  - replace (selfRecursive A p) with false
      by (unfold selfRecursive; now rewrite T).
    reflexivity.
  - replace (selfRecursive A p) with (t0 =? A)
      by (unfold selfRecursive; now rewrite T).
    destruct (t0 =? A); simpl; now rewrite ?T.
Qed.

Lemma leftRecursion_eq A prods (ng : Grammar) :
  leftRecursion A prods ng =
  match filter (selfRecursive A) prods with
  | [] => StdMap.insert A prods ng
  | _ => StdMap.insert (A ++ "'") (primed A prods)
           (StdMap.insert A (rewritten A prods) ng)
  end.
Proof.
  unfold leftRecursion, rewritten, primed. rewrite partitionProds_spec.
  destruct (filter (selfRecursive A) prods) as [|r rs]; simpl; [reflexivity|].
  rewrite map_map. reflexivity.
Qed.

Lemma find_leftRecursion_self A prods (ng : Grammar) :
  StdMap.find A (leftRecursion A prods ng) = Some (rewritten A prods).
Proof.
  rewrite leftRecursion_eq. unfold rewritten.
  destruct (filter (selfRecursive A) prods) as [|r rs] eqn:F.
  - apply find_insert_eq.
  - rewrite find_insert_neq, find_insert_eq; [reflexivity|].
    intros E. symmetry in E. now apply primed_neq in E.
Qed.

Lemma find_leftRecursion_other A prods (ng : Grammar) K :
  K <> A -> K <> A ++ "'" ->
  StdMap.find K (leftRecursion A prods ng) = StdMap.find K ng.
Proof.
  intros H1 H2. rewrite leftRecursion_eq.
  destruct (filter (selfRecursive A) prods);
    now rewrite ?(find_insert_neq _ _ H2), (find_insert_neq _ _ H1).
Qed.

Lemma find_leftRecursion_primed A prods (ng : Grammar) :
  filter (selfRecursive A) prods <> [] ->
  StdMap.find (A ++ "'") (leftRecursion A prods ng) = Some (primed A prods).
Proof.
  intros H. rewrite leftRecursion_eq.
  destruct (filter (selfRecursive A) prods); [congruence|].
  apply find_insert_eq.
Qed.

Lemma selfRecursive_hd A p :
  selfRecursive A p = true <-> hd_error (tokens_of p) = Some A.
Proof.
  unfold selfRecursive. destruct (tokens_of p) as [|t0 rest]; simpl.
  - split; discriminate.
  - rewrite String.eqb_eq. split; [now intros -> | now intros [= ->]].
Qed.

Lemma hd_tokens_primed A : hd_error (tokens_of (A ++ "'")) <> Some A.
Proof.
  intros H.
  assert (W : word A).
  { apply (@word_tokens_of (A ++ "'")).
    destruct (tokens_of (A ++ "'")); [discriminate|].
    injection H as ->. now left. }
  assert (W' : word (A ++ "'")) by (now apply word_append).
  rewrite (tokens_of_word W') in H.
  injection H as H. now apply primed_neq in H.
Qed.

Lemma tokens_of_withTail newNT p :
  tokens_of (withTail newNT p) = (tokens_of p ++ tokens_of newNT)%list.
Proof. unfold withTail. apply tokens_of_app_space. Qed.

Lemma rewritten_no_self A prods p :
  In p (rewritten A prods) -> hd_error (tokens_of p) <> Some A.
Proof.
  unfold rewritten.
  destruct (filter (selfRecursive A) prods) as [|r rs] eqn:F.
  - intros Hin H. apply selfRecursive_hd in H.
    assert (Hf : In p (filter (selfRecursive A) prods)) by now apply filter_In.
    now rewrite F in Hf.
  - intros Hin. apply in_map_iff in Hin. destruct Hin as (beta & <- & Hb).
    apply filter_In in Hb. destruct Hb as [_ Hb]. apply negb_true_iff in Hb.
    rewrite tokens_of_withTail.
    destruct (tokens_of beta) as [|t0 rest] eqn:T; simpl.
    + apply hd_tokens_primed.
    + intros [= ->]. unfold selfRecursive in Hb. rewrite T in Hb.
      now rewrite String.eqb_refl in Hb.
Qed.

Lemma compare_as_OT a b : String_as_OT.compare a b = String.compare a b.
Proof.
  revert b. induction a as [|x a IH]; intros [|y b]; reflexivity.
Qed.

Lemma key_lt_trans a b c : key_lt a b -> key_lt b c -> key_lt a c.
Proof.
  unfold key_lt. rewrite <- !compare_as_OT.
  destruct String_as_OT.lt_strorder as [_ T]. apply T.
Qed.

Lemma key_lt_neq a b : key_lt a b -> a <> b.
Proof. unfold key_lt. intros H ->. rewrite compare_refl in H. discriminate. Qed.

Lemma key_lt_append s w : w <> "" -> key_lt s (s ++ w).
Proof.
  intros Hw. unfold key_lt. induction s as [|c s IH]; simpl.
  - destruct w; [congruence | reflexivity].
  - replace (Ascii.compare c c) with Eq; [exact IH|].
    symmetry. unfold Ascii.compare. apply N.compare_refl.
Qed.

Lemma key_lt_primed s : key_lt s (s ++ "'").
Proof. apply key_lt_append. discriminate. Qed.

Section Ordered.
Variable V : Type.
Implicit Types (m : StdMap.t V).

Lemma ordered_insert k v m : ordered m -> ordered (StdMap.insert k v m).
Proof.
  unfold ordered. induction m as [|[k0 v0] m IH]; simpl; intros H.
  - constructor; constructor.
  - inversion H as [|? ? Hm Hk0]; subst.
    destruct (String.compare k k0) eqn:C; simpl.
    + apply String.compare_eq_iff in C. subst k0. now constructor.
    + constructor; [exact H|]. constructor; [exact C|].
      eapply Forall_impl; [|exact Hk0]. intros a Ha.
      now apply (key_lt_trans C).
    + constructor; [now apply IH|].
      apply Forall_forall. intros a Ha.
      apply (keys_insert k a v m) in Ha. destruct Ha as [->|Ha].
      * unfold key_lt. now rewrite String.compare_antisym, C.
      * rewrite Forall_forall in Hk0. now apply Hk0.
Qed.

Lemma ordered_NoDup m : ordered m -> NoDup (StdMap.keys m).
Proof.
  unfold ordered. induction 1 as [|k ks Hs IH Hk]; constructor; [|exact IH].
  intros Hin. rewrite Forall_forall in Hk. now apply Hk, key_lt_neq in Hin.
Qed.

Lemma NoDup_In_find k v m :
  NoDup (StdMap.keys m) -> In (k, v) m -> StdMap.find k m = Some v.
Proof.
  induction m as [|[k0 v0] m IH]; simpl; [tauto|].
  intros ND [E|Hin].
  - injection E as -> ->. now rewrite String.eqb_refl.
  - inversion ND as [|? ? Hk0 ND']; subst.
    destruct (k =? k0) eqn:E; [|now apply IH].
    apply String.eqb_eq in E. subst k0. exfalso. apply Hk0.
    unfold StdMap.keys. apply in_map_iff. now exists (k, v).
Qed.
End Ordered.

Lemma ordered_factor (rules np : Grammar) c :
  ordered np ->
  ordered (fst (fold_left (fun st rule => leftFactor (fst rule) (snd rule) st)
                  rules (np, c))).
Proof.
  revert np c. induction rules as [|[N prods] rules IH]; intros np c H;
    [exact H|].
  cbn [fold_left fst snd]. destruct (factorable prods) eqn:F.
  - rewrite (leftFactor_factor N prods np c F). apply IH.
    apply ordered_insert. unfold push_back. now apply ordered_insert.
  - rewrite (leftFactor_copy N prods np c F). apply IH.
    now apply ordered_insert.
Qed.

Lemma ordered_factoredGrammar (grammar : Grammar) :
  ordered (factoredGrammar grammar).
Proof. apply ordered_factor. constructor. Qed.

Lemma recursion_fold_other (rules acc : Grammar) K :
  (forall B q, In (B, q) rules -> K <> B /\ K <> B ++ "'") ->
  StdMap.find K
    (fold_left (fun acc rule => leftRecursion (fst rule) (snd rule) acc) rules acc) =
  StdMap.find K acc.
Proof.
  revert acc. induction rules as [|[B q] rules IH]; intros acc H; [reflexivity|].
  cbn [fold_left fst snd].
  rewrite IH by (intros C c Hin; apply (H C c); now right).
  destruct (H B q (or_introl eq_refl)) as [H1 H2].
  now apply find_leftRecursion_other.
Qed.

Lemma recursion_fold_own (rules acc : Grammar) K prods :
  ordered rules -> In (K, prods) rules ->
  StdMap.find K
    (fold_left (fun acc rule => leftRecursion (fst rule) (snd rule) acc) rules acc) =
  Some (rewritten K prods).
Proof.
  unfold ordered. revert acc.
  induction rules as [|[B q] rules IH]; intros acc HS Hin; [destruct Hin|].
  simpl in HS. inversion HS as [|? ? HS' HB]; subst.
  cbn [fold_left fst snd]. destruct Hin as [E|Hin].
  - injection E as -> ->. rewrite recursion_fold_other.
    + apply find_leftRecursion_self.
    + intros C c Hc. rewrite Forall_forall in HB.
      assert (L : key_lt K C).
      { apply HB. unfold StdMap.keys. apply in_map_iff. now exists (C, c). }
      split; [now apply key_lt_neq|].
      apply key_lt_neq. eapply key_lt_trans; [exact L | apply key_lt_primed].
  - now apply IH.
Qed.

Lemma find_leftRecursion_cases A prods (ng : Grammar) K ps :
  StdMap.find K (leftRecursion A prods ng) = Some ps -> K <> A ->
  (K = A ++ "'" /\ filter (selfRecursive A) prods <> [] /\
   ps = primed A prods) \/
  StdMap.find K ng = Some ps.
Proof.
  intros H HK. rewrite leftRecursion_eq in H.
  destruct (filter (selfRecursive A) prods) as [|r rs] eqn:F.
  - right. now rewrite (find_insert_neq _ _ HK) in H.
  - rewrite find_insert in H. destruct (K =? A ++ "'") eqn:E.
    + apply String.eqb_eq in E. left. injection H as <-.
      repeat split; [exact E | discriminate].
    + right. now rewrite (find_insert_neq _ _ HK) in H.
Qed.

Lemma recursion_fold_fresh (rules acc : Grammar) K ps :
  StdMap.find K
    (fold_left (fun acc rule => leftRecursion (fst rule) (snd rule) acc) rules acc) =
  Some ps ->
  ~ In K (StdMap.keys rules) ->
  StdMap.find K acc = Some ps \/
  exists A prods,
    In (A, prods) rules /\ K = A ++ "'" /\
    filter (selfRecursive A) prods <> [] /\ ps = primed A prods.
Proof.
  revert acc. induction rules as [|[B q] rules IH]; intros acc H HK.
  - now left.
  - cbn [fold_left fst snd] in H. simpl in HK.
    assert (HK' : ~ In K (StdMap.keys rules)) by tauto.
    assert (HB : K <> B) by (intros ->; tauto).
    destruct (IH _ H HK') as [H1|(A & prods & Hin & E & F & P)].
    + destruct (@find_leftRecursion_cases B q acc K ps H1 HB)
        as [(E & F & P)|H2]; [|now left].
      right. exists B, q. repeat split; auto. now left.
    + right. exists A, prods. repeat split; auto. now right.
Qed.

Lemma epsilon_not_primed A : EPSILON <> A ++ "'".
Proof.
  destruct A as [|a [|b [|c A]]]; simpl; unfold EPSILON; discriminate.
Qed.

Lemma tokens_of_EPSILON : tokens_of EPSILON = [EPSILON].
Proof. reflexivity. Qed.

Lemma tokens_of_primed_prod A q rest :
  tokens_of q = A :: rest ->
  tokens_of (withTail (A ++ "'") (spaced (tl (tokens_of q)))) =
  (rest ++ [(A ++ "'")%string])%list.
Proof.
  intros T. pose proof (Forall_word_tokens q) as W. rewrite T in W.
  inversion W as [|? ? WA Wrest]; subst.
  rewrite tokens_of_withTail, T. cbn [tl].
  rewrite (tokens_of_spaced Wrest). f_equal.
  apply tokens_of_word. now apply word_append.
Qed.

Lemma primed_self_start A prods p :
  In p (primed A prods) -> hd_error (tokens_of p) = Some (A ++ "'") ->
  exists q, In q prods /\
            (tokens_of q = [A] \/
             exists rest, tokens_of q = A :: (A ++ "'") :: rest).
Proof.
  unfold primed. intros Hin H. apply in_app_or in Hin.
  destruct Hin as [Hin|[<-|[]]].
  - apply in_map_iff in Hin. destruct Hin as (q & <- & Hq).
    apply filter_In in Hq. destruct Hq as [Hq S].
    apply selfRecursive_hd in S.
    assert (T : exists rest, tokens_of q = A :: rest).
    { destruct (tokens_of q) as [|t0 rest]; [discriminate|].
      injection S as ->. now exists rest. }
    destruct T as [rest T]. exists q. split; [exact Hq|].
    rewrite (@tokens_of_primed_prod A q rest T) in H. rewrite T.
    destruct rest as [|r rest]; [now left|].
    injection H as ->. right. now exists rest.
  - rewrite tokens_of_EPSILON in H. injection H as H.
    now apply epsilon_not_primed in H.
Qed.

(** C1 (amended).  A production of the final grammar starts with its own
    non-terminal only when that non-terminal is not a key of the left-factored
    grammar: it is then the primed name [A'] the eliminator made for a key
    [A] of the factored grammar, and [A] has an alternative that is [A] alone
    or that starts with [A A'].  So no production of a non-terminal that is a
    key of the factored grammar starts with that non-terminal. *)
Theorem self_start_only_for_primed (grammar : Grammar) (K : string)
  (ps : list string) (p : string) :
  StdMap.find K (finalGrammar grammar) = Some ps ->
  In p ps ->
  hd_error (tokens_of p) = Some K ->
  StdMap.find K (factoredGrammar grammar) = None /\
  exists A prods q,
    StdMap.find A (factoredGrammar grammar) = Some prods /\
    K = A ++ "'" /\ In q prods /\
    (tokens_of q = [A] \/ exists rest, tokens_of q = A :: K :: rest).
Proof.
  intros HF Hp Hhd. unfold finalGrammar, recursionPhase in HF.
  pose proof (ordered_factoredGrammar grammar) as O.
  destruct (StdMap.find K (factoredGrammar grammar)) as [prods|] eqn:FK.
  - exfalso. apply find_In in FK.
    rewrite (@recursion_fold_own (factoredGrammar grammar) [] K prods O FK) in HF.
    injection HF as <-.
    now apply (@rewritten_no_self K prods p Hp).
  - split; [reflexivity|].
    apply find_None_keys in FK.
    destruct (@recursion_fold_fresh (factoredGrammar grammar) [] K ps HF FK)
      as [H|(A & prods & Hin & -> & F & ->)]; [discriminate|].
    destruct (@primed_self_start A prods p Hp Hhd) as (q & Hq & Hs).
    exists A, prods, q. repeat split; auto.
    apply NoDup_In_find; [now apply ordered_NoDup | exact Hin].
Qed.

Lemma filter_all (A : Type) (f : A -> bool) l :
  (forall x, In x l -> f x = true) -> filter f l = l.
Proof.
  induction l as [|x l IH]; simpl; intros H; [reflexivity|].
  rewrite (H x (or_introl eq_refl)). f_equal. apply IH. intros y Hy. apply H. now right.
Qed.

Lemma filter_none (A : Type) (f : A -> bool) l :
  (forall x, In x l -> f x = false) -> filter f l = [].
Proof.
  induction l as [|x l IH]; simpl; intros H; [reflexivity|].
  rewrite (H x (or_introl eq_refl)). apply IH. intros y Hy. apply H. now right.
Qed.

Lemma append_inj_r a b w : a ++ w = b ++ w -> a = b.
Proof.
  revert b. induction a as [|x a IH]; intros [|y b] H; simpl in H.
  - reflexivity.
  - exfalso. apply (f_equal String.length) in H. simpl in H.
    rewrite length_append in H. lia.
  - exfalso. apply (f_equal String.length) in H. simpl in H.
    rewrite length_append in H. lia.
  - injection H as -> H. f_equal. now apply IH.
Qed.

Lemma recursion_fold_primed (rules acc : Grammar) A prods :
  ordered rules -> In (A, prods) rules ->
  ~ In (A ++ "'") (StdMap.keys rules) ->
  filter (selfRecursive A) prods <> [] ->
  StdMap.find (A ++ "'")
    (fold_left (fun acc rule => leftRecursion (fst rule) (snd rule) acc) rules acc) =
  Some (primed A prods).
Proof.
  intros O. pose proof (ordered_NoDup O) as ND. clear O. revert acc.
  induction rules as [|[B q] rules IH]; intros acc Hin HK F; [destruct Hin|].
  simpl in ND, HK. inversion ND as [|? ? HB ND']; subst.
  cbn [fold_left fst snd]. destruct Hin as [E|Hin].
  - injection E as -> ->. rewrite recursion_fold_other.
    + now apply find_leftRecursion_primed.
    + intros C c Hc. split.
      * intros E. apply HK. right. rewrite E. unfold StdMap.keys.
        apply in_map_iff. now exists (C, c).
      * intros E. apply append_inj_r in E. subst C. apply HB.
        unfold StdMap.keys. apply in_map_iff. now exists (A, c).
  - apply IH; auto.
Qed.

(** C10.  When [A] has at least one production and every production of
    [A] starts with [A], [leftRecursion] binds [A] to the empty list of
    alternatives and binds [A'] to one production per alternative of [A]
    (its tokens after the leading [A], followed by [A']) and then the Epsilon
    production, leaving the other keys as they were.  So, when [A] is such a
    key of the factored grammar, [A] has no production in the final grammar,
    and [A'] has the productions just described unless [A'] is itself a key
    of the factored grammar. *)
Theorem all_recursive_leaves_no_alternative (A : string)
  (prods : list string) :
  prods <> [] ->
  (forall p, In p prods -> hd_error (tokens_of p) = Some A) ->
  let newNT := A ++ "'" in
  let stripped := fun p => withTail newNT (spaced (tl (tokens_of p))) in
  (forall newGrammar : Grammar,
      StdMap.find A (leftRecursion A prods newGrammar) = Some [] /\
      StdMap.find newNT (leftRecursion A prods newGrammar) =
        Some (map stripped prods ++ [EPSILON])%list /\
      forall K, K <> A -> K <> newNT ->
        StdMap.find K (leftRecursion A prods newGrammar) =
        StdMap.find K newGrammar) /\
  (forall p, In p prods ->
      tokens_of (stripped p) = (tl (tokens_of p) ++ [newNT])%list) /\
  (forall grammar : Grammar,
      StdMap.find A (factoredGrammar grammar) = Some prods ->
      StdMap.find A (finalGrammar grammar) = Some [] /\
      (StdMap.find newNT (factoredGrammar grammar) = None ->
       StdMap.find newNT (finalGrammar grammar) =
         Some (map stripped prods ++ [EPSILON])%list)).
Proof.
  intros Hne Hall newNT stripped. unfold newNT in *. clear newNT.
  assert (Fall : filter (selfRecursive A) prods = prods).
  { apply filter_all. intros p Hp. now apply selfRecursive_hd, Hall. }
  assert (Fnone : filter (fun p => negb (selfRecursive A p)) prods = []).
  { apply filter_none. intros p Hp. apply negb_false_iff.
    now apply selfRecursive_hd, Hall. }
  assert (R : rewritten A prods = []).
  { unfold rewritten. rewrite Fall, Fnone.
    destruct prods; [congruence | reflexivity]. }
  assert (P : primed A prods = (map stripped prods ++ [EPSILON])%list).
  { unfold primed. now rewrite Fall. }
  assert (Frec : filter (selfRecursive A) prods <> []) by now rewrite Fall.
  split; [|split].
  - intros newGrammar. split; [|split].
    + now rewrite find_leftRecursion_self, R.
    + now rewrite find_leftRecursion_primed, P.
    + intros K H1 H2. now apply find_leftRecursion_other.
  - intros p Hp. specialize (Hall p Hp).
    assert (T : exists rest, tokens_of p = A :: rest).
    { destruct (tokens_of p) as [|t0 rest]; [discriminate|].
      injection Hall as ->. now exists rest. }
    destruct T as [rest T]. unfold stripped.
    rewrite (@tokens_of_primed_prod A p rest T). now rewrite T.
  - intros grammar FA. pose proof (ordered_factoredGrammar grammar) as O.
    apply find_In in FA. unfold finalGrammar, recursionPhase. split.
    + now rewrite (@recursion_fold_own (factoredGrammar grammar) [] A prods O FA), R.
    + intros FN. apply find_None_keys in FN.
      now rewrite (@recursion_fold_primed (factoredGrammar grammar) [] A prods
                     O FA FN Frec), P.
Qed.

(** * The scenario of the specification and the other examples *)

(** C6.  On [S -> A a | A b], [A -> c | d] with start symbol [S] the program
    returns: the factored grammar [A -> c | d], [S -> A S'], [S' -> a | b],
    which left-recursion removal leaves as it is; FIRST(A) = {c, d},
    FIRST(S) = {c, d}, FIRST(S') = {a, b}; FOLLOW(A) = {a, b},
    FOLLOW(S) = {$}, FOLLOW(S') = {$}; and a table with exactly the six cells
    [A][c] = c, [A][d] = d, [S][c] = A S', [S][d] = A S', [S'][a] = a,
    [S'][b] = b.  The strings stored for the productions of [S'] end with the
    space [leftFactor] writes after each token. *)
Theorem scenario_pipeline :
  exists r,
    run scenarioGrammar "S" = Returns r /\
    symbolsOf (factored r) =
      [("A", [["c"]; ["d"]]); ("S", [["A"; "S'"]]); ("S'", [["a"]; ["b"]])] /\
    final r = factored r /\
    firstSets r = [("A", ["c"; "d"]); ("S", ["c"; "d"]); ("S'", ["a"; "b"])] /\
    followSets r = [("A", ["a"; "b"]); ("S", ["$"]); ("S'", ["$"])] /\
    tableSymbols (table r) =
      [("A", [("c", ["c"]); ("d", ["d"])]);
       ("S", [("c", ["A"; "S'"]); ("d", ["A"; "S'"])]);
       ("S'", [("a", ["a"]); ("b", ["b"])])] /\
    final r = [("A", ["c"; "d"]); ("S", ["A S'"]); ("S'", ["a "; "b "])] /\
    table r =
      [("A", [("c", "c"); ("d", "d")]);
       ("S", [("c", "A S'"); ("d", "A S'")]);
       ("S'", [("a", "a "); ("b", "b ")])].
Proof.
  eexists. split; [vm_compute; reflexivity|].
  repeat split; vm_compute; reflexivity.
Qed.

(** C1, counterexample.  On [A -> A | b] the final grammar has the key [A']
    with the production [A'] (followed by nothing), which starts with
    [A'] itself. *)
Lemma primed_starts_with_itself :
  exists K ps p,
    StdMap.find K (finalGrammar cyclicGrammar) = Some ps /\
    In p ps /\ hd_error (tokens_of p) = Some K.
Proof.
  exists "A'", [" A'"; "ε"], " A'".
  split; [vm_compute; reflexivity|]. split; [now left | vm_compute; reflexivity].
Qed.

Lemma self_start_only_for_primed_witness :
  (StdMap.find "A'" (finalGrammar cyclicGrammar) = Some [" A'"; "ε"] /\
   In " A'" [" A'"; "ε"] /\
   hd_error (tokens_of " A'") = Some "A'") /\
  StdMap.find "A'" (factoredGrammar cyclicGrammar) = None /\
  exists A prods q,
    StdMap.find A (factoredGrammar cyclicGrammar) = Some prods /\
    "A'" = A ++ "'" /\ In q prods /\
    (tokens_of q = [A] \/ exists rest, tokens_of q = A :: "A'" :: rest).
Proof.
  split.
  - split; [reflexivity|]. split; [now left | reflexivity].
  - apply (@self_start_only_for_primed cyclicGrammar "A'" [" A'"; "ε"] " A'").
    + reflexivity.
    + now left.
    + reflexivity.
Defined.

(** C3, counterexample.  In a pass over [A -> a b | a c], [B -> d e | d f]
    the second allocation, the one for [B], is [B'2] and not [B']. *)
Lemma second_allocation_is_numbered :
  factoredGrammar twoFactorable =
    [("A", ["a A'"]); ("A'", ["b "; "c "]);
     ("B", ["d B'2"]); ("B'2", ["e "; "f "])] /\
  StdMap.find "B'" (factoredGrammar twoFactorable) = None /\
  allocations [("A", ["a b"; "a c"])] = 1.
Proof. repeat split; vm_compute; reflexivity. Qed.

Lemma fresh_name_allocation_witness :
  (factorable ["d e"; "d f"] = true /\
   (Z.of_nat (allocations [("A", ["a b"; "a c"])]) < 2147483646)%Z) /\
  let k := allocations [("A", ["a b"; "a c"])] in
  let st := factorPhase [("A", ["a b"; "a c"])] in
  snd st = (1 + Z.of_nat k)%Z /\
  freshName "B" (snd st) =
    ("B" ++ "'") ++ (if Nat.eqb k 0 then "" else to_string (Z.of_nat (S k))) /\
  StdMap.find (freshName "B" (snd st))
    (fst (leftFactor "B" ["d e"; "d f"] st)) =
    Some (map (fun prod => suffixProd (commonOf ["d e"; "d f"]) (tokens_of prod))
            ["d e"; "d f"]) /\
  snd (leftFactor "B" ["d e"; "d f"] st) = (2 + Z.of_nat k)%Z /\
  factorPhase ([("A", ["a b"; "a c"])] ++ ("B", ["d e"; "d f"]) :: [])%list =
    fold_left (fun st rule => leftFactor (fst rule) (snd rule) st) []
      (leftFactor "B" ["d e"; "d f"] st).
Proof.
  split.
  - split; [reflexivity | vm_compute; reflexivity].
  - apply (@fresh_name_allocation [("A", ["a b"; "a c"])] [] "B" ["d e"; "d f"]).
    + reflexivity.
    + vm_compute. reflexivity.
Defined.

(** C4, at the failing input.  On [S -> A ε], [A -> a] with start symbol
    [S] the FOLLOW solver returns FOLLOW(A) = {ε}: the token after [A] is not
    a key of the grammar, so line 292 inserts it as a terminal. *)
Theorem epsilon_enters_follow :
  exists r,
    run epsilonAfterNonTerminal "S" = Returns r /\
    final r = [("A", ["a"]); ("S", ["A ε"])] /\
    followSets r = [("A", [EPSILON]); ("S", [ENDMARK])] /\
    In EPSILON (sets_get "A" (followSets r)).
Proof.
  eexists. split; [vm_compute; reflexivity|].
  split; [reflexivity|]. split; [reflexivity | now left].
Qed.

(** C5, at the failing input.  In a pass over [A -> a b | a c],
    [A' -> d e | d f] the name allocated for [A] is [A'], so when [A'] is
    factored in its turn line 89 appends its factored production to the
    suffixes of [A]: [A'] is left with three productions. *)
Theorem factored_production_is_appended :
  factorable ["d e"; "d f"] = true /\
  commonOf ["d e"; "d f"] = ["d"] /\
  factoredGrammar collidingGrammar =
    [("A", ["a A'"]); ("A'", ["b "; "c "; "d A''2"]);
     ("A''2", ["e "; "f "])] /\
  StdMap.find "A'" (factoredGrammar collidingGrammar) <>
    Some [spaced (commonOf ["d e"; "d f"]) ++ "A''2"].
Proof.
  split; [reflexivity|]. split; [reflexivity|].
  split; [vm_compute; reflexivity|]. vm_compute. discriminate.
Qed.

(** C2, at the failing input.  On the file [A -> ε], [ε -> z] FIRST of the
    production [ε] of [A] is {Epsilon} (the FIRST solver has FIRST([A]) =
    {ε}) and FOLLOW([A]) is {$}, so the cell [(A, $)] is to hold that
    production and the cell [(A, z)] is not; the table built has the cell
    [(A, z)] and no cell [(A, $)]: [computeFirstOfString] has no test for
    the epsilon token (the one [firstSet] makes at line 208), finds it among
    the keys and returns FIRST of the non-terminal of that name, {z}. *)
Theorem table_not_filled_from_first_of_production :
  exists r,
    mainOn epsilonKeyText = Returns r /\
    final r = [("A", ["ε"]); ("ε", ["z"])] /\
    firstSets r = [("A", [EPSILON]); ("ε", ["z"])] /\
    tokens_of "ε" = [EPSILON] /\
    (forall x,
        specFirstOfString (final r) (firstSets r) (tokens_of "ε") x <->
        x = EPSILON) /\
    computeFirstOfString (tokens_of "ε") (firstSets r) (final r) =
      Some ["z"] /\
    followSets r = [("A", [ENDMARK]); ("ε", [ENDMARK])] /\
    specClaims (final r) (firstSets r) (followSets r) "A" "ε" ENDMARK /\
    cell (table r) "A" ENDMARK = None /\
    ~ specClaims (final r) (firstSets r) (followSets r) "A" "ε" "z" /\
    cell (table r) "A" "z" = Some "ε".
Proof.
  eexists. split; [vm_compute; reflexivity|].
  cbn [final firstSets followSets table].
  assert (T : tokens_of "ε" = [EPSILON]) by reflexivity.
  assert (Fe : forall x,
             specFirstOfString [("A", ["ε"]); ("ε", ["z"])]
               [("A", [EPSILON]); ("ε", ["z"])] (tokens_of "ε") x <->
             x = EPSILON).
  { intros x. rewrite T. apply specFirstOfString_epsilon. }
  split; [reflexivity|]. split; [reflexivity|].
  split; [exact T|]. split; [exact Fe|].
  split; [reflexivity|]. split; [reflexivity|]. split; [|split; [|split]].
  - right. split; [now apply Fe | now left].
  - reflexivity.
  - intros [[H _]|[_ H]].
    + apply Fe in H. discriminate.
    + destruct H as [H|[]]. discriminate.
  - reflexivity.
Qed.

(** C7, at the failing input.  On the file [A -> ε], [ε -> z] the FIRST
    solver puts Epsilon into FIRST([A]), and FOLLOW([A]) is {$}; yet the row
    of [A] holds the epsilon production in the column of [z], a member of
    FIRST of the non-terminal named [ε], and has no cell for [$]: the
    production's cells come from a FIRST set and not from FOLLOW([A]). *)
Theorem epsilon_production_filled_from_first :
  exists r,
    mainOn epsilonKeyText = Returns r /\
    StdMap.find "A" (final r) = Some ["ε"] /\
    tokens_of "ε" = [EPSILON] /\
    In EPSILON (sets_get "A" (firstSets r)) /\
    sets_get "A" (followSets r) = [ENDMARK] /\
    sets_get EPSILON (firstSets r) = ["z"] /\
    StdMap.find "A" (table r) = Some [("z", "ε")] /\
    cell (table r) "A" ENDMARK = None.
Proof.
  eexists. split; [vm_compute; reflexivity|].
  repeat split; try reflexivity. now left.
Qed.

Lemma scenario_keys_NoDup : NoDup (StdMap.keys scenarioFinal).
Proof.
  repeat constructor; simpl; intuition discriminate.
Qed.

Lemma scenario_first_total :
  forall t, StdMap.find t scenarioFinal <> None ->
            StdMap.find t scenarioFirst <> None.
Proof.
  intros t. simpl.
  destruct (t =? "A"); [discriminate|].
  destruct (t =? "S"); [discriminate|].
  destruct (t =? "S'"); [discriminate | tauto].
Qed.

Lemma follow_start_has_endmarker_witness :
  (forall t, StdMap.find t scenarioFinal <> None ->
             StdMap.find t scenarioFirst <> None) /\
  exists follow,
    computeFollowSets scenarioFinal scenarioFirst "S" = Returns follow /\
    In ENDMARK (sets_get "S" follow).
Proof.
  split; [exact scenario_first_total|].
  destruct (@follow_start_has_endmarker scenarioFinal scenarioFirst "S"
              scenario_first_total)
    as (follow & E & _ & _ & _ & H).
  exists follow. split; [exact E | exact H].
Defined.

Lemma all_recursive_leaves_no_alternative_witness :
  (["A x"; "A y"] <> [] /\
   (forall p, In p ["A x"; "A y"] -> hd_error (tokens_of p) = Some "A")) /\
  StdMap.find "A" (leftRecursion "A" ["A x"; "A y"] []) = Some [] /\
  StdMap.find "A'" (leftRecursion "A" ["A x"; "A y"] []) =
    Some ["x  A'"; "y  A'"; "ε"].
Proof.
  assert (H1 : ["A x"; "A y"] <> []) by discriminate.
  assert (H2 : forall p, In p ["A x"; "A y"] ->
                         hd_error (tokens_of p) = Some "A").
  { intros p [<-|[<-|[]]]; reflexivity. }
  split; [split; [exact H1 | exact H2]|].
  destruct (@all_recursive_leaves_no_alternative "A" ["A x"; "A y"] H1 H2)
    as (H & _ & _).
  destruct (H []) as (E1 & E2 & _).
  split; [exact E1 | exact E2].
Defined.

Lemma follow_sets_hold_terminals_witness :
  (forall A prods prod,
      In (A, prods) scenarioFinal -> In prod prods ->
      ~ In EPSILON (rightOfKey scenarioFinal (tokens_of prod))) /\
  exists first follow,
    firstSet scenarioFinal = Returns first /\
    computeFollowSets scenarioFinal first "S" = Returns follow /\
    forall k x, In x (sets_get k follow) ->
      x <> EPSILON /\ (x = ENDMARK \/ In x (terminals scenarioFinal)).
Proof.
  assert (H : forall A prods prod,
             In (A, prods) scenarioFinal -> In prod prods ->
             ~ In EPSILON (rightOfKey scenarioFinal (tokens_of prod))).
  { intros A prods prod HA Hp. simpl in HA.
    destruct HA as [E|[E|[E|[]]]]; injection E as <- <-; simpl in Hp;
      repeat (destruct Hp as [<-|Hp]; [vm_compute; intuition discriminate|]);
      destruct Hp. }
  split; [exact H|].
  exact (@follow_sets_hold_terminals scenarioFinal "S" H).
Defined.

Lemma leftFactor_spec_witness :
  StdMap.find "S" (@nil (string * list string)) = None /\
  StdMap.find "S" (fst (leftFactor "S" ["A a"; "A b"] ([], 1%Z))) =
    Some [spaced (commonOf ["A a"; "A b"]) ++ freshName "S" 1] /\
  tokens_of (spaced (commonOf ["A a"; "A b"]) ++ freshName "S" 1) =
    (commonOf ["A a"; "A b"] ++ tokens_of (freshName "S" 1))%list.
Proof.
  split; [reflexivity|].
  destruct (@leftFactor_spec "S" ["A a"; "A b"] [] 1%Z eq_refl) as [H _].
  destruct (H eq_refl) as (_ & _ & H1 & H2 & _).
  split; [exact H1 | exact H2].
Defined.

(** * The pipeline as a whole *)

Lemma ordered_recursion (rules acc : Grammar) :
  ordered acc ->
  ordered
    (fold_left (fun acc rule => leftRecursion (fst rule) (snd rule) acc)
       rules acc).
Proof.
  revert acc. induction rules as [|[A prods] rules IH]; intros acc H;
    [exact H|].
  cbn [fold_left fst snd]. apply IH. rewrite leftRecursion_eq.
  destruct (filter (selfRecursive A) prods); repeat apply ordered_insert;
    exact H.
Qed.

Lemma ordered_finalGrammar (grammar : Grammar) : ordered (finalGrammar grammar).
Proof. apply ordered_recursion. constructor. Qed.

(** X3.  [main], from the grammar it has read, always reaches its end: both
    [while (changed)] loops return and no [map::at] throws, whatever the
    grammar and the start symbol. *)
Theorem run_returns (grammar : Grammar) (startSymbol : string) :
  exists r,
    run grammar startSymbol = Returns r /\
    factored r = factoredGrammar grammar /\
    final r = finalGrammar grammar /\
    firstSet (final r) = Returns (firstSets r) /\
    computeFollowSets (final r) (firstSets r) startSymbol =
      Returns (followSets r) /\
    parsingTable (final r) (firstSets r) (followSets r) = Some (table r).
Proof.
  unfold run. fold (finalGrammar grammar).
  destruct (firstSet_returns (finalGrammar grammar)) as (first & Hf & Hk & _).
  assert (Htotal : forall t, StdMap.find t (finalGrammar grammar) <> None ->
                             StdMap.find t first <> None).
  { intros t Ht. apply (kept_keys Hk). now apply find_keys. }
  destruct (@followSets_returns_within (finalGrammar grammar) first startSymbol
              (followUniverse (finalGrammar grammar)))
    as (follow & Ho & _).
  - exact Htotal.
  - apply (first_within_follow Hk).
  - now left.
  - apply rules_right_within_terminals. intros t Ht. right.
    now apply incl_terminals.
  - unfold followUniverse. simpl. lia.
  - rewrite Hf, Ho.
    destruct (parsingTable (finalGrammar grammar) first follow) as [tb|] eqn:E.
    + eexists. split; [reflexivity|]. simpl. auto.
    + exfalso. revert E. apply tableRules_total. exact Htotal.
Qed.

(** * What [split] returns *)

Lemma trimmed_shape r t :
  In t (trimmed r) ->
  find_first_not_of t = Some 0 /\
  find_last_not_of t = Some (String.length t - 1) /\
  forall d, occurs d r = false -> occurs d t = false.
Proof.
  induction r as [|c r IH]; [intros []|].
  rewrite trimmed_cons. destruct (is_blank c) eqn:B.
  - intros H. destruct (IH H) as (H1 & H2 & H3). repeat split; auto.
    intros d Hd. simpl in Hd. apply orb_false_iff in Hd. now apply H3.
  - intros [<-|[]]. unfold rstrip.
    destruct (find_last_not_of r) as [j|] eqn:L.
    + destruct (rstrip_spec r L) as [E1 E2]. simpl. rewrite B, E1, E2.
      split; [reflexivity|]. split; [f_equal; lia|].
      intros d Hd. apply orb_false_iff in Hd. destruct Hd as [Hd1 Hd2].
      rewrite Hd1. simpl. now apply occurs_substring.
    + simpl. rewrite B. split; [reflexivity|]. split; [reflexivity|].
      intros d Hd. apply orb_false_iff in Hd. destruct Hd as [Hd1 _].
      now rewrite Hd1.
Qed.

Lemma split_shape s d t :
  In t (split s d) ->
  find_first_not_of t = Some 0 /\
  find_last_not_of t = Some (String.length t - 1) /\
  occurs d t = false.
Proof.
  unfold split. intros H. apply in_flat_map in H. destruct H as (r & Hr & Ht).
  destruct (trimmed_shape r t Ht) as (H1 & H2 & H3). repeat split; auto.
  apply H3. now apply (@occurs_getlines d "" s).
Qed.

Lemma find_last_of_first s :
  find_first_not_of s <> None -> find_last_not_of s <> None.
Proof.
  induction s as [|c s IH]; simpl; [congruence|].
  destruct (find_last_not_of s); [discriminate|].
  destruct (is_blank c); [|discriminate].
  destruct (find_first_not_of s); simpl; [|congruence].
  intros _. exfalso. apply IH; [discriminate | reflexivity].
Qed.

Lemma trimmed_nonblank s :
  find_first_not_of s <> None -> trimmed s <> [].
Proof.
  intros H. pose proof (find_last_of_first s H) as L. unfold trimmed.
  destruct (find_first_not_of s); [|congruence].
  destruct (find_last_not_of s); [discriminate | congruence].
Qed.

Lemma find_first_append_head a b :
  find_first_not_of a = Some 0 -> find_first_not_of (a ++ b) = Some 0.
Proof.
  destruct a as [|c a]; simpl; [discriminate|].
  destruct (is_blank c); [|reflexivity].
  destruct (find_first_not_of a); discriminate.
Qed.

Lemma getlines_nonblank_start d cur s :
  find_first_not_of cur = Some 0 ->
  flat_map trimmed (getlines d cur s) <> [].
Proof.
  revert cur. induction s as [|c s IH]; intros cur H; simpl.
  - destruct cur as [|x cur]; [discriminate|]. simpl. rewrite app_nil_r.
    apply trimmed_nonblank. rewrite H. discriminate.
  - destruct (c =? d)%char.
    + simpl. intros E. apply app_eq_nil in E. destruct E as [E _].
      revert E. apply trimmed_nonblank. rewrite H. discriminate.
    + apply IH. now apply find_first_append_head.
Qed.

Lemma tokens_of_nonblank_start s :
  find_first_not_of s = Some 0 -> tokens_of s <> [].
Proof.
  destruct s as [|c s]; [discriminate|]. simpl. intros H.
  assert (B : is_blank c = false).
  { destruct (is_blank c); [|reflexivity].
    destruct (find_first_not_of s); discriminate. }
  unfold tokens_of, split. simpl.
  assert (E : (c =? SPACE)%char = false).
  { unfold is_blank in B. now apply orb_false_iff in B. }
  rewrite E. apply getlines_nonblank_start. simpl. now rewrite B.
Qed.

Lemma trimmed_fixed t :
  find_first_not_of t = Some 0 ->
  find_last_not_of t = Some (String.length t - 1) ->
  trimmed t = [t].
Proof.
  intros F L. unfold trimmed. rewrite F, L.
  destruct t as [|c t]; [discriminate|].
  replace (String.length (String c t) - 1 - 0 + 1)
    with (String.length (String c t)) by (simpl; lia).
  now rewrite substring_0_length.
Qed.

Lemma blank_only_trimmed s :
  find_first_not_of s = None -> trimmed s = [].
Proof. intros F. unfold trimmed. now rewrite F. Qed.

Lemma find_first_None_append a b :
  find_first_not_of a = None -> find_first_not_of b = None ->
  find_first_not_of (a ++ b) = None.
Proof.
  induction a as [|c a IH]; simpl; [auto|].
  destruct (is_blank c); [|discriminate].
  destruct (find_first_not_of a); [discriminate|].
  intros _ H. now rewrite IH.
Qed.

Lemma getlines_blank d cur s :
  find_first_not_of cur = None -> find_first_not_of s = None ->
  flat_map trimmed (getlines d cur s) = [].
Proof.
  revert cur. induction s as [|c s IH]; intros cur Hc Hs; simpl.
  - destruct cur; [reflexivity|]. simpl. now rewrite blank_only_trimmed.
  - simpl in Hs. destruct (is_blank c) eqn:B; [|discriminate].
    destruct (find_first_not_of s) eqn:F; [discriminate|].
    destruct (c =? d)%char.
    + simpl. rewrite blank_only_trimmed by exact Hc. now apply IH.
    + apply IH; [|reflexivity]. apply find_first_None_append; [exact Hc|].
      simpl. now rewrite B.
Qed.

(** X4.  Every token [split] returns, whatever the delimiter: it is not
    empty, its first and its last character are outside [" \t"], the
    delimiter does not occur in it, and splitting it again gives the token
    itself. *)
Theorem split_tokens (s : string) (delimiter : ascii) (t : string) :
  In t (split s delimiter) ->
  t <> "" /\
  find_first_not_of t = Some 0 /\
  find_last_not_of t = Some (String.length t - 1) /\
  occurs delimiter t = false /\
  split t delimiter = [t].
Proof.
  intros H. destruct (split_shape _ _ _ H) as (F & L & O).
  assert (N : t <> "") by (intros ->; discriminate).
  repeat split; auto.
  unfold split. rewrite (@getlines_no_delim delimiter "" t O). simpl.
  destruct t as [|c t]; [congruence|]. simpl. rewrite app_nil_r.
  now apply trimmed_fixed.
Qed.

Lemma split_tokens_witness :
  "A b" <> "" /\
  find_first_not_of "A b" = Some 0 /\
  find_last_not_of "A b" = Some (String.length "A b" - 1) /\
  occurs BAR "A b" = false /\
  split "A b" BAR = ["A b"].
Proof.
  apply (@split_tokens "  A a |  | A b  " BAR "A b").
  vm_compute. right. now left.
Defined.

(** X5.  The tokens of a production, written back with a space after each
    as [leftFactor] and [leftRecursion] do, split into the same tokens;
    [split] of a text cut at a delimiter is the tokens of the left part
    followed by those of the right part; a text of blanks only has no
    token. *)
Theorem split_rejoin (s u : string) (delimiter : ascii) :
  tokens_of (spaced (tokens_of s)) = tokens_of s /\
  split (s ++ String delimiter u) delimiter =
    (split s delimiter ++ split u delimiter)%list /\
  (find_first_not_of s = None -> split s delimiter = []).
Proof.
  split; [apply tokens_of_spaced, Forall_word_tokens|].
  split; [apply split_app_delim|].
  intros H. now apply getlines_blank.
Qed.

(** * Reading the grammar *)

Lemma readLines_snoc lines l :
  readLines (lines ++ [l]) = readLine (readLines lines) l.
Proof. unfold readLines. now rewrite fold_left_app. Qed.

Lemma find_readLine A st l :
  StdMap.find A (fst (readLine st l)) =
  match parseLine l with
  | Some (B, prods) => if A =? B then Some prods else StdMap.find A (fst st)
  | None => StdMap.find A (fst st)
  end.
Proof.
  unfold readLine. destruct (parseLine l) as [[B prods]|]; [|reflexivity].
  simpl. apply find_insert.
Qed.

Lemma find_readLines lines A prods :
  StdMap.find A (fst (readLines lines)) = Some prods <->
  exists before line after,
    lines = (before ++ line :: after)%list /\
    parseLine line = Some (A, prods) /\
    forall l q, In l after -> parseLine l <> Some (A, q).
Proof.
  induction lines as [|l lines IH] using rev_ind.
  - simpl. split; [discriminate|].
    intros (before & line & after & E & _). now destruct before.
  - rewrite readLines_snoc, find_readLine.
    destruct (parseLine l) as [[B q]|] eqn:P.
    + destruct (A =? B) eqn:E.
      * apply String.eqb_eq in E. subst B. split.
        -- intros [= <-]. exists lines, l, []. split; [reflexivity|].
           split; [exact P|]. intros ? ? [].
        -- intros (before & line & after & E & P' & N).
           destruct after as [|x after] using rev_ind.
           ++ apply app_inj_tail in E. destruct E as [_ <-]. congruence.
           ++ clear IHafter. rewrite app_comm_cons, app_assoc in E.
              apply app_inj_tail in E. destruct E as [_ <-].
              exfalso. apply (N l q); [|exact P].
              apply in_or_app. right. now left.
      * apply String.eqb_neq in E. rewrite IH. split.
        -- intros (before & line & after & -> & P' & N).
           exists before, line, (after ++ [l])%list. split.
           ++ now rewrite <- app_assoc.
           ++ split; [exact P'|]. intros x r Hx. apply in_app_or in Hx.
              destruct Hx as [Hx|[<-|[]]]; [now apply N|]. congruence.
        -- intros (before & line & after & E' & P' & N).
           destruct after as [|x after] using rev_ind.
           ++ apply app_inj_tail in E'. destruct E' as [_ <-]. congruence.
           ++ clear IHafter. rewrite app_comm_cons, app_assoc in E'.
              apply app_inj_tail in E'. destruct E' as [-> <-].
              exists before, line, after. repeat split; auto.
              intros y r Hy. apply N. apply in_or_app. now left.
    + rewrite IH. split.
      * intros (before & line & after & -> & P' & N).
        exists before, line, (after ++ [l])%list. split.
        -- now rewrite <- app_assoc.
        -- split; [exact P'|]. intros x r Hx. apply in_app_or in Hx.
           destruct Hx as [Hx|[<-|[]]]; [now apply N|]. congruence.
      * intros (before & line & after & E' & P' & N).
        destruct after as [|x after] using rev_ind.
        -- apply app_inj_tail in E'. destruct E' as [_ <-]. congruence.
        -- clear IHafter. rewrite app_comm_cons, app_assoc in E'.
           apply app_inj_tail in E'. destruct E' as [-> <-].
           exists before, line, after. repeat split; auto.
           intros y r Hy. apply N. apply in_or_app. now left.
Qed.

Lemma ordered_nil (V : Type) : ordered (@nil (string * V)).
Proof. constructor. Qed.

Lemma ordered_readLines lines : ordered (fst (readLines lines)).
Proof.
  induction lines as [|l lines IH] using rev_ind; [apply ordered_nil|].
  rewrite readLines_snoc. unfold readLine.
  destruct (parseLine l) as [[B q]|]; [|exact IH].
  simpl. now apply ordered_insert.
Qed.

Lemma start_readLine_kept st l :
  snd st <> "" -> snd (readLine st l) = snd st.
Proof.
  unfold readLine. destruct (parseLine l) as [[B q]|]; [|reflexivity].
  simpl. destruct (snd st); congruence.
Qed.

Lemma start_fold_kept lines st :
  snd st <> "" -> snd (fold_left readLine lines st) = snd st.
Proof.
  revert st. induction lines as [|l lines IH]; intros st H; simpl;
    [reflexivity|].
  rewrite IH; rewrite start_readLine_kept; auto.
Qed.

Lemma start_fold_unnamed lines st :
  snd st = "" ->
  (forall l B q, In l lines -> parseLine l = Some (B, q) -> B = "") ->
  snd (fold_left readLine lines st) = "".
Proof.
  revert st. induction lines as [|l lines IH]; intros st H N; simpl;
    [exact H|].
  apply IH; [|intros x B q Hx; apply N; now right].
  unfold readLine. destruct (parseLine l) as [[B q]|] eqn:P; [|exact H].
  simpl. rewrite H. apply (N l B q); [now left | exact P].
Qed.

Lemma start_readLines before line after A prods :
  parseLine line = Some (A, prods) -> A <> "" ->
  (forall l B q, In l before -> parseLine l = Some (B, q) -> B = "") ->
  snd (readLines (before ++ line :: after)) = A.
Proof.
  intros P HA N. unfold readLines. rewrite fold_left_app. simpl.
  assert (E : snd (readLine (fold_left readLine before ([], "")) line) = A).
  { pose proof (start_fold_unnamed before ([], "") eq_refl N) as E0.
    destruct (fold_left readLine before ([], "")) as [g s]. simpl in E0.
    subst s. unfold readLine. now rewrite P. }
  rewrite start_fold_kept; rewrite E; auto.
Qed.

Lemma start_is_key lines :
  snd (readLines lines) <> "" ->
  StdMap.find (snd (readLines lines)) (fst (readLines lines)) <> None.
Proof.
  induction lines as [|l lines IH] using rev_ind; [simpl; congruence|].
  rewrite readLines_snoc. unfold readLine.
  destruct (parseLine l) as [[B q]|] eqn:P; [|exact IH].
  simpl. rewrite find_insert.
  destruct (snd (readLines lines)) as [|c s] eqn:S.
  - intros _. rewrite String.eqb_refl. discriminate.
  - intros _. destruct (String c s =? B); [discriminate|].
    apply IH. discriminate.
Qed.

Lemma trimOrKeep_shape s :
  find_first_not_of (trimOrKeep s) = None /\ trimOrKeep s = s \/
  find_first_not_of (trimOrKeep s) = Some 0 /\
  find_last_not_of (trimOrKeep s) = Some (String.length (trimOrKeep s) - 1).
Proof.
  unfold trimOrKeep.
  destruct (find_first_not_of s) as [a|] eqn:F; [|left; now split].
  destruct (find_last_not_of s) as [b|] eqn:L.
  - right.
    assert (H : In (substring a (b - a + 1) s) (trimmed s)).
    { unfold trimmed. rewrite F, L. now left. }
    destruct (trimmed_shape s _ H) as (H1 & H2 & _). now split.
  - exfalso. apply (find_last_of_first s); [rewrite F; discriminate | exact L].
Qed.

Lemma parseLine_shape line A prods :
  parseLine line = Some (A, prods) ->
  (find_first_not_of A = None \/
   find_first_not_of A = Some 0 /\
   find_last_not_of A = Some (String.length A - 1)) /\
  forall p, In p prods ->
    find_first_not_of p = Some 0 /\
    find_last_not_of p = Some (String.length p - 1) /\
    occurs BAR p = false /\
    tokens_of p <> [].
Proof.
  unfold parseLine. destruct line as [|c line]; [discriminate|].
  destruct (index 0 ARROW (String c line)) as [arrowPos|]; [|discriminate].
  intros [= <- <-]. split.
  - destruct (trimOrKeep_shape (substring 0 arrowPos (String c line)))
      as [[H _]|H]; [now left | now right].
  - intros p Hp. destruct (split_shape _ _ _ Hp) as (H1 & H2 & H3).
    repeat split; auto. now apply tokens_of_nonblank_start.
Qed.

(** X6.  The grammar [main] reads from the text of the file: its keys are in
    the order of [std::map]; the productions bound to a non-terminal are those
    of the last line that defines it (a line defines [A] when it is not
    empty, contains an arrow, and the text before its first arrow, trimmed,
    is [A]), the other lines being skipped; and the grammar is empty exactly
    when no line defines anything. *)
Theorem loader_last_rule_wins (text : string) :
  let lines := getlines NEWLINE "" text in
  let grammar := fst (readGrammar text) in
  ordered grammar /\
  (forall A prods,
      StdMap.find A grammar = Some prods <->
      exists before line after,
        lines = (before ++ line :: after)%list /\
        parseLine line = Some (A, prods) /\
        forall l q, In l after -> parseLine l <> Some (A, q)) /\
  (grammar = [] <-> forall l, In l lines -> parseLine l = None).
Proof.
  intros lines grammar. split; [apply ordered_readLines|].
  split; [intros A prods; apply find_readLines|].
  unfold grammar, readGrammar. fold lines. clear grammar. split.
  - intros E l Hl. destruct (parseLine l) as [[A prods]|] eqn:P; [|reflexivity].
    exfalso. apply in_split in Hl. destruct Hl as (before & after & Hl).
    assert (H : StdMap.find A (fst (readLines lines)) <> None).
    { clear E. rewrite Hl. clear Hl. induction after as [|x after IH] using rev_ind.
      - rewrite readLines_snoc, find_readLine, P, String.eqb_refl. discriminate.
      - rewrite app_comm_cons, app_assoc, readLines_snoc, find_readLine.
        destruct (parseLine x) as [[B q]|]; [|exact IH].
        destruct (A =? B); [discriminate | exact IH]. }
    now rewrite E in H.
  - intros N. destruct (fst (readLines lines)) as [|[A prods] g] eqn:E;
      [reflexivity|]. exfalso.
    assert (H : StdMap.find A (fst (readLines lines)) = Some prods).
    { rewrite E. simpl. now rewrite String.eqb_refl. }
    apply find_readLines in H.
    destruct H as (before & line & after & H1 & H2 & _).
    rewrite N in H2; [discriminate|]. rewrite H1. apply in_or_app. right. now left.
Qed.

(** X7.  The start symbol [main] hands to the FOLLOW solver is the
    non-terminal of the first line that defines one with a non-empty name:
    lines before it that give no rule, or a rule with an empty name, do not
    set it and later lines do not change it.  It is a key of the grammar
    read. *)
Theorem loader_start_symbol (text : string) (before : list string)
  (line : string) (after : list string) (A : string) (prods : list string) :
  getlines NEWLINE "" text = (before ++ line :: after)%list ->
  parseLine line = Some (A, prods) ->
  A <> "" ->
  (forall l B q, In l before -> parseLine l = Some (B, q) -> B = "") ->
  snd (readGrammar text) = A /\
  StdMap.find A (fst (readGrammar text)) <> None.
Proof.
  intros E P HA N. unfold readGrammar. rewrite E.
  assert (S : snd (readLines (before ++ line :: after)) = A)
    by (eapply start_readLines; eauto).
  split; [exact S|]. rewrite <- S at 1. apply start_is_key. now rewrite S.
Qed.

Lemma loader_start_symbol_witness :
  snd (readGrammar scenarioText) = "S" /\
  StdMap.find "S" (fst (readGrammar scenarioText)) <> None.
Proof.
  apply (@loader_start_symbol scenarioText ["-> x"; "no rule here"; ""]
           "S -> A a | A b" ["A -> c | d"] "S" ["A a"; "A b"]).
  - reflexivity.
  - reflexivity.
  - discriminate.
  - intros l B q [<-|[<-|[<-|[]]]]; vm_compute; congruence.
Defined.

(** X8.  Shape of what the loader stores: a non-terminal either has no
    character outside [" \t"] (it is then kept as read) or starts and ends
    with such a character; every production starts and ends with a
    character outside [" \t"], holds no ['|'] and has at least one token, so
    that the FIRST solver never skips it. *)
Theorem loader_productions_shape (text : string) (A : string)
  (prods : list string) :
  StdMap.find A (fst (readGrammar text)) = Some prods ->
  (find_first_not_of A = None \/
   find_first_not_of A = Some 0 /\
   find_last_not_of A = Some (String.length A - 1)) /\
  forall p, In p prods ->
    find_first_not_of p = Some 0 /\
    find_last_not_of p = Some (String.length p - 1) /\
    occurs BAR p = false /\
    tokens_of p <> [].
Proof.
  intros H. apply find_readLines in H.
  destruct H as (before & line & after & _ & P & _).
  exact (parseLine_shape _ P).
Qed.

Lemma loader_productions_shape_witness :
  StdMap.find "S" (fst (readGrammar scenarioText)) = Some ["A a"; "A b"] /\
  forall p, In p ["A a"; "A b"] ->
    find_first_not_of p = Some 0 /\
    find_last_not_of p = Some (String.length p - 1) /\
    occurs BAR p = false /\
    tokens_of p <> [].
Proof.
  split; [reflexivity|].
  apply (@loader_productions_shape scenarioText "S" ["A a"; "A b"]).
  reflexivity.
Defined.

(** * One call of [leftRecursion] *)

(** X9.  One call of [leftRecursion] on [A]: when no production of [A]
    starts with [A], [A] is bound to its productions unchanged and no other
    key changes; otherwise [A] is bound to its other productions, each
    followed by the new non-terminal [A'], and [A'] is bound to the
    recursive productions without their leading [A], each followed by [A'],
    and then Epsilon; no key other than [A] and [A'] changes. *)
Theorem leftRecursion_spec (A : string) (prods : list string)
  (newGrammar : Grammar) :
  let newNT := A ++ "'" in
  let result := leftRecursion A prods newGrammar in
  let recursive := filter (selfRecursive A) prods in
  let others := filter (fun p => negb (selfRecursive A p)) prods in
  (recursive = [] ->
     StdMap.find A result = Some prods /\
     forall K, K <> A -> StdMap.find K result = StdMap.find K newGrammar) /\
  (recursive <> [] ->
     StdMap.find A result = Some (map (withTail newNT) others) /\
     StdMap.find newNT result =
       Some (map (fun p => withTail newNT (spaced (tl (tokens_of p)))) recursive
             ++ [EPSILON])%list /\
     (forall p, In p others ->
        hd_error (tokens_of p) <> Some A /\
        tokens_of (withTail newNT p) = (tokens_of p ++ [newNT])%list) /\
     (forall p, In p recursive ->
        exists alpha,
          tokens_of p = A :: alpha /\
          tokens_of (withTail newNT (spaced (tl (tokens_of p)))) =
            (alpha ++ [newNT])%list) /\
     (forall K, K <> A -> K <> newNT ->
        StdMap.find K result = StdMap.find K newGrammar)).
Proof.
  intros newNT result recursive others. split.
  - intros E. unfold result. rewrite leftRecursion_eq. fold recursive.
    rewrite E. split; [apply find_insert_eq|].
    intros K HK. now apply find_insert_neq.
  - intros N.
    assert (S : forall p, In p recursive ->
                exists alpha, tokens_of p = A :: alpha).
    { intros p Hp. apply filter_In in Hp. destruct Hp as [_ Hp].
      apply selfRecursive_hd in Hp. destruct (tokens_of p) as [|t alpha];
        [discriminate|]. injection Hp as ->. now exists alpha. }
    assert (W : tokens_of newNT = [newNT]).
    { apply tokens_of_word. apply word_append; [|reflexivity].
      destruct recursive as [|r rs] eqn:R; [congruence|].
      destruct (S r (or_introl eq_refl)) as [alpha Hr].
      apply (@word_tokens_of r). rewrite Hr. now left. }
    split.
    { unfold result. rewrite find_leftRecursion_self. unfold rewritten.
      fold recursive. destruct recursive; [congruence | reflexivity]. }
    split.
    { unfold result, newNT. now apply find_leftRecursion_primed. }
    split.
    { intros p Hp. apply filter_In in Hp. destruct Hp as [_ Hp]. split.
      - intros H. apply selfRecursive_hd in H. rewrite H in Hp. discriminate.
      - now rewrite tokens_of_withTail, W. }
    split.
    { intros p Hp. destruct (S p Hp) as [alpha Ha]. exists alpha.
      split; [exact Ha|]. now apply tokens_of_primed_prod. }
    intros K H1 H2. now apply find_leftRecursion_other.
Qed.

(** * Keys through the two transformations *)

Lemma find_leftFactor_keys N prods (np : Grammar) c K :
  StdMap.find K (fst (leftFactor N prods (np, c))) <> None <->
  K = N \/ (factorable prods = true /\ K = freshName N c) \/
  StdMap.find K np <> None.
Proof.
  destruct (factorable prods) eqn:F.
  - rewrite (@leftFactor_factor N prods np c F). cbn [fst].
    rewrite find_insert, find_push_back.
    destruct (K =? freshName N c) eqn:E1.
    + apply String.eqb_eq in E1. split; [|discriminate]. intros _. right. left.
      now split.
    + apply String.eqb_neq in E1. destruct (K =? N) eqn:E2.
      * apply String.eqb_eq in E2. split; [now left | discriminate].
      * apply String.eqb_neq in E2. split; [now (right; right)|].
        intros [H|[[_ H]|H]]; [contradiction | contradiction | exact H].
  - rewrite (@leftFactor_copy N prods np c F). cbn [fst]. rewrite find_insert.
    destruct (K =? N) eqn:E2.
    + apply String.eqb_eq in E2. split; [now left | discriminate].
    + apply String.eqb_neq in E2. split; [now (right; right)|].
      intros [H|[[H _]|H]]; [contradiction | discriminate | exact H].
Qed.

Lemma factor_fold_keys (rules np : Grammar) c K :
  (StdMap.find K np <> None \/ In K (StdMap.keys rules) ->
   StdMap.find K
     (fst (fold_left (fun st rule => leftFactor (fst rule) (snd rule) st)
             rules (np, c))) <> None) /\
  (StdMap.find K
     (fst (fold_left (fun st rule => leftFactor (fst rule) (snd rule) st)
             rules (np, c))) <> None ->
   StdMap.find K np <> None \/ In K (StdMap.keys rules) \/
   exists N prods c',
     In (N, prods) rules /\ factorable prods = true /\ K = freshName N c').
Proof.
  revert np c. induction rules as [|[N prods] rules IH]; intros np c.
  - simpl. split; [intros [H|[]]; exact H | intros H; now left].
  - cbn [fold_left fst snd StdMap.keys map].
    destruct (leftFactor N prods (np, c)) as [np1 c1] eqn:L.
    assert (HL : forall K', StdMap.find K' np1 <> None <->
              K' = N \/ (factorable prods = true /\ K' = freshName N c) \/
              StdMap.find K' np <> None).
    { intros K'. rewrite <- (find_leftFactor_keys N prods np c K').
      now rewrite L. }
    destruct (IH np1 c1) as [IH1 IH2]. split.
    + intros H. apply IH1. destruct H as [H|[H|H]].
      * left. apply HL. now (right; right).
      * left. apply HL. left. now symmetry.
      * now right.
    + intros H. destruct (IH2 H) as [H1|[H1|(N' & q & c' & H1 & H2 & H3)]].
      * apply HL in H1. destruct H1 as [H1|[[H1 H1']|H1]].
        -- right. left. left. now symmetry.
        -- right. right. exists N, prods, c. repeat split; auto. now left.
        -- now left.
      * right. left. now right.
      * right. right. exists N', q, c'. repeat split; auto. now right.
Qed.

Lemma find_leftRecursion_keys A prods (ng : Grammar) K :
  K = A \/ StdMap.find K ng <> None ->
  StdMap.find K (leftRecursion A prods ng) <> None.
Proof.
  rewrite leftRecursion_eq.
  destruct (filter (selfRecursive A) prods); repeat rewrite find_insert.
  - destruct (K =? A) eqn:E; [discriminate|]. apply String.eqb_neq in E.
    intros [H|H]; [contradiction | exact H].
  - destruct (K =? A ++ "'"); [discriminate|].
    destruct (K =? A) eqn:E; [discriminate|]. apply String.eqb_neq in E.
    intros [H|H]; [contradiction | exact H].
Qed.

Lemma recursion_fold_keys (rules acc : Grammar) K :
  StdMap.find K acc <> None \/ In K (StdMap.keys rules) ->
  StdMap.find K
    (fold_left (fun acc rule => leftRecursion (fst rule) (snd rule) acc)
       rules acc) <> None.
Proof.
  revert acc. induction rules as [|[A prods] rules IH]; intros acc; simpl.
  - intros [H|[]]. exact H.
  - intros H. apply IH. destruct H as [H|[H|H]].
    + left. apply find_leftRecursion_keys. now right.
    + left. apply find_leftRecursion_keys. left. now symmetry.
    + now right.
Qed.

(** X10.  No non-terminal is lost: every key of the grammar read is a key
    of the factored grammar, and every key of the factored grammar is a key
    of the final one.  The keys that appear are fresh names only: a key of
    the factored grammar is a key of the input or the fresh name of a
    factored rule, and a key of the final grammar is a key of the factored
    one or [A'] for a rule of [A] with a left-recursive production. *)
Theorem pipeline_keys (grammar : Grammar) (K : string) :
  (StdMap.find K grammar <> None ->
   StdMap.find K (factoredGrammar grammar) <> None) /\
  (StdMap.find K (factoredGrammar grammar) <> None ->
   StdMap.find K (finalGrammar grammar) <> None) /\
  (StdMap.find K (factoredGrammar grammar) <> None ->
   StdMap.find K grammar <> None \/
   exists N prods c,
     In (N, prods) grammar /\ factorable prods = true /\ K = freshName N c) /\
  (StdMap.find K (finalGrammar grammar) <> None ->
   StdMap.find K (factoredGrammar grammar) <> None \/
   exists A prods,
     StdMap.find A (factoredGrammar grammar) = Some prods /\
     filter (selfRecursive A) prods <> [] /\ K = A ++ "'").
Proof.
  destruct (factor_fold_keys grammar [] 1%Z K) as [F1 F2].
  split.
  { intros H. apply F1. right. now apply find_keys. }
  split.
  { intros H. apply recursion_fold_keys. right. now apply find_keys. }
  split.
  { intros H. destruct (F2 H) as [H1|[H1|H1]].
    - now elim H1.
    - left. now apply find_keys.
    - now right. }
  intros H.
  destruct (StdMap.find K (factoredGrammar grammar)) as [v|] eqn:E;
    [left; discriminate|].
  right. destruct (StdMap.find K (finalGrammar grammar)) as [ps|] eqn:P;
    [|congruence].
  apply recursion_fold_fresh in P; [|now apply find_None_keys].
  destruct P as [P|(A & prods & H1 & H2 & H3 & _)]; [discriminate|].
  exists A, prods. repeat split; auto.
  apply NoDup_In_find; [|exact H1].
  apply ordered_NoDup, ordered_factoredGrammar.
Qed.

Lemma insert_last (V : Type) k (v : V) m :
  (forall k', In k' (StdMap.keys m) -> key_lt k' k) ->
  StdMap.insert k v m = (m ++ [(k, v)])%list.
Proof.
  induction m as [|[k' v'] m IH]; intros H; simpl; [reflexivity|].
  assert (L : key_lt k' k) by (apply H; now left).
  unfold key_lt in L. rewrite String.compare_antisym, L. simpl.
  rewrite IH; [reflexivity|]. intros x Hx. apply H. now right.
Qed.

Lemma ordered_snoc (V : Type) k (v : V) m :
  ordered (m ++ [(k, v)])%list ->
  ordered m /\ forall k', In k' (StdMap.keys m) -> key_lt k' k.
Proof.
  unfold ordered, StdMap.keys. rewrite map_app. simpl.
  induction m as [|[k' v'] m IH]; simpl; intros H.
  - split; [constructor | intros ? []].
  - inversion H as [|? ? H1 H2]; subst. destruct (IH H1) as [IH1 IH2].
    rewrite Forall_forall in H2. split.
    + constructor; [exact IH1|]. apply Forall_forall. intros x Hx.
      apply H2. apply in_or_app. now left.
    + intros x [<-|Hx]; [|now apply IH2].
      apply H2. apply in_or_app. right. now left.
Qed.

Lemma fold_insert_ordered (V : Type) (m : StdMap.t V) :
  ordered m ->
  fold_left (fun acc rule => StdMap.insert (fst rule) (snd rule) acc) m [] = m.
Proof.
  induction m as [|[k v] m IH] using rev_ind; intros H; [reflexivity|].
  destruct (ordered_snoc _ _ _ H) as [H1 H2].
  rewrite fold_left_app. simpl. rewrite (IH H1). now apply insert_last.
Qed.

Lemma factor_fold_copy (rules np : Grammar) c :
  (forall A prods, In (A, prods) rules -> factorable prods = false) ->
  fold_left (fun st rule => leftFactor (fst rule) (snd rule) st) rules (np, c) =
  (fold_left (fun acc rule => StdMap.insert (fst rule) (snd rule) acc) rules np,
   c).
Proof.
  revert np. induction rules as [|[A prods] rules IH]; intros np H;
    [reflexivity|].
  cbn [fold_left fst snd].
  rewrite (@leftFactor_copy A prods np c) by (apply (H A); now left).
  apply IH. intros B q Hq. apply (H B). now right.
Qed.

Lemma recursion_fold_copy (rules acc : Grammar) :
  (forall A prods, In (A, prods) rules ->
                   filter (selfRecursive A) prods = []) ->
  fold_left (fun acc rule => leftRecursion (fst rule) (snd rule) acc) rules acc =
  fold_left (fun acc rule => StdMap.insert (fst rule) (snd rule) acc) rules acc.
Proof.
  revert acc. induction rules as [|[A prods] rules IH]; intros acc H;
    [reflexivity|].
  cbn [fold_left fst snd]. rewrite leftRecursion_eq.
  rewrite (H A prods) by now left.
  apply IH. intros B q Hq. apply (H B). now right.
Qed.

(** X11.  A grammar (keys in the order of [std::map]) in which no rule
    has a common prefix to factor and no production starts with its own
    non-terminal goes through both transformations unchanged. *)
Theorem pipeline_identity (grammar : Grammar) :
  ordered grammar ->
  (forall A prods, In (A, prods) grammar -> factorable prods = false) ->
  (forall A prods p, In (A, prods) grammar -> In p prods ->
                     hd_error (tokens_of p) <> Some A) ->
  factoredGrammar grammar = grammar /\ finalGrammar grammar = grammar.
Proof.
  intros O F R.
  assert (E : factoredGrammar grammar = grammar).
  { unfold factoredGrammar, factorPhase. rewrite factor_fold_copy by exact F.
    cbn [fst]. now apply fold_insert_ordered. }
  split; [exact E|]. unfold finalGrammar. rewrite E. unfold recursionPhase.
  rewrite recursion_fold_copy; [now apply fold_insert_ordered|].
  intros A prods H. apply filter_none. intros p Hp.
  destruct (selfRecursive A p) eqn:S; [|reflexivity].
  apply selfRecursive_hd in S. now elim (R A prods p).
Qed.

Lemma pipeline_identity_witness :
  factoredGrammar plainGrammar = plainGrammar /\
  finalGrammar plainGrammar = plainGrammar.
Proof.
  apply pipeline_identity.
  - repeat constructor.
  - intros A prods [[= <- <-]|[[= <- <-]|[]]]; reflexivity.
  - intros A prods p [[= <- <-]|[[= <- <-]|[]]] [<-|[<-|[]]]; discriminate.
Defined.

(** * The two passes over the whole grammar *)

Lemma occurs_freshName N c : occurs APOSTROPHE (freshName N c) = true.
Proof.
  rewrite freshName_append, occurs_append. simpl. apply orb_true_r.
Qed.

Lemma append_mark_inj q N M x y :
  occurs q N = false -> occurs q M = false ->
  N ++ String q x = M ++ String q y -> N = M.
Proof.
  revert M. induction N as [|c N IH]; intros [|d M] HN HM E; simpl in *.
  - reflexivity.
  - injection E as <- _. now rewrite Ascii.eqb_refl in HM.
  - injection E as -> _. now rewrite Ascii.eqb_refl in HN.
  - injection E as <- E. apply orb_false_iff in HN, HM.
    f_equal. apply (IH M); tauto.
Qed.

Lemma freshName_inj N M c d :
  occurs APOSTROPHE N = false -> occurs APOSTROPHE M = false ->
  freshName N c = freshName M d -> N = M.
Proof.
  intros HN HM E. rewrite !freshName_append in E.
  exact (@append_mark_inj APOSTROPHE N M _ _ HN HM E).
Qed.

Lemma factor_fold_other (rules np : Grammar) c K :
  (forall M q c', In (M, q) rules -> K <> M /\ K <> freshName M c') ->
  StdMap.find K
    (fst (fold_left (fun st rule => leftFactor (fst rule) (snd rule) st)
            rules (np, c))) =
  StdMap.find K np.
Proof.
  revert np c. induction rules as [|[M q] rules IH]; intros np c H;
    [reflexivity|].
  cbn [fold_left fst snd].
  destruct (H M q c (or_introl eq_refl)) as [H1 H2].
  destruct (factorable q) eqn:F.
  - rewrite (@leftFactor_factor M q np c F).
    rewrite IH by (intros M' q' c' Hin; apply (H M' q' c'); now right).
    rewrite find_insert_neq by exact H2.
    rewrite find_push_back. apply String.eqb_neq in H1. now rewrite H1.
  - rewrite (@leftFactor_copy M q np c F).
    rewrite IH by (intros M' q' c' Hin; apply (H M' q' c'); now right).
    now apply find_insert_neq.
Qed.

Lemma factor_fold_untouched (rules : Grammar) c K :
  ~ In K (StdMap.keys rules) ->
  (forall M q c', In (M, q) rules -> K <> freshName M c') ->
  StdMap.find K
    (fst (fold_left (fun st rule => leftFactor (fst rule) (snd rule) st)
            rules ([], c))) = None.
Proof.
  intros HK HF. rewrite factor_fold_other; [reflexivity|].
  intros M q c' Hin. split; [|now apply (HF M q)].
  intros ->. apply HK. unfold StdMap.keys. apply in_map_iff. now exists (M, q).
Qed.

Lemma keys_app (V : Type) (a b : StdMap.t V) :
  StdMap.keys (a ++ b)%list = (StdMap.keys a ++ StdMap.keys b)%list.
Proof. apply map_app. Qed.

(** X12.  The factoring pass over a grammar whose non-terminals hold no
    apostrophe (distinct keys, fewer than 2^31 - 2 rules factored before):
    a rule that is not factorable keeps its productions; a factorable rule
    [N] is bound to the single production made of the common prefix and the
    fresh name, the fresh name being [N'] followed by the number of the
    allocation unless it is the first, and the fresh name is bound to the
    suffixes; no later rule of the pass changes either. *)
Theorem factoring_pass_spec (before after : Grammar) (N : string)
  (prods : list string) :
  let grammar := (before ++ (N, prods) :: after)%list in
  let fresh := freshName N (1 + Z.of_nat (allocations before)) in
  let common := commonOf prods in
  NoDup (StdMap.keys grammar) ->
  (forall K, In K (StdMap.keys grammar) -> occurs APOSTROPHE K = false) ->
  (Z.of_nat (allocations before) < 2147483646)%Z ->
  (factorable prods = false ->
   StdMap.find N (factoredGrammar grammar) = Some prods) /\
  (factorable prods = true ->
   StdMap.find N (factoredGrammar grammar) = Some [spaced common ++ fresh] /\
   StdMap.find fresh (factoredGrammar grammar) =
     Some (map (fun prod => suffixProd common (tokens_of prod)) prods)).
Proof.
  intros grammar fresh common ND HA Hc.
  unfold grammar in ND, HA. rewrite keys_app in ND, HA. simpl in ND, HA.
  pose proof (NoDup_remove_2 _ _ _ ND) as HN.
  assert (HNa : occurs APOSTROPHE N = false).
  { apply HA. apply in_or_app. right. now left. }
  assert (Hb : forall M q, In (M, q) before -> occurs APOSTROPHE M = false).
  { intros M q H. apply HA. apply in_or_app. left. unfold StdMap.keys.
    apply in_map_iff. now exists (M, q). }
  assert (Ha : forall M q, In (M, q) after ->
                           occurs APOSTROPHE M = false /\ M <> N).
  { intros M q H.
    assert (HM : In M (StdMap.keys after)).
    { unfold StdMap.keys. apply in_map_iff. now exists (M, q). }
    split.
    - apply HA. apply in_or_app. right. now right.
    - intros ->. apply NoDup_app_remove_l in ND.
      inversion ND; subst. contradiction. }
  assert (Fr : forall M c, occurs APOSTROPHE M = false -> M <> freshName N c).
  { intros M c HM E. rewrite E, occurs_freshName in HM. discriminate. }
  unfold factoredGrammar, factorPhase, grammar. rewrite fold_left_app.
  cbn [fold_left fst snd].
  assert (Cnt : snd (fold_left
                       (fun st rule => leftFactor (fst rule) (snd rule) st)
                       before (@nil (string * list string), 1%Z)) =
                (1 + Z.of_nat (allocations before))%Z)
    by (apply factor_count; lia).
  assert (Hnone : StdMap.find N
            (fst (fold_left
                    (fun st rule => leftFactor (fst rule) (snd rule) st)
                    before ([], 1%Z))) = None).
  { apply factor_fold_untouched.
    - intros H. apply HN. apply in_or_app. now left.
    - intros M q c' H E. rewrite E, occurs_freshName in HNa. discriminate. }
  destruct (fold_left (fun st rule => leftFactor (fst rule) (snd rule) st)
              before ([], 1%Z)) as [np1 c1] eqn:Efold.
  assert (Hc1 : c1 = (1 + Z.of_nat (allocations before))%Z).
  { rewrite <- Cnt. change c1 with (snd (np1, c1)). now rewrite <- Efold. }
  subst c1. clear Cnt Efold. cbn [fst] in Hnone. fold fresh.
  split.
  - intros F. rewrite (@leftFactor_copy N prods np1 _ F).
    rewrite factor_fold_other.
    + apply find_insert_eq.
    + intros M q c' H. destruct (Ha M q H) as [H1 H2]. split; [congruence|].
      intros E. rewrite E, occurs_freshName in HNa. discriminate.
  - intros F. rewrite (@leftFactor_factor N prods np1 _ F). fold fresh common.
    split.
    + rewrite factor_fold_other.
      * rewrite find_insert_neq by (apply not_eq_sym, freshName_neq).
        rewrite find_push_back, String.eqb_refl.
        unfold StdMap.get. now rewrite Hnone.
      * intros M q c' H. destruct (Ha M q H) as [H1 H2]. split; [congruence|].
        intros E. rewrite E, occurs_freshName in HNa. discriminate.
    + rewrite factor_fold_other.
      * rewrite find_insert_eq. now rewrite map_map.
      * intros M q c' H. destruct (Ha M q H) as [H1 H2]. split.
        -- apply not_eq_sym. now apply Fr.
        -- intros E. apply H2. symmetry.
           exact (@freshName_inj N M _ _ HNa H1 E).
Qed.

Lemma factoring_pass_spec_witness :
  StdMap.find "B"
    (factoredGrammar ([("A", ["a b"; "a c"])] ++ ("B", ["d e"; "d f"]) :: [])%list) =
    Some [spaced (commonOf ["d e"; "d f"]) ++ freshName "B" 2] /\
  StdMap.find (freshName "B" 2)
    (factoredGrammar ([("A", ["a b"; "a c"])] ++ ("B", ["d e"; "d f"]) :: [])%list) =
    Some (map (fun prod => suffixProd (commonOf ["d e"; "d f"]) (tokens_of prod))
            ["d e"; "d f"]).
Proof.
  apply (@factoring_pass_spec [("A", ["a b"; "a c"])] [] "B" ["d e"; "d f"]).
  - repeat constructor; simpl; intuition discriminate.
  - intros K [<-|[<-|[]]]; reflexivity.
  - vm_compute. reflexivity.
  - reflexivity.
Defined.

Lemma find_In_ordered (V : Type) (m : StdMap.t V) k v :
  ordered m -> (StdMap.find k m = Some v <-> In (k, v) m).
Proof.
  intros O. split; [apply find_In|].
  apply NoDup_In_find. now apply ordered_NoDup.
Qed.

(** X13.  The left-recursion pass over the factored grammar: every key [A]
    of the factored grammar is bound, in the final grammar, to what one call
    of [leftRecursion] gives it; when [A] has a left-recursive production and
    [A'] is not itself a key of the factored grammar, [A'] is bound to the
    recursive productions rewritten; and every key of the final grammar that
    is not a key of the factored one is such an [A']. *)
Theorem recursion_pass_spec (grammar : Grammar) (A : string)
  (prods : list string) :
  StdMap.find A (factoredGrammar grammar) = Some prods ->
  StdMap.find A (finalGrammar grammar) = Some (rewritten A prods) /\
  (filter (selfRecursive A) prods <> [] ->
   StdMap.find (A ++ "'") (factoredGrammar grammar) = None ->
   StdMap.find (A ++ "'") (finalGrammar grammar) = Some (primed A prods)) /\
  (forall K ps,
      StdMap.find K (finalGrammar grammar) = Some ps ->
      StdMap.find K (factoredGrammar grammar) = None ->
      exists B q,
        StdMap.find B (factoredGrammar grammar) = Some q /\
        K = B ++ "'" /\ filter (selfRecursive B) q <> [] /\ ps = primed B q).
Proof.
  intros F. pose proof (ordered_factoredGrammar grammar) as O.
  pose proof (proj1 (find_In_ordered A prods O) F) as Hin.
  split; [now apply recursion_fold_own|]. split.
  - intros R N. apply recursion_fold_primed; auto. now apply find_None_keys.
  - intros K ps H N. apply recursion_fold_fresh in H;
      [|now apply find_None_keys].
    destruct H as [H|(B & q & H1 & H2 & H3 & H4)]; [discriminate|].
    exists B, q. repeat split; auto. now apply find_In_ordered.
Qed.

Lemma recursion_pass_spec_witness :
  StdMap.find "A" (factoredGrammar cyclicGrammar) = Some ["A"; "b"] /\
  StdMap.find "A" (finalGrammar cyclicGrammar) =
    Some (rewritten "A" ["A"; "b"]) /\
  StdMap.find "A'" (finalGrammar cyclicGrammar) =
    Some (primed "A" ["A"; "b"]).
Proof.
  split; [reflexivity|].
  destruct (@recursion_pass_spec cyclicGrammar "A" ["A"; "b"] eq_refl)
    as (H1 & H2 & _).
  split; [exact H1|]. apply H2; [discriminate | reflexivity].
Defined.

(** * The solved sets are closed under the rules *)

Section Stable.
Variables K U : list string.

(** A step between a state and itself leaves the state alone. *)
Lemma grows_sandwich (a b c : solver) :
  grows K U a b -> grows K U b c -> c = a -> b = a.
Proof.
  intros (_ & _ & [H1|[_ H1]]) (_ & _ & [H2|[_ H2]]) E.
  - exact H1.
  - exact H1.
  - now rewrite <- H2, E.
  - rewrite E in H2. lia.
Qed.

Lemma fold_grows (A : Type) (f : solver -> A -> solver) l st :
  (forall st x, kept K U (fst st) -> In x l -> grows K U st (f st x)) ->
  kept K U (fst st) -> grows K U st (fold_left f l st).
Proof.
  revert st. induction l as [|x l IH]; intros st H Hk; simpl.
  - now apply grows_refl.
  - assert (G : grows K U st (f st x)) by (apply H; [exact Hk | now left]).
    eapply grows_trans; [exact G|]. apply IH.
    + intros st' y Hk' Hy. apply H; [exact Hk' | now right].
    + exact (grows_kept G).
Qed.

Lemma fold_stable (A : Type) (f : solver -> A -> solver) l st :
  (forall st x, kept K U (fst st) -> In x l -> grows K U st (f st x)) ->
  kept K U (fst st) -> fold_left f l st = st ->
  forall x, In x l -> f st x = st.
Proof.
  induction l as [|y l IH]; intros H Hk E x Hx; [destruct Hx|].
  simpl in E.
  assert (G : grows K U st (f st y)) by (apply H; [exact Hk | now left]).
  assert (G' : grows K U (f st y) (fold_left f l (f st y))).
  { apply fold_grows; [|exact (grows_kept G)].
    intros st' z Hk' Hz. apply H; [exact Hk' | now right]. }
  pose proof (grows_sandwich G G' E) as E1. rewrite E1 in E.
  destruct Hx as [<-|Hx]; [exact E1|].
  apply IH; auto. intros st' z Hk' Hz. apply H; [exact Hk' | now right].
Qed.

Lemma add_stable X sym st : add X sym st = st -> In sym (sets_get X (fst st)).
Proof. intros E. rewrite <- E at 1. apply In_add. Qed.

Lemma addButEpsilon_stable X src st :
  kept K U (fst st) -> In X K ->
  (forall x, In x src -> x <> EPSILON -> In x U) ->
  addButEpsilon X src st = st ->
  forall x, In x src -> x <> EPSILON -> In x (sets_get X (fst st)).
Proof.
  intros Hk HX HU E x Hx Hne. unfold addButEpsilon in E.
  assert (S : (if x =? EPSILON then st else add X x st) = st).
  { apply (@fold_stable string
             (fun st sym => if sym =? EPSILON then st else add X sym st)
             src st); auto.
    intros st' y Hk' Hy. destruct (y =? EPSILON) eqn:Ey.
    - now apply grows_refl.
    - apply String.eqb_neq in Ey. apply add_grows; auto. }
  apply String.eqb_neq in Hne. rewrite Hne in S. now apply add_stable.
Qed.

Lemma addAll_stable X src st :
  kept K U (fst st) -> In X K -> incl src U ->
  addAll X src st = st ->
  forall x, In x src -> In x (sets_get X (fst st)).
Proof.
  intros Hk HX HU E x Hx. unfold addAll in E. apply add_stable.
  apply (@fold_stable string (fun st sym => add X sym st) src st); auto.
  intros st' y Hk' Hy. apply add_grows; auto.
Qed.
End Stable.

Lemma In_fold_insert_butEpsilon src result x :
  In x (fold_left
          (fun r sym => if sym =? EPSILON then r else fst (StdSet.insert sym r))
          src result) <->
  In x result \/ (In x src /\ x <> EPSILON).
Proof.
  revert result. induction src as [|y src IH]; intros result; simpl.
  - tauto.
  - rewrite IH. destruct (y =? EPSILON) eqn:E.
    + apply String.eqb_eq in E. subst y. split.
      * intros [H|[H1 H2]]; auto.
      * intros [H|[[H|H] H2]]; auto. congruence.
    + apply String.eqb_neq in E. rewrite In_insert. split.
      * intros [[H|H]|[H1 H2]]; auto. subst. right. split; [now left | exact E].
      * intros [H|[[H|H] H2]]; auto.
Qed.

Lemma get_of_find (m : SetMap) k s :
  StdMap.find k m = Some s -> sets_get k m = s.
Proof. unfold sets_get, StdMap.get. now intros ->. Qed.

Section FirstClosed.
Variable grammar : Grammar.
Variables K U : list string.
Hypothesis keys_in_K : forall t, StdMap.find t grammar <> None -> In t K.
Hypothesis epsilon_in_U : In EPSILON U.
Hypothesis epsilon_no_key : StdMap.find EPSILON grammar = None.

Lemma firstScan_stable X tokens st flag result :
  kept K U (fst st) -> In X K -> terminals_in grammar U tokens ->
  firstScan grammar X tokens st = (st, flag) ->
  exists r,
    firstOfScan tokens (fst st) grammar result = Some (r, flag) /\
    forall x, In x r -> In x result \/ In x (sets_get X (fst st)).
Proof.
  intros Hk HX. revert result.
  induction tokens as [|token rest IH]; intros result HT E.
  - simpl in E. injection E as <-. exists result. split; [reflexivity|]. auto.
  - assert (HT' : terminals_in grammar U rest).
    { intros t Ht. apply HT. now right. }
    cbn [firstScan firstOfScan] in *.
    destruct (token =? EPSILON) eqn:Ee.
    + apply String.eqb_eq in Ee. subst token. rewrite epsilon_no_key.
      injection E as E <-. exists (fst (StdSet.insert EPSILON result)).
      split; [reflexivity|]. intros x Hx. apply In_insert in Hx.
      destruct Hx as [->|Hx]; [right; now apply add_stable | now left].
    + destruct (StdMap.find token grammar) as [ps|] eqn:F.
      * assert (Ht : In token K) by (apply keys_in_K; congruence).
        destruct st as [m b]. cbn [fst snd] in *.
        rewrite (sets_index_bound token Hk Ht) in E.
        pose proof (@addButEpsilon_grows K U X (sets_get token m) (m, b) Hk HX)
          as G.
        assert (HU : forall x, In x (sets_get token m) -> x <> EPSILON -> In x U).
        { intros x Hx _. exact (kept_within Hk token x Hx). }
        specialize (G HU).
        set (st1 := addButEpsilon X (sets_get token m) (m, b)) in *.
        pose proof (grows_kept G) as Hk1.
        rewrite (sets_index_bound token Hk1 Ht) in E.
        assert (E1 : st1 = (m, b)).
        { destruct (StdSet.mem EPSILON (sets_get token (fst st1))).
          - apply (@grows_sandwich K U (m, b) st1 (m, b)); auto.
            replace (fst st1, snd st1) with st1 in E by now destruct st1.
            pose proof (@firstScan_grows grammar K U keys_in_K epsilon_in_U
                          X rest st1 Hk1 HX HT') as G'.
            now rewrite E in G'.
          - injection E as E2 E3 _. destruct st1; simpl in *; congruence. }
        rewrite E1 in E. cbn [fst snd] in E.
        destruct (StdMap.find token m) as [firstToken|] eqn:Fm;
          [|now elim (kept_keys Hk token Ht)].
        pose proof (get_of_find _ _ Fm) as Eg. subst st1. rewrite Eg in *.
        pose proof (@addButEpsilon_stable K U X firstToken (m, b) Hk HX HU E1)
          as S. cbn [fst] in S.
        destruct (StdSet.mem EPSILON firstToken).
        -- destruct (IH (fold_left
                 (fun r sym =>
                    if sym =? EPSILON then r else fst (StdSet.insert sym r))
                 firstToken result) HT' E) as (r & Hr1 & Hr2).
           exists r. split; [exact Hr1|]. intros x Hx.
           destruct (Hr2 x Hx) as [H|H]; [|now right].
           apply In_fold_insert_butEpsilon in H.
           destruct H as [H|[H1 H2]]; [now left | right; now apply S].
        -- injection E as <-. eexists. split; [reflexivity|]. intros x Hx.
           apply In_fold_insert_butEpsilon in Hx.
           destruct Hx as [H|[H1 H2]]; [now left | right; now apply S].
      * injection E as E <-. exists (fst (StdSet.insert token result)).
        split; [reflexivity|]. intros x Hx. apply In_insert in Hx.
        destruct Hx as [->|Hx]; [right; now apply add_stable | now left].
Qed.

Lemma firstProd_stable X prod st :
  kept K U (fst st) -> In X K -> terminals_in grammar U (tokens_of prod) ->
  tokens_of prod <> [] ->
  firstProd grammar X prod st = st ->
  exists firstAlpha,
    computeFirstOfString (tokens_of prod) (fst st) grammar = Some firstAlpha /\
    incl firstAlpha (sets_get X (fst st)).
Proof.
  intros Hk HX HT Hne E. unfold firstProd in E.
  destruct (tokens_of prod) as [|t ts] eqn:T; [congruence|].
  pose proof (@firstScan_grows grammar K U keys_in_K epsilon_in_U
                X (t :: ts) st Hk HX HT) as G.
  destruct (firstScan grammar X (t :: ts) st) as [st1 addEpsilon] eqn:S.
  cbn [fst] in G.
  assert (E1 : st1 = st).
  { apply (@grows_sandwich K U st st1 st); auto. destruct addEpsilon.
    - rewrite <- E. apply add_grows; auto. exact (grows_kept G).
    - rewrite <- E. apply grows_refl. exact (grows_kept G). }
  subst st1.
  destruct (@firstScan_stable X (t :: ts) st addEpsilon [] Hk HX HT S)
    as (r & Hr1 & Hr2).
  unfold computeFirstOfString. rewrite Hr1. eexists. split; [reflexivity|].
  intros x Hx. destruct addEpsilon.
  - apply In_insert in Hx. destruct Hx as [->|Hx]; [now apply add_stable|].
    destruct (Hr2 x Hx) as [[]|H]. exact H.
  - destruct (Hr2 x Hx) as [[]|H]. exact H.
Qed.
End FirstClosed.

Lemma first_keys_in (grammar : Grammar) :
  forall t, StdMap.find t grammar <> None -> In t (StdMap.keys grammar).
Proof. intros t. apply find_keys. Qed.

Lemma firstRule_grows (grammar : Grammar) U st rule :
  In EPSILON U -> incl (terminals grammar) U ->
  kept (StdMap.keys grammar) U (fst st) -> In rule grammar ->
  grows (StdMap.keys grammar) U st (firstRule grammar st rule).
Proof.
  intros He HU Hk Hr. destruct rule as [A prods].
  destruct (rules_within_grammar grammar HU A prods Hr) as [HA HP].
  unfold firstRule. cbn [fst snd].
  apply (@firstProds_grows grammar _ U (@first_keys_in grammar) He); auto.
Qed.

Lemma firstPass_stable (grammar : Grammar) U first A prods prod :
  In EPSILON U -> incl (terminals grammar) U ->
  kept (StdMap.keys grammar) U first ->
  firstPass grammar first = (first, false) ->
  In (A, prods) grammar -> In prod prods ->
  firstProd grammar A prod (first, false) = (first, false).
Proof.
  intros He HU Hk E HA Hp. unfold firstPass in E.
  assert (R : firstRule grammar (first, false) (A, prods) = (first, false)).
  { apply (@fold_stable (StdMap.keys grammar) U _ (firstRule grammar)
             grammar (first, false)); auto.
    intros st rule Hk' Hr. now apply firstRule_grows. }
  unfold firstRule in R. cbn [fst snd] in R.
  destruct (rules_within_grammar grammar HU A prods HA) as [HK HP].
  apply (@fold_stable (StdMap.keys grammar) U _
           (fun st p => firstProd grammar A p st) prods (first, false)); auto.
  intros st p Hk' Hp'.
  apply (@firstProd_grows grammar _ U (@first_keys_in grammar) He); auto.
Qed.

Lemma incl_terminals_universe (grammar : Grammar) :
  incl (terminals grammar) (firstUniverse grammar).
Proof. intros t Ht. right. now apply incl_terminals. Qed.

(** X14.  The FIRST sets returned for a grammar in which the epsilon token
    is not a key: every member is Epsilon or a token that is not a key, and
    for every production of [A] with at least one token, the FIRST set
    [computeFirstOfString] gives for the production (the one the table is
    built from) is included in FIRST([A]). *)
Theorem first_sets_closed (grammar : Grammar) :
  StdMap.find EPSILON grammar = None ->
  exists first,
    firstSet grammar = Returns first /\
    (forall k x, In x (sets_get k first) ->
                 x = EPSILON \/ In x (terminals grammar)) /\
    (forall A prods prod,
        In (A, prods) grammar -> In prod prods -> tokens_of prod <> [] ->
        exists firstAlpha,
          computeFirstOfString (tokens_of prod) first grammar =
            Some firstAlpha /\
          incl firstAlpha (sets_get A first)).
Proof.
  intros He.
  destruct (firstSet_returns grammar) as (first & R & Hk & S).
  destruct (firstSet_terminals grammar) as (first' & R' & Hk').
  assert (first' = first) by congruence. subst first'.
  exists first. split; [exact R|]. split.
  - intros k x Hx. destruct (kept_within Hk' k x Hx) as [H|H]; auto.
  - intros A prods prod HA Hp Hne.
    pose proof (@incl_terminals_universe grammar) as HU.
    assert (Hin : In EPSILON (firstUniverse grammar)) by now left.
    pose proof (@firstPass_stable grammar _ first A prods prod
                  Hin HU Hk S HA Hp) as P.
    destruct (rules_within_grammar grammar HU A prods HA) as [HK HP].
    apply (@firstProd_stable grammar (StdMap.keys grammar)
             (firstUniverse grammar) (@first_keys_in grammar) Hin He
             A prod (first, false)); auto.
Qed.

Lemma first_sets_closed_witness :
  StdMap.find EPSILON scenarioFinal = None /\
  exists first,
    firstSet scenarioFinal = Returns first /\
    (forall A prods prod,
        In (A, prods) scenarioFinal -> In prod prods ->
        tokens_of prod <> [] ->
        exists firstAlpha,
          computeFirstOfString (tokens_of prod) first scenarioFinal =
            Some firstAlpha /\
          incl firstAlpha (sets_get A first)).
Proof.
  split; [reflexivity|].
  destruct (@first_sets_closed scenarioFinal eq_refl) as (first & H1 & _ & H3).
  exists first. now split.
Defined.

Section FollowClosed.
Variable grammar : Grammar.
Variable first : SetMap.
Variables K U : list string.
Hypothesis keys_in_K : forall t, StdMap.find t grammar <> None -> In t K.
Hypothesis first_total :
  forall t, StdMap.find t grammar <> None -> StdMap.find t first <> None.
Hypothesis first_within :
  forall t s x, StdMap.find t first = Some s -> In x s -> x <> EPSILON -> In x U.

Lemma followScan_stable B rest st flag result :
  kept K U (fst st) -> In B K -> terminals_in grammar U rest ->
  followScan grammar first B rest st = Some (st, flag) ->
  exists r,
    firstOfScan rest first grammar result = Some (r, flag) /\
    forall x, In x r -> In x result \/ In x (sets_get B (fst st)).
Proof.
  intros Hk HB. revert result.
  induction rest as [|beta rest IH]; intros result HT E.
  - simpl in E. injection E as <-. exists result. split; [reflexivity|]. auto.
  - assert (HT' : terminals_in grammar U rest).
    { intros t Ht. apply HT. now right. }
    cbn [followScan firstOfScan] in *.
    destruct (StdMap.find beta grammar) as [ps|] eqn:F.
    + destruct (StdMap.find beta first) as [firstBeta|] eqn:F1;
        [|discriminate].
      assert (HU : forall x, In x firstBeta -> x <> EPSILON -> In x U).
      { intros x Hx Hne. exact (first_within beta F1 Hx Hne). }
      pose proof (@addButEpsilon_grows K U B firstBeta st Hk HB HU) as G.
      assert (E1 : addButEpsilon B firstBeta st = st).
      { destruct (StdSet.mem EPSILON firstBeta).
        - apply (@grows_sandwich K U st _ st); auto.
          destruct (@followScan_grows grammar first K U first_total
                      first_within B rest _ (grows_kept G) HB HT')
            as (st' & b & E' & G').
          rewrite E in E'. injection E' as <- <-. exact G'.
        - now injection E as E _. }
      rewrite E1 in E.
      pose proof (@addButEpsilon_stable K U B firstBeta st Hk HB HU E1) as S.
      destruct (StdSet.mem EPSILON firstBeta).
      * destruct (IH (fold_left
                 (fun r sym =>
                    if sym =? EPSILON then r else fst (StdSet.insert sym r))
                 firstBeta result) HT' E) as (r & Hr1 & Hr2).
        exists r. split; [exact Hr1|]. intros x Hx.
        destruct (Hr2 x Hx) as [H|H]; [|now right].
        apply In_fold_insert_butEpsilon in H.
        destruct H as [H|[H1 H2]]; [now left | right; now apply S].
      * injection E as <-. eexists. split; [reflexivity|]. intros x Hx.
        apply In_fold_insert_butEpsilon in Hx.
        destruct Hx as [H|[H1 H2]]; [now left | right; now apply S].
    + injection E as E <-. exists (fst (StdSet.insert beta result)).
      split; [reflexivity|]. intros x Hx. apply In_insert in Hx.
      destruct Hx as [->|Hx]; [right; now apply add_stable | now left].
Qed.

Lemma followTokens_stable A tokens st :
  kept K U (fst st) -> In A K -> right_terminals_in grammar U tokens ->
  followTokens grammar first A tokens st = Some st ->
  forall pre B rest,
    tokens = (pre ++ B :: rest)%list -> StdMap.find B grammar <> None ->
    exists flag,
      followScan grammar first B rest st = Some (st, flag) /\
      (flag = true -> incl (sets_get A (fst st)) (sets_get B (fst st))).
Proof.
  intros Hk HA.
  induction tokens as [|C tokens IH]; intros Htok E pre B rest D HBk.
  - now destruct pre.
  - unfold right_terminals_in in Htok. cbn [rightOfKey followTokens] in *.
    destruct (StdMap.find C grammar) as [ps|] eqn:F.
    + assert (Hrest : right_terminals_in grammar U tokens).
      { intros y Hy. apply Htok. now apply In_rightOfKey in Hy. }
      assert (HC : In C K) by (apply keys_in_K; congruence).
      destruct (@followScan_grows grammar first K U first_total
                  first_within C tokens st Hk HC Htok) as (st1 & b & E1 & G).
      rewrite E1 in E.
      set (st2 := if b then let '(src, m1) := sets_index A (fst st1) in
                             addAll C src (m1, snd st1) else st1) in *.
      assert (G2 : grows K U st1 st2).
      { subst st2. destruct b; [|apply grows_refl; apply (grows_kept G)].
        rewrite (sets_index_bound A (grows_kept G) HA).
        rewrite <- surjective_pairing.
        apply addAll_grows; [apply (grows_kept G) | exact HC |].
        apply (kept_within (grows_kept G)). }
      destruct (@followTokens_grows grammar first K U keys_in_K first_total
                  first_within A tokens st2 (grows_kept G2) HA Hrest)
        as (st3 & E3 & G3).
      rewrite E in E3. injection E3 as <-.
      assert (S1 : st1 = st).
      { apply (@grows_sandwich K U st st1 st); auto.
        eapply grows_trans; eassumption. }
      assert (S2 : st2 = st).
      { apply (@grows_sandwich K U st st2 st); auto.
        eapply grows_trans; eassumption. }
      rewrite S2 in E. subst st1.
      destruct pre as [|P pre]; simpl in D; injection D as -> ->.
      * exists b. split; [exact E1|]. intros ->. subst st2.
        rewrite (sets_index_bound A Hk HA) in S2.
        rewrite <- surjective_pairing in S2.
        intros x Hx.
        apply (@addAll_stable K U B (sets_get A (fst st)) st); auto.
        apply (kept_within Hk).
      * apply (IH Hrest E pre B rest eq_refl HBk).
    + destruct pre as [|P pre]; simpl in D; injection D as -> ->.
      * congruence.
      * apply (IH Htok E pre B rest eq_refl HBk).
Qed.

Lemma followProds_stable A prods st :
  kept K U (fst st) -> In A K ->
  (forall prod, In prod prods -> right_terminals_in grammar U (tokens_of prod)) ->
  followProds grammar first A prods st = Some st ->
  forall prod, In prod prods ->
    followTokens grammar first A (tokens_of prod) st = Some st.
Proof.
  intros Hk HA.
  induction prods as [|p prods IH]; intros Hp E prod Hin; [destruct Hin|].
  cbn [followProds] in E.
  destruct (@followTokens_grows grammar first K U keys_in_K first_total
              first_within A (tokens_of p) st Hk HA (Hp p (or_introl eq_refl)))
    as (st1 & E1 & G).
  rewrite E1 in E.
  destruct (@followProds_grows grammar first K U keys_in_K first_total
              first_within A prods st1 (grows_kept G) HA) as (st2 & E2 & G2).
  { intros q Hq. apply Hp. now right. }
  rewrite E in E2. injection E2 as <-.
  assert (S1 : st1 = st) by (apply (@grows_sandwich K U st st1 st); auto).
  subst st1. destruct Hin as [<-|Hin]; [exact E1|].
  apply IH; auto. intros q Hq. apply Hp. now right.
Qed.

Lemma followRules_stable rules st :
  kept K U (fst st) -> rules_within K (right_terminals_in grammar U) rules ->
  followRules grammar first rules st = Some st ->
  forall A prods, In (A, prods) rules ->
    followProds grammar first A prods st = Some st.
Proof.
  intros Hk.
  induction rules as [|[C q] rules IH]; intros Hr E A prods Hin;
    [destruct Hin|].
  cbn [followRules] in E.
  destruct (Hr C q (or_introl eq_refl)) as [HC Hq].
  destruct (@followProds_grows grammar first K U keys_in_K first_total
              first_within C q st Hk HC Hq) as (st1 & E1 & G).
  rewrite E1 in E.
  assert (Hr' : rules_within K (right_terminals_in grammar U) rules).
  { intros D d Hd. apply Hr. now right. }
  destruct (@followRules_grows grammar first K U keys_in_K first_total
              first_within rules st1 (grows_kept G) Hr') as (st2 & E2 & G2).
  rewrite E in E2. injection E2 as <-.
  assert (S1 : st1 = st) by (apply (@grows_sandwich K U st st1 st); auto).
  subst st1. destruct Hin as [[= <- <-]|Hin]; [exact E1|].
  now apply (IH Hr' E).
Qed.
End FollowClosed.

Lemma follow_closed_at (grammar : Grammar) first startSymbol U follow :
  (forall t, StdMap.find t grammar <> None -> StdMap.find t first <> None) ->
  (forall t s x, StdMap.find t first = Some s -> In x s -> x <> EPSILON ->
                 In x U) ->
  incl (grammarTokens grammar) U ->
  rules_within (startSymbol :: StdMap.keys grammar)
    (right_terminals_in grammar U) grammar ->
  kept (startSymbol :: StdMap.keys grammar) U follow ->
  followPass grammar first follow = Some (follow, false) ->
  forall A prods prod pre B rest,
    In (A, prods) grammar -> In prod prods ->
    tokens_of prod = (pre ++ B :: rest)%list ->
    StdMap.find B grammar <> None ->
    exists firstRest allEpsilon,
      firstOfScan rest first grammar [] = Some (firstRest, allEpsilon) /\
      incl firstRest (sets_get B follow) /\
      (allEpsilon = true -> incl (sets_get A follow) (sets_get B follow)).
Proof.
  intros Htotal Hw Hg HU' Hk Hst A prods prod pre B rest HA Hp HT HB.
  set (K := startSymbol :: StdMap.keys grammar) in *.
  assert (HK : forall t, StdMap.find t grammar <> None -> In t K).
  { intros t Ht. right. now apply find_keys. }
  unfold followPass in Hst.
  pose proof (@followRules_stable grammar first K U HK Htotal Hw grammar
                (follow, false) Hk HU' Hst A prods HA) as S1.
  destruct (HU' A prods HA) as [HAK HP].
  pose proof (@followProds_stable grammar first K U HK Htotal Hw A prods
                (follow, false) Hk HAK HP S1 prod Hp) as S2.
  destruct (@followTokens_stable grammar first K U HK Htotal Hw A
              (tokens_of prod) (follow, false) Hk HAK (HP prod Hp) S2
              pre B rest HT HB) as (flag & S3 & S4).
  assert (HT' : terminals_in grammar U rest).
  { intros t Ht Hn. apply Hg.
    apply (@tokens_in_grammarTokens grammar A prods prod HA Hp).
    rewrite HT. apply in_or_app. right. now right. }
  destruct (@followScan_stable grammar first K U Htotal Hw B rest
              (follow, false) flag [] Hk (HK B HB) HT' S3) as (r & R1 & R2).
  exists r, flag. split; [exact R1|]. split; [|exact S4].
  intros x Hx. destruct (R2 x Hx) as [[]|H]. exact H.
Qed.

(** X15.  The FOLLOW sets returned, for any FIRST map that binds the keys
    of the grammar: FOLLOW of the start symbol holds the end marker, and for
    every occurrence of a non-terminal [B] in a production of [A], what the
    scan of the tokens to the right of [B] collects (the terminal met, the
    FIRST sets without Epsilon of the non-terminals passed) is in
    FOLLOW([B]), and FOLLOW([A]) is included in FOLLOW([B]) when every token
    to the right of [B] is a non-terminal with Epsilon in its FIRST set. *)
Theorem follow_sets_closed (grammar : Grammar) (first : SetMap)
  (startSymbol : string) :
  (forall t, StdMap.find t grammar <> None -> StdMap.find t first <> None) ->
  exists follow,
    computeFollowSets grammar first startSymbol = Returns follow /\
    In ENDMARK (sets_get startSymbol follow) /\
    (forall A prods prod pre B rest,
        In (A, prods) grammar -> In prod prods ->
        tokens_of prod = (pre ++ B :: rest)%list ->
        StdMap.find B grammar <> None ->
        exists firstRest allEpsilon,
          firstOfScan rest first grammar [] = Some (firstRest, allEpsilon) /\
          incl firstRest (sets_get B follow) /\
          (allEpsilon = true ->
           incl (sets_get A follow) (sets_get B follow))).
Proof.
  intros Htotal.
  set (U := ENDMARK :: (grammarTokens grammar ++ members first)%list).
  assert (Hw : forall t s x, StdMap.find t first = Some s -> In x s ->
                             x <> EPSILON -> In x U).
  { intros t s x F Hx _. right. apply in_or_app. right.
    eapply In_members; eassumption. }
  assert (Hg : incl (grammarTokens grammar) U).
  { intros t Ht. right. apply in_or_app. now left. }
  assert (HU : rules_within (StdMap.keys grammar)
                 (right_terminals_in grammar U) grammar).
  { apply rules_right_within_terminals. intros t Ht. apply Hg.
    now apply incl_terminals. }
  destruct (@followSets_returns_within grammar first startSymbol U)
    as (follow & Ho & Hk & Hsub & Hst); try assumption.
  - now left.
  - unfold U. simpl. rewrite length_app. lia.
  - exists follow. split; [exact Ho|]. split.
    { apply Hsub. rewrite followInit_spec, String.eqb_refl. now left. }
    apply (@follow_closed_at grammar first startSymbol U); auto.
    now apply rules_within_cons.
Qed.

Lemma follow_sets_closed_witness :
  (forall t, StdMap.find t scenarioFinal <> None ->
             StdMap.find t scenarioFirst <> None) /\
  exists follow,
    computeFollowSets scenarioFinal scenarioFirst "S" = Returns follow /\
    In ENDMARK (sets_get "S" follow) /\
    (forall A prods prod pre B rest,
        In (A, prods) scenarioFinal -> In prod prods ->
        tokens_of prod = (pre ++ B :: rest)%list ->
        StdMap.find B scenarioFinal <> None ->
        exists firstRest allEpsilon,
          firstOfScan rest scenarioFirst scenarioFinal [] =
            Some (firstRest, allEpsilon) /\
          incl firstRest (sets_get B follow) /\
          (allEpsilon = true ->
           incl (sets_get A follow) (sets_get B follow))).
Proof.
  split; [exact scenario_first_total|].
  exact (@follow_sets_closed scenarioFinal scenarioFirst "S"
           scenario_first_total).
Defined.

(** * The solved sets hold exactly what the rules derive *)

Lemma In_add_inv X x st A y :
  In y (sets_get A (fst (add X x st))) ->
  In y (sets_get A (fst st)) \/ (A = X /\ y = x).
Proof.
  unfold add, StdSet.insert.
  destruct (StdSet.mem x (sets_get X (fst st))); [now left|].
  cbn [fst]. unfold sets_get at 1. rewrite get_insert.
  destruct (A =? X) eqn:E; [|now left].
  apply String.eqb_eq in E. subst A. rewrite In_place.
  intros [->|H]; [now right | now left].
Qed.

Lemma justified_add (P : string -> string -> Prop) X x st :
  justified P (fst st) -> P X x -> justified P (fst (add X x st)).
Proof.
  intros J H A y Hy. apply In_add_inv in Hy.
  destruct Hy as [Hy|[-> ->]]; [now apply J | exact H].
Qed.

Lemma justified_addButEpsilon (P : string -> string -> Prop) X src st :
  justified P (fst st) ->
  (forall x, In x src -> x <> EPSILON -> P X x) ->
  justified P (fst (addButEpsilon X src st)).
Proof.
  unfold addButEpsilon. revert st.
  induction src as [|y src IH]; intros st J H; simpl; [exact J|].
  apply IH; [|intros x Hx; apply H; now right].
  destruct (y =? EPSILON) eqn:E; [exact J|]. apply String.eqb_neq in E.
  apply justified_add; [exact J|]. apply H; [now left | exact E].
Qed.

Lemma justified_addAll (P : string -> string -> Prop) X src st :
  justified P (fst st) -> (forall x, In x src -> P X x) ->
  justified P (fst (addAll X src st)).
Proof.
  unfold addAll. revert st.
  induction src as [|y src IH]; intros st J H; simpl; [exact J|].
  apply IH; [|intros x Hx; apply H; now right].
  apply justified_add; [exact J|]. apply H. now left.
Qed.

Section FirstSound.
Variable grammar : Grammar.
Variables K U : list string.
Hypothesis keys_in_K : forall t, StdMap.find t grammar <> None -> In t K.
Hypothesis epsilon_in_U : In EPSILON U.

Lemma derives_passed pre rest x :
  passed grammar pre -> derivesFirst grammar rest x ->
  derivesFirst grammar (pre ++ rest) x.
Proof.
  induction pre as [|t pre IH]; intros P D; [exact D|].
  destruct (P t (or_introl eq_refl)) as (Hne & prods & prod & H1 & H2 & H3 & H4).
  simpl. eapply first_skip; eauto.
  apply IH; [|exact D]. intros u Hu. apply P. now right.
Qed.

Lemma firstScan_sound X prods prod pre tokens st :
  kept K U (fst st) -> In X K -> terminals_in grammar U tokens ->
  In (X, prods) grammar -> In prod prods ->
  tokens_of prod = (pre ++ tokens)%list -> tokens_of prod <> [] ->
  passed grammar pre -> justified (firstOf grammar) (fst st) ->
  justified (firstOf grammar) (fst (fst (firstScan grammar X tokens st))) /\
  (snd (firstScan grammar X tokens st) = true -> passed grammar (pre ++ tokens)).
Proof.
  intros Hk HX HT HA Hp E Hne. revert pre st Hk HT E.
  induction tokens as [|token rest IH]; intros pre st Hk HT E P J.
  - simpl. split; [exact J|]. intros _. now rewrite app_nil_r.
  - assert (HT' : terminals_in grammar U rest).
    { intros t Ht. apply HT. now right. }
    assert (D : forall x, derivesFirst grammar (token :: rest) x ->
                          firstOf grammar X x).
    { intros x Hx. exists prods, prod. repeat split; auto.
      rewrite E. now apply derives_passed. }
    cbn [firstScan].
    destruct (token =? EPSILON) eqn:Ee.
    + apply String.eqb_eq in Ee. subst token. cbn [fst snd].
      split; [|discriminate]. apply justified_add; [exact J|].
      apply D. constructor.
    + apply String.eqb_neq in Ee.
      destruct (StdMap.find token grammar) as [ps|] eqn:F.
      * assert (Ht : In token K) by (apply keys_in_K; congruence).
        rewrite (sets_index_bound token Hk Ht).
        replace (fst st, snd st) with st by now destruct st.
        assert (HU : forall x, In x (sets_get token (fst st)) ->
                               x <> EPSILON -> In x U).
        { intros x Hx _. exact (kept_within Hk token x Hx). }
        pose proof (@addButEpsilon_grows K U X _ st Hk HX HU) as G.
        assert (J1 : justified (firstOf grammar)
                       (fst (addButEpsilon X (sets_get token (fst st)) st))).
        { apply justified_addButEpsilon; [exact J|].
          intros x Hx Hxe. apply D.
          destruct (J token x Hx) as (q & p & H1 & H2 & H3 & H4).
          eapply first_head; eauto. }
        set (st1 := addButEpsilon X (sets_get token (fst st)) st) in *.
        pose proof (grows_kept G) as Hk1.
        rewrite (sets_index_bound token Hk1 Ht).
        replace (fst st1, snd st1) with st1 by now destruct st1.
        destruct (StdSet.mem EPSILON (sets_get token (fst st1))) eqn:M.
        -- assert (P' : passed grammar (pre ++ [token])).
           { intros t Ht'. apply in_app_or in Ht'.
             destruct Ht' as [Ht'|[<-|[]]]; [now apply P|].
             split; [exact Ee|]. apply (J1 token). now apply mem_In. }
           destruct (IH (pre ++ [token])%list st1 Hk1 HT') as [I1 I2]; auto.
           { now rewrite <- app_assoc. }
           split; [exact I1|]. intros Hf. rewrite <- app_assoc in I2.
           now apply I2.
        -- cbn [fst snd]. split; [exact J1 | discriminate].
      * cbn [fst snd]. split; [|discriminate].
        apply justified_add; [exact J|]. apply D. now constructor.
Qed.

Lemma firstProd_sound X prods prod st :
  kept K U (fst st) -> In X K -> terminals_in grammar U (tokens_of prod) ->
  In (X, prods) grammar -> In prod prods -> justified (firstOf grammar) (fst st) ->
  justified (firstOf grammar) (fst (firstProd grammar X prod st)).
Proof.
  intros Hk HX HT HA Hp J. unfold firstProd.
  destruct (tokens_of prod) as [|t ts] eqn:T; [exact J|].
  assert (Hne : tokens_of prod <> []) by (rewrite T; discriminate).
  rewrite <- T in *.
  destruct (@firstScan_sound X prods prod [] (tokens_of prod) st)
    as [S1 S2]; auto.
  { intros ? []. }
  destruct (firstScan grammar X (tokens_of prod) st) as [st1 addEpsilon].
  cbn [fst snd] in *. destruct addEpsilon; [|exact S1].
  apply justified_add; [exact S1|]. exists prods, prod. repeat split; auto.
  rewrite <- (app_nil_r (tokens_of prod)).
  apply derives_passed; [now apply S2 | constructor].
Qed.
End FirstSound.

Lemma firstLoop_sound (grammar : Grammar) fuel m r :
  kept (StdMap.keys grammar) (firstUniverse grammar) m ->
  justified (firstOf grammar) m ->
  firstLoop fuel grammar m = Returns r -> justified (firstOf grammar) r.
Proof.
  assert (Hin : In EPSILON (firstUniverse grammar)) by now left.
  pose proof (@incl_terminals_universe grammar) as HU.
  pose proof (rules_within_grammar grammar HU) as HW.
  assert (Pass : forall m, kept (StdMap.keys grammar) (firstUniverse grammar) m ->
            justified (firstOf grammar) m ->
            justified (firstOf grammar) (fst (firstPass grammar m))).
  { clear m. intros m Hk J. unfold firstPass.
    assert (G : forall rules st,
               incl rules grammar ->
               kept (StdMap.keys grammar) (firstUniverse grammar) (fst st) ->
               justified (firstOf grammar) (fst st) ->
               justified (firstOf grammar) (fst (fold_left (firstRule grammar) rules st))).
    { induction rules as [|[A prods] rules IH]; intros st Hi Hk' J';
        [exact J'|].
      cbn [fold_left]. apply IH.
      - intros x Hx. apply Hi. now right.
      - apply (grows_kept (K := StdMap.keys grammar)
                 (U := firstUniverse grammar) (st := st)).
        apply firstRule_grows; auto. apply Hi. now left.
      - assert (HA : In (A, prods) grammar) by (apply Hi; now left).
        destruct (HW A prods HA) as [HK HP].
        unfold firstRule. cbn [fst snd].
        assert (Q : forall ps st,
                   incl ps prods ->
                   kept (StdMap.keys grammar) (firstUniverse grammar) (fst st) ->
                   justified (firstOf grammar) (fst st) ->
                   justified (firstOf grammar)
                     (fst (fold_left
                             (fun st prod => firstProd grammar A prod st) ps st))).
        { clear st Hk' J'. induction ps as [|p ps IHp]; intros st Hps Hk' J';
            [exact J'|].
          cbn [fold_left]. apply IHp.
          - intros x Hx. apply Hps. now right.
          - apply (grows_kept (K := StdMap.keys grammar)
                     (U := firstUniverse grammar) (st := st)).
            apply (@firstProd_grows grammar _ _ (@first_keys_in grammar) Hin);
              auto. apply HP, Hps. now left.
          - apply (@firstProd_sound grammar (StdMap.keys grammar)
                     (firstUniverse grammar) (@first_keys_in grammar)
                     A prods p st); auto.
            + apply HP, Hps. now left.
            + apply Hps. now left. }
        apply Q; auto. apply incl_refl. }
    apply (G grammar (m, false)); auto. apply incl_refl. }
  revert m. induction fuel as [|fuel IH]; intros m Hk J E; [discriminate|].
  simpl in E.
  pose proof (@firstPass_grows grammar (StdMap.keys grammar)
                (firstUniverse grammar) (@first_keys_in grammar) Hin HW m Hk)
    as G.
  specialize (Pass m Hk J).
  destruct (firstPass grammar m) as [m' changed]. cbn [fst] in *.
  destruct changed.
  - apply (IH m'); auto. exact (grows_kept G).
  - now injection E as <-.
Qed.

Section FirstComplete.
Variable grammar : Grammar.
Variables K U : list string.
Hypothesis keys_in_K : forall t, StdMap.find t grammar <> None -> In t K.
Hypothesis epsilon_in_U : In EPSILON U.

Lemma firstScan_key_stable X token rest st flag ps :
  kept K U (fst st) -> In X K -> terminals_in grammar U rest ->
  (token =? EPSILON) = false -> StdMap.find token grammar = Some ps ->
  firstScan grammar X (token :: rest) st = (st, flag) ->
  addButEpsilon X (sets_get token (fst st)) st = st /\
  if StdSet.mem EPSILON (sets_get token (fst st))
  then firstScan grammar X rest st = (st, flag)
  else flag = false.
Proof.
  intros Hk HX HT Ee F E. cbn [firstScan] in E. rewrite Ee, F in E.
  assert (Ht : In token K) by (apply keys_in_K; congruence).
  rewrite (sets_index_bound token Hk Ht) in E.
  replace (fst st, snd st) with st in E by now destruct st.
  assert (HU : forall x, In x (sets_get token (fst st)) ->
                         x <> EPSILON -> In x U).
  { intros x Hx _. exact (kept_within Hk token x Hx). }
  pose proof (@addButEpsilon_grows K U X _ st Hk HX HU) as G.
  set (st1 := addButEpsilon X (sets_get token (fst st)) st) in *.
  pose proof (grows_kept G) as Hk1.
  rewrite (sets_index_bound token Hk1 Ht) in E.
  replace (fst st1, snd st1) with st1 in E by now destruct st1.
  assert (E1 : st1 = st).
  { destruct (StdSet.mem EPSILON (sets_get token (fst st1))).
    - apply (@grows_sandwich K U st st1 st); auto.
      pose proof (@firstScan_grows grammar K U keys_in_K epsilon_in_U
                    X rest st1 Hk1 HX HT) as G'.
      now rewrite E in G'.
    - now injection E as E _. }
  rewrite E1 in E. split; [exact E1|].
  destruct (StdSet.mem EPSILON (sets_get token (fst st))); [exact E|].
  now injection E as <-.
Qed.

Lemma firstProd_stable_scan X prod st :
  kept K U (fst st) -> In X K -> terminals_in grammar U (tokens_of prod) ->
  tokens_of prod <> [] -> firstProd grammar X prod st = st ->
  exists flag,
    firstScan grammar X (tokens_of prod) st = (st, flag) /\
    (flag = true -> In EPSILON (sets_get X (fst st))).
Proof.
  intros Hk HX HT Hne E. unfold firstProd in E.
  destruct (tokens_of prod) as [|t ts] eqn:T; [congruence|].
  pose proof (@firstScan_grows grammar K U keys_in_K epsilon_in_U
                X (t :: ts) st Hk HX HT) as G.
  destruct (firstScan grammar X (t :: ts) st) as [st1 addEpsilon] eqn:S.
  cbn [fst] in G.
  assert (E1 : st1 = st).
  { apply (@grows_sandwich K U st st1 st); auto. destruct addEpsilon.
    - rewrite <- E. apply add_grows; auto. exact (grows_kept G).
    - rewrite <- E. apply grows_refl. exact (grows_kept G). }
  subst st1. exists addEpsilon. split; [reflexivity|].
  intros ->. now apply add_stable.
Qed.

Lemma derives_complete st :
  kept K U (fst st) ->
  rules_within K (terminals_in grammar U) grammar ->
  (forall A prods prod, In (A, prods) grammar -> In prod prods ->
                        firstProd grammar A prod st = st) ->
  forall tokens x, derivesFirst grammar tokens x ->
  forall X flag, In X K -> terminals_in grammar U tokens ->
    firstScan grammar X tokens st = (st, flag) ->
    In x (sets_get X (fst st)) \/ (x = EPSILON /\ flag = true).
Proof.
  intros Hk HW S.
  assert (Prod : forall N prods prod x,
            In (N, prods) grammar -> In prod prods -> tokens_of prod <> [] ->
            (forall X flag, In X K ->
               terminals_in grammar U (tokens_of prod) ->
               firstScan grammar X (tokens_of prod) st = (st, flag) ->
               In x (sets_get X (fst st)) \/ (x = EPSILON /\ flag = true)) ->
            In x (sets_get N (fst st))).
  { intros N prods prod x HN Hp Hne IH.
    destruct (HW N prods HN) as [HK HP].
    destruct (@firstProd_stable_scan N prod st Hk HK (HP prod Hp) Hne
                (S N prods prod HN Hp)) as (f & F1 & F2).
    destruct (IH N f HK (HP prod Hp) F1) as [H|[-> ->]]; [exact H|].
    now apply F2. }
  induction 1 as [|rest|t rest Hne F|N rest prods prod x Hne HN Hp Hts D IH Hx
                  |N rest prods prod x Hne HN Hp Hts D1 IH1 D2 IH2];
    intros X flag HX HT E.
  - simpl in E. injection E as <-. now right.
  - cbn [firstScan] in E. rewrite String.eqb_refl in E.
    injection E as E _. left. now apply add_stable.
  - cbn [firstScan] in E. apply String.eqb_neq in Hne. rewrite Hne, F in E.
    injection E as E _. left. now apply add_stable.
  - assert (HT' : terminals_in grammar U rest).
    { intros t Ht. apply HT. now right. }
    apply String.eqb_neq in Hne.
    destruct (StdMap.find N grammar) as [ps|] eqn:F.
    2:{ exfalso. apply find_None_keys in F. apply F.
        unfold StdMap.keys. apply in_map_iff. now exists (N, prods). }
    destruct (@firstScan_key_stable X N rest st flag ps Hk HX HT' Hne F E)
      as [A1 _].
    left. apply (@addButEpsilon_stable K U X (sets_get N (fst st)) st); auto.
    + intros y Hy _. exact (kept_within Hk N y Hy).
    + now apply (Prod N prods prod x).
  - assert (HT' : terminals_in grammar U rest).
    { intros t Ht. apply HT. now right. }
    apply String.eqb_neq in Hne.
    destruct (StdMap.find N grammar) as [ps|] eqn:F.
    2:{ exfalso. apply find_None_keys in F. apply F.
        unfold StdMap.keys. apply in_map_iff. now exists (N, prods). }
    destruct (@firstScan_key_stable X N rest st flag ps Hk HX HT' Hne F E)
      as [_ A2].
    assert (M : StdSet.mem EPSILON (sets_get N (fst st)) = true).
    { apply mem_In. now apply (Prod N prods prod EPSILON). }
    rewrite M in A2. now apply IH2.
Qed.
End FirstComplete.

Lemma firstSet_exact (grammar : Grammar) :
  exists first,
    firstSet grammar = Returns first /\
    kept (StdMap.keys grammar) (firstUniverse grammar) first /\
    forall A x, In x (sets_get A first) <-> firstOf grammar A x.
Proof.
  destruct (firstSet_returns grammar) as (first & R & Hk & S).
  exists first. split; [exact R|]. split; [exact Hk|].
  assert (Hin : In EPSILON (firstUniverse grammar)) by now left.
  pose proof (@incl_terminals_universe grammar) as HU.
  pose proof (rules_within_grammar grammar HU) as HW.
  intros A x. split.
  - revert A x. apply (@firstLoop_sound grammar (firstFuel grammar)
                         (emptySets grammar) first).
    + apply kept_emptySets.
    + intros A x. now rewrite sets_get_emptySets.
    + exact R.
  - intros (prods & prod & HA & Hp & Hne & D).
    destruct (HW A prods HA) as [HK HP].
    assert (St : forall B q p, In (B, q) grammar -> In p q ->
                   firstProd grammar B p (first, false) = (first, false)).
    { intros B q p HB Hq. eapply firstPass_stable; eauto. }
    destruct (@firstProd_stable_scan grammar _ _ (@first_keys_in grammar) Hin
                A prod (first, false) Hk HK (HP prod Hp) Hne
                (St A prods prod HA Hp)) as (f & F1 & F2).
    destruct (@derives_complete grammar _ _ (@first_keys_in grammar) Hin
                (first, false) Hk HW St (tokens_of prod) x D A f HK
                (HP prod Hp) F1) as [H|[-> ->]]; [exact H|].
    now apply F2.
Qed.

(** X16.  The FIRST sets [firstSet] returns are exactly the sets the rules
    define, for every grammar: [x] is in the set of [A] if and only if some
    production of [A] with at least one token derives [x], where the literal
    epsilon token gives Epsilon, a token that is not a key gives itself, a
    key gives what it derives other than Epsilon and is passed over when it
    derives Epsilon, and a production passed to its end gives Epsilon. *)
Theorem first_sets_characterised (grammar : Grammar) :
  exists first,
    firstSet grammar = Returns first /\
    forall A x, In x (sets_get A first) <-> firstOf grammar A x.
Proof.
  destruct (firstSet_exact grammar) as (first & R & _ & H).
  exists first. split; [exact R | exact H].
Qed.

Lemma firstOfScan_incl tokens first grammar result r flag :
  firstOfScan tokens first grammar result = Some (r, flag) -> incl result r.
Proof.
  revert result. induction tokens as [|token rest IH]; intros result; simpl.
  - intros [= <- _]. apply incl_refl.
  - destruct (StdMap.find token grammar).
    + destruct (StdMap.find token first) as [firstToken|]; [|discriminate].
      assert (I : incl result
                    (fold_left
                       (fun r sym =>
                          if sym =? EPSILON then r else fst (StdSet.insert sym r))
                       firstToken result)).
      { intros x Hx. apply In_fold_insert_butEpsilon. now left. }
      destruct (StdSet.mem EPSILON firstToken).
      * intros E x Hx. apply (IH _ E). now apply I.
      * now intros [= <- _].
    + intros [= <- _] x Hx. apply In_insert. now right.
Qed.

Lemma firstOfScan_passed grammar first done result :
  passedBy grammar first done ->
  exists result',
    incl result result' /\
    forall rest,
      firstOfScan (done ++ rest) first grammar result =
      firstOfScan rest first grammar result'.
Proof.
  revert result. induction done as [|t done IH]; intros result P.
  - exists result. split; [apply incl_refl | reflexivity].
  - destruct (P t (or_introl eq_refl)) as (Hk & ft & F & He).
    destruct (IH (fold_left
                    (fun r sym =>
                       if sym =? EPSILON then r else fst (StdSet.insert sym r))
                    ft result)) as (result' & I & H).
    { intros u Hu. apply P. now right. }
    exists result'. split.
    + intros x Hx. apply I. apply In_fold_insert_butEpsilon. now left.
    + intros rest. simpl.
      destruct (StdMap.find t grammar); [|congruence].
      rewrite F. apply mem_In in He. rewrite He. apply H.
Qed.

Section FollowSound.
Variable grammar : Grammar.
Variable first : SetMap.
Variable startSymbol : string.
Variables K U : list string.
Hypothesis keys_in_K : forall t, StdMap.find t grammar <> None -> In t K.
Hypothesis first_total :
  forall t, StdMap.find t grammar <> None -> StdMap.find t first <> None.
Hypothesis first_within :
  forall t s x, StdMap.find t first = Some s -> In x s -> x <> EPSILON -> In x U.

Lemma followScan_sound A prods prod pre B done rest st st' flag :
  kept K U (fst st) -> In B K -> terminals_in grammar U rest ->
  In (A, prods) grammar -> In prod prods ->
  tokens_of prod = (pre ++ B :: done ++ rest)%list ->
  StdMap.find B grammar <> None ->
  passedBy grammar first done ->
  justified (followOf grammar first startSymbol) (fst st) ->
  followScan grammar first B rest st = Some (st', flag) ->
  justified (followOf grammar first startSymbol) (fst st') /\
  (flag = true -> passedBy grammar first (done ++ rest)).
Proof.
  intros Hk HB HT HA Hp E HBk. revert done st Hk HT E.
  induction rest as [|beta rest IH]; intros done st Hk HT E P J S.
  - simpl in S. injection S as <- <-. split; [exact J|].
    intros _. now rewrite app_nil_r.
  - assert (HT' : terminals_in grammar U rest).
    { intros t Ht. apply HT. now right. }
    destruct (firstOfScan_passed (@nil string) P) as (res & _ & Hres).
    assert (D : forall r f x,
               firstOfScan (beta :: rest) first grammar res = Some (r, f) ->
               In x r -> followOf grammar first startSymbol B x).
    { intros r f x Hr Hx. rewrite <- Hres in Hr.
      eapply follow_right; eauto. }
    cbn [followScan] in S. cbn [firstOfScan] in D.
    destruct (StdMap.find beta grammar) as [ps|] eqn:F.
    + destruct (StdMap.find beta first) as [firstBeta|] eqn:F1;
        [|discriminate].
      assert (HU : forall x, In x firstBeta -> x <> EPSILON -> In x U).
      { intros x Hx Hne. exact (first_within beta F1 Hx Hne). }
      pose proof (@addButEpsilon_grows K U B firstBeta st Hk HB HU) as G.
      assert (J1 : justified (followOf grammar first startSymbol)
                     (fst (addButEpsilon B firstBeta st))).
      { apply justified_addButEpsilon; [exact J|]. intros x Hx Hne.
        assert (Hx1 : In x (fold_left
                       (fun r sym =>
                          if sym =? EPSILON then r else fst (StdSet.insert sym r))
                       firstBeta res)).
        { apply In_fold_insert_butEpsilon. right. now split. }
        destruct (StdSet.mem EPSILON firstBeta).
        - destruct (firstOfScan rest first grammar
                      (fold_left
                         (fun r sym =>
                            if sym =? EPSILON then r
                            else fst (StdSet.insert sym r))
                         firstBeta res)) as [[r f]|] eqn:R.
          + apply (D r f x eq_refl). now apply (firstOfScan_incl _ _ _ _ R).
          + now elim (firstOfScan_total grammar first first_total rest _ R).
        - now apply (D _ false x eq_refl). }
      destruct (StdSet.mem EPSILON firstBeta) eqn:M.
      * assert (P' : passedBy grammar first (done ++ [beta])).
        { intros t Ht. apply in_app_or in Ht.
          destruct Ht as [Ht|[<-|[]]]; [now apply P|].
          split; [congruence|]. exists firstBeta. split; [exact F1|].
          now apply mem_In. }
        destruct (IH (done ++ [beta])%list _ (grows_kept G) HT') as [I1 I2];
          auto.
        { now rewrite <- app_assoc. }
        split; [exact I1|]. rewrite <- app_assoc in I2. exact I2.
      * injection S as <- <-. split; [exact J1 | discriminate].
    + injection S as <- <-. split; [|discriminate].
      apply justified_add; [exact J|].
      apply (D _ false beta eq_refl). apply In_insert. now left.
Qed.

Lemma followTokens_sound A prods prod pre tokens st st' :
  kept K U (fst st) -> In A K -> right_terminals_in grammar U tokens ->
  In (A, prods) grammar -> In prod prods ->
  tokens_of prod = (pre ++ tokens)%list ->
  justified (followOf grammar first startSymbol) (fst st) ->
  followTokens grammar first A tokens st = Some st' ->
  justified (followOf grammar first startSymbol) (fst st').
Proof.
  intros Hk HA Htok HAg Hp. revert pre st Hk Htok.
  induction tokens as [|B rest IH]; intros pre st Hk Htok E J S.
  - simpl in S. now injection S as <-.
  - unfold right_terminals_in in Htok. cbn [rightOfKey followTokens] in *.
    assert (E' : tokens_of prod = ((pre ++ [B]) ++ rest)%list)
      by now rewrite <- app_assoc.
    destruct (StdMap.find B grammar) as [ps|] eqn:F.
    + assert (Hrest : right_terminals_in grammar U rest).
      { intros y Hy. apply Htok. now apply In_rightOfKey in Hy. }
      assert (HB : In B K) by (apply keys_in_K; congruence).
      destruct (@followScan_grows grammar first K U first_total
                  first_within B rest st Hk HB Htok) as (st1 & b & E1 & G).
      rewrite E1 in S.
      destruct (@followScan_sound A prods prod pre B [] rest st st1 b)
        as [J1 P1]; auto; try congruence.
      { intros ? []. }
      set (st2 := if b then let '(src, m1) := sets_index A (fst st1) in
                             addAll B src (m1, snd st1) else st1) in *.
      assert (G2 : grows K U st1 st2 /\
                   justified (followOf grammar first startSymbol) (fst st2)).
      { subst st2. destruct b; [|split; [apply grows_refl; apply (grows_kept G)
                                        | exact J1]].
        rewrite (sets_index_bound A (grows_kept G) HA).
        rewrite <- surjective_pairing. split.
        - apply addAll_grows; [apply (grows_kept G) | exact HB |].
          apply (kept_within (grows_kept G)).
        - apply justified_addAll; [exact J1|]. intros x Hx.
          destruct (firstOfScan_passed (@nil string) (P1 eq_refl))
            as (res & _ & Hres).
          specialize (Hres []). rewrite app_nil_r in Hres. simpl in Hres.
          eapply follow_end; eauto; try congruence. }
      destruct G2 as [G2 J2].
      apply (IH (pre ++ [B])%list st2 (grows_kept G2) Hrest E' J2 S).
    + apply (IH (pre ++ [B])%list st Hk Htok E' J S).
Qed.

Lemma followProds_sound A prods ps st st' :
  kept K U (fst st) -> In A K ->
  (forall prod, In prod prods -> right_terminals_in grammar U (tokens_of prod)) ->
  In (A, prods) grammar -> incl ps prods ->
  justified (followOf grammar first startSymbol) (fst st) ->
  followProds grammar first A ps st = Some st' ->
  justified (followOf grammar first startSymbol) (fst st').
Proof.
  intros Hk HA HP HAg. revert st Hk.
  induction ps as [|p ps IHp]; intros st Hk Hps J S.
  - simpl in S. now injection S as <-.
  - cbn [followProds] in S.
    assert (Hp : In p prods) by (apply Hps; now left).
    destruct (@followTokens_grows grammar first K U keys_in_K first_total
                first_within A (tokens_of p) st Hk HA (HP p Hp))
      as (st1 & E1 & G).
    rewrite E1 in S. apply (IHp st1); auto.
    + exact (grows_kept G).
    + intros x Hx. apply Hps. now right.
    + apply (@followTokens_sound A prods p [] (tokens_of p) st st1); auto.
Qed.

Lemma followRules_sound rules st st' :
  kept K U (fst st) -> rules_within K (right_terminals_in grammar U) rules ->
  incl rules grammar ->
  justified (followOf grammar first startSymbol) (fst st) ->
  followRules grammar first rules st = Some st' ->
  justified (followOf grammar first startSymbol) (fst st').
Proof.
  revert st. induction rules as [|[A prods] rules IH]; intros st Hk Hr Hi J S.
  - simpl in S. now injection S as <-.
  - cbn [followRules] in S.
    destruct (Hr A prods (or_introl eq_refl)) as [HA HP].
    destruct (@followProds_grows grammar first K U keys_in_K first_total
                first_within A prods st Hk HA HP) as (st1 & E1 & G).
    rewrite E1 in S.
    assert (J1 : justified (followOf grammar first startSymbol) (fst st1)).
    { apply (@followProds_sound A prods prods st st1); auto.
      - apply Hi. now left.
      - apply incl_refl. }
    apply (IH st1); auto.
    + exact (grows_kept G).
    + intros B q Hq. apply Hr. now right.
    + intros x Hx. apply Hi. now right.
Qed.
End FollowSound.

Lemma followLoop_sound (grammar : Grammar) first startSymbol U fuel m r :
  (forall t, StdMap.find t grammar <> None -> StdMap.find t first <> None) ->
  (forall t s x, StdMap.find t first = Some s -> In x s -> x <> EPSILON ->
                 In x U) ->
  rules_within (startSymbol :: StdMap.keys grammar)
    (right_terminals_in grammar U) grammar ->
  kept (startSymbol :: StdMap.keys grammar) U m ->
  justified (followOf grammar first startSymbol) m ->
  followLoop fuel grammar first m = Returns r ->
  justified (followOf grammar first startSymbol) r.
Proof.
  intros Htotal Hw HU.
  assert (HK : forall t, StdMap.find t grammar <> None ->
                         In t (startSymbol :: StdMap.keys grammar)).
  { intros t Ht. right. now apply find_keys. }
  revert m. induction fuel as [|fuel IH]; intros m Hk J E; [discriminate|].
  simpl in E. unfold followPass in E.
  destruct (@followRules_grows grammar first _ U HK Htotal Hw grammar
              (m, false) Hk HU) as ([m' changed] & E1 & G).
  rewrite E1 in E.
  assert (J' : justified (followOf grammar first startSymbol) m').
  { apply (@followRules_sound grammar first startSymbol _ U HK Htotal Hw
             grammar (m, false) (m', changed)); auto. apply incl_refl. }
  destruct changed.
  - apply (IH m'); auto. exact (grows_kept G).
  - now injection E as <-.
Qed.

Lemma followSets_exact (grammar : Grammar) (first : SetMap)
  (startSymbol : string) :
  (forall t, StdMap.find t grammar <> None -> StdMap.find t first <> None) ->
  exists follow,
    computeFollowSets grammar first startSymbol = Returns follow /\
    forall B x,
      In x (sets_get B follow) <-> followOf grammar first startSymbol B x.
Proof.
  intros Htotal.
  set (U := ENDMARK :: (grammarTokens grammar ++ members first)%list).
  assert (Hw : forall t s x, StdMap.find t first = Some s -> In x s ->
                             x <> EPSILON -> In x U).
  { intros t s x F Hx _. right. apply in_or_app. right.
    eapply In_members; eassumption. }
  assert (Hg : incl (grammarTokens grammar) U).
  { intros t Ht. right. apply in_or_app. now left. }
  assert (HU : rules_within (StdMap.keys grammar)
                 (right_terminals_in grammar U) grammar).
  { apply rules_right_within_terminals. intros t Ht. apply Hg.
    now apply incl_terminals. }
  pose proof (rules_within_cons startSymbol HU) as HU'.
  destruct (@followSets_returns_within grammar first startSymbol U)
    as (follow & Ho & Hk & Hsub & Hst); try assumption.
  - now left.
  - unfold U. simpl. rewrite length_app. lia.
  - exists follow. split; [exact Ho|]. intros B x. split.
    + revert B x.
      apply (@followLoop_sound grammar first startSymbol U
               (followFuel grammar first)
               (followInit grammar startSymbol) follow); auto.
      * now apply kept_followInit; left.
      * intros B x. rewrite followInit_spec.
        destruct (B =? startSymbol) eqn:E; [|intros []].
        apply String.eqb_eq in E. subst B. intros [<-|[]]. constructor.
    + induction 1 as [|A prods prod pre B rest r f x HA Hp HT HB R Hx
                      |A prods prod pre B rest r x HA Hp HT HB R D IH].
      * apply Hsub. rewrite followInit_spec, String.eqb_refl. now left.
      * destruct (@follow_closed_at grammar first startSymbol U follow
                    Htotal Hw Hg HU' Hk Hst A prods prod pre B rest
                    HA Hp HT HB) as (r' & f' & R' & I1 & _).
        rewrite R in R'. injection R' as <- <-. now apply I1.
      * destruct (@follow_closed_at grammar first startSymbol U follow
                    Htotal Hw Hg HU' Hk Hst A prods prod pre B rest
                    HA Hp HT HB) as (r' & f' & R' & _ & I2).
        rewrite R in R'. injection R' as <- <-. now apply I2.
Qed.

(** X17.  The FOLLOW sets [computeFollowSets] returns, for any FIRST map
    that binds the keys of the grammar, are exactly the sets the rules
    define: the end marker for the start symbol; for an occurrence of a key
    [B] in a production of [A], what [firstOfScan] collects from the tokens
    to the right of [B]; and the members of FOLLOW([A]) when that scan passes
    every token to the right of [B]. *)
Theorem follow_sets_characterised (grammar : Grammar) (first : SetMap)
  (startSymbol : string) :
  (forall t, StdMap.find t grammar <> None -> StdMap.find t first <> None) ->
  exists follow,
    computeFollowSets grammar first startSymbol = Returns follow /\
    forall B x,
      In x (sets_get B follow) <-> followOf grammar first startSymbol B x.
Proof.
  intros Htotal.
  destruct (@followSets_exact grammar first startSymbol Htotal)
    as (follow & R & H).
  exists follow. split; [exact R | exact H].
Qed.

Lemma follow_sets_characterised_witness :
  (forall t, StdMap.find t scenarioFinal <> None ->
             StdMap.find t scenarioFirst <> None) /\
  exists follow,
    computeFollowSets scenarioFinal scenarioFirst "S" = Returns follow /\
    forall B x,
      In x (sets_get B follow) <-> followOf scenarioFinal scenarioFirst "S" B x.
Proof.
  split; [exact scenario_first_total|].
  exact (@follow_sets_characterised scenarioFinal scenarioFirst "S"
           scenario_first_total).
Defined.

(** * What the cells of the table mean *)

Lemma In_find (V : Type) k (v : V) m : In (k, v) m -> StdMap.find k m <> None.
Proof.
  intros H. apply find_keys. unfold StdMap.keys. apply in_map_iff.
  now exists (k, v).
Qed.

Lemma derivesFirst_nil grammar x :
  derivesFirst grammar [] x <-> x = EPSILON.
Proof. split; [now inversion 1 | intros ->; constructor]. Qed.

Lemma derivesFirst_terminal grammar t rest x :
  StdMap.find t grammar = None ->
  (derivesFirst grammar (t :: rest) x <-> x = t).
Proof.
  intros F. split.
  - inversion 1; subst; try reflexivity;
      match goal with H : In (t, _) grammar |- _ =>
        now elim (In_find _ _ _ H) end.
  - intros ->. destruct (String.eqb_spec t EPSILON) as [->|N];
      now constructor.
Qed.

Lemma derivesFirst_key grammar N rest x :
  N <> EPSILON -> StdMap.find N grammar <> None ->
  (derivesFirst grammar (N :: rest) x <->
   (firstOf grammar N x /\ x <> EPSILON) \/
   (firstOf grammar N EPSILON /\ derivesFirst grammar rest x)).
Proof.
  intros Hne F. split.
  - inversion 1; subst; try congruence.
    + left. split; [|assumption]. now exists prods, prod.
    + right. split; [|assumption]. now exists prods, prod.
  - intros [[(prods & prod & H1 & H2 & H3 & H4) Hx]
           |[(prods & prod & H1 & H2 & H3 & H4) D]].
    + eapply first_head; eauto.
    + eapply first_skip; eauto.
Qed.

Lemma firstOfScan_derives (grammar : Grammar) (first : SetMap) :
  StdMap.find EPSILON grammar = None ->
  (forall A x, In x (sets_get A first) <-> firstOf grammar A x) ->
  forall tokens result r flag,
    firstOfScan tokens first grammar result = Some (r, flag) ->
    forall x,
      In x r \/ (flag = true /\ x = EPSILON) <->
      In x result \/ derivesFirst grammar tokens x.
Proof.
  intros He Hx. induction tokens as [|token rest IH]; intros result r flag E x.
  - simpl in E. injection E as <- <-. rewrite derivesFirst_nil. intuition.
  - cbn [firstOfScan] in E.
    destruct (StdMap.find token grammar) as [ps|] eqn:F.
    + assert (Hne : token <> EPSILON) by congruence.
      assert (Hk : StdMap.find token grammar <> None) by congruence.
      rewrite (@derivesFirst_key grammar token rest x Hne Hk).
      destruct (StdMap.find token first) as [firstToken|] eqn:F1;
        [|discriminate].
      pose proof (get_of_find _ _ F1) as G.
      assert (HT : forall y, In y firstToken <-> firstOf grammar token y).
      { intros y. rewrite <- G. apply Hx. }
      destruct (StdSet.mem EPSILON firstToken) eqn:M.
      * rewrite (IH _ _ _ E x), In_fold_insert_butEpsilon.
        apply mem_In in M. apply HT in M. rewrite HT. tauto.
      * injection E as <- <-. rewrite In_fold_insert_butEpsilon.
        apply mem_false in M. rewrite HT in M. rewrite HT.
        split; [|tauto]. intros [H|[H _]]; [tauto | discriminate].
    + injection E as <- <-. rewrite (@derivesFirst_terminal grammar token rest x F).
      rewrite In_insert. split; [|tauto].
      intros [H|[H _]]; [tauto | discriminate].
Qed.

Lemma computeFirstOfString_derives (grammar : Grammar) :
  StdMap.find EPSILON grammar = None ->
  exists first,
    firstSet grammar = Returns first /\
    kept (StdMap.keys grammar) (firstUniverse grammar) first /\
    forall tokens,
      exists firstAlpha,
        computeFirstOfString tokens first grammar = Some firstAlpha /\
        forall x, In x firstAlpha <-> derivesFirst grammar tokens x.
Proof.
  intros He. destruct (firstSet_exact grammar) as (first & R & Hk & Hx).
  exists first. split; [exact R|]. split; [exact Hk|]. intros tokens.
  assert (Htotal : forall t, StdMap.find t grammar <> None ->
                             StdMap.find t first <> None).
  { intros t Ht. apply (kept_keys Hk). now apply find_keys. }
  unfold computeFirstOfString.
  destruct (firstOfScan tokens first grammar []) as [[r flag]|] eqn:E.
  2:{ now elim (@firstOfScan_total grammar first Htotal tokens [] E). }
  eexists. split; [reflexivity|]. intros x.
  pose proof (@firstOfScan_derives grammar first He Hx tokens [] r flag E x)
    as D.
  assert (D' : In x r \/ (flag = true /\ x = EPSILON) <->
               derivesFirst grammar tokens x).
  { rewrite D. split; [intros [[]|H]; exact H | now right]. }
  rewrite <- D'. destruct flag.
  - rewrite In_insert. intuition.
  - split; [tauto|]. intros [H|[H _]]; [exact H | discriminate].
Qed.

(** X18.  Under the FIRST map [firstSet] returns for a grammar in which the
    epsilon token is not a key, [computeFirstOfString] gives, for every token
    sequence, exactly the symbols the sequence derives by the rules of
    FIRST: the set from which the table is filled is FIRST of the
    production. *)
Theorem first_of_string_characterised (grammar : Grammar) :
  StdMap.find EPSILON grammar = None ->
  exists first,
    firstSet grammar = Returns first /\
    forall tokens,
      exists firstAlpha,
        computeFirstOfString tokens first grammar = Some firstAlpha /\
        forall x, In x firstAlpha <-> derivesFirst grammar tokens x.
Proof.
  intros He.
  destruct (computeFirstOfString_derives grammar He) as (first & R & _ & H).
  exists first. split; [exact R | exact H].
Qed.

Lemma first_of_string_characterised_witness :
  StdMap.find EPSILON epsilonGrammar = None /\
  exists first,
    firstSet epsilonGrammar = Returns first /\
    forall tokens,
      exists firstAlpha,
        computeFirstOfString tokens first epsilonGrammar = Some firstAlpha /\
        forall x, In x firstAlpha <-> derivesFirst epsilonGrammar tokens x.
Proof.
  split; [reflexivity|].
  exact (@first_of_string_characterised epsilonGrammar eq_refl).
Defined.

Lemma in_split_last (x : string) l :
  In x l -> exists before after, l = (before ++ x :: after)%list /\ ~ In x after.
Proof.
  induction l as [|y l IH]; intros H; [destruct H|].
  destruct (in_dec string_dec x l) as [Hin|Hn].
  - destruct (IH Hin) as (b & a & -> & Ha). now exists (y :: b), a.
  - destruct H as [->|H]; [|contradiction]. now exists [], l.
Qed.

Lemma parsingTable_selects (grammar : Grammar) (startSymbol : string) :
  NoDup (StdMap.keys grammar) ->
  StdMap.find EPSILON grammar = None ->
  exists first follow tb,
    firstSet grammar = Returns first /\
    computeFollowSets grammar first startSymbol = Returns follow /\
    parsingTable grammar first follow = Some tb /\
    (forall A prods t p,
        StdMap.find A grammar = Some prods ->
        (cell tb A t = Some p <->
         exists before after,
           prods = (before ++ p :: after)%list /\
           selects grammar first startSymbol A p t /\
           forall q, In q after -> ~ selects grammar first startSymbol A q t)) /\
    (forall A prods t p,
        StdMap.find A grammar = Some prods ->
        (forall q q', In q prods -> In q' prods ->
           selects grammar first startSymbol A q t ->
           selects grammar first startSymbol A q' t -> q = q') ->
        (cell tb A t = Some p <->
         In p prods /\ selects grammar first startSymbol A p t)) /\
    (forall A t, StdMap.find A grammar = None -> cell tb A t = None).
Proof.
  intros ND He.
  destruct (computeFirstOfString_derives grammar He) as (first & R & Hk & HF).
  assert (Htotal : forall t, StdMap.find t grammar <> None ->
                             StdMap.find t first <> None).
  { intros t Ht. apply (kept_keys Hk). now apply find_keys. }
  destruct (@followSets_exact grammar first startSymbol Htotal)
    as (follow & Ro & HO).
  destruct (parsingTable grammar first follow) as [tb|] eqn:E.
  2:{ exfalso. revert E. apply tableRules_total. exact Htotal. }
  exists first, follow, tb. repeat (split; [reflexivity || assumption|]).
  assert (S : forall A p t,
             claimsb grammar first follow A p t = true <->
             selects grammar first startSymbol A p t).
  { intros A p t. rewrite claimsb_spec. unfold claims, selects.
    destruct (HF (tokens_of p)) as (fa & F1 & F2). split.
    - intros (fa' & F1' & H). rewrite F1 in F1'. injection F1' as <-.
      rewrite <- !F2, <- HO. exact H.
    - intros H. exists fa. split; [exact F1|].
      rewrite <- !F2, <- HO in H. exact H. }
  assert (S' : forall A p t,
             claimsb grammar first follow A p t = false <->
             ~ selects grammar first startSymbol A p t).
  { intros A p t. rewrite <- S.
    destruct (claimsb grammar first follow A p t); split; congruence. }
  assert (C : forall A t,
             cell tb A t =
             match StdMap.find A grammar with
             | Some prods => winner grammar first follow A prods t None
             | None => None
             end).
  { intros A t. unfold parsingTable in E.
    rewrite (cell_tableRules grammar first follow grammar [] A t ND E).
    reflexivity. }
  assert (Cells : forall A prods t p,
             StdMap.find A grammar = Some prods ->
             (cell tb A t = Some p <->
              exists before after,
                prods = (before ++ p :: after)%list /\
                selects grammar first startSymbol A p t /\
                forall q, In q after ->
                          ~ selects grammar first startSymbol A q t)).
  { intros A prods t p F. rewrite C, F, winner_Some. split.
    - intros [(b & a & -> & Hc & L)|[[=] _]].
      exists b, a. split; [reflexivity|]. split; [now apply S|].
      intros q Hq. apply S'. now apply L.
    - intros (b & a & -> & Hc & L). left. exists b, a.
      split; [reflexivity|]. split; [now apply S|].
      intros q Hq. apply S'. now apply L. }
  split; [exact Cells|]. split.
  - intros A prods t p F U. rewrite (Cells A prods t p F). split.
    + intros (b & a & -> & Hs & _). split; [|exact Hs].
      apply in_or_app. right. now left.
    + intros [Hp Hs]. destruct (in_split_last p prods Hp) as (b & a & -> & Hn).
      exists b, a. split; [reflexivity|]. split; [exact Hs|].
      intros q Hq Hsq. apply Hn.
      assert (Eq : q = p); [|now subst].
      apply U.
      * apply in_or_app. right. now right.
      * apply in_or_app. right. now left.
      * exact Hsq.
      * exact Hs.
  - intros A t F. now rewrite C, F.
Qed.

(** X19.  The table built from the FIRST and FOLLOW sets of a grammar
    (distinct keys, the epsilon token not a key): the cell of [A] and [t]
    holds the last production [p] of [A] chosen on [t], that is with [t]
    other than Epsilon in FIRST([p]), or with Epsilon in FIRST([p]) and [t] in
    FOLLOW([A]); when at most one production of [A] is chosen on [t] the cell
    holds that production; and there is no cell outside the rows of the
    keys. *)
Theorem table_characterised (grammar : Grammar) (startSymbol : string) :
  NoDup (StdMap.keys grammar) ->
  StdMap.find EPSILON grammar = None ->
  exists first follow tb,
    firstSet grammar = Returns first /\
    computeFollowSets grammar first startSymbol = Returns follow /\
    parsingTable grammar first follow = Some tb /\
    (forall A prods t p,
        StdMap.find A grammar = Some prods ->
        (cell tb A t = Some p <->
         exists before after,
           prods = (before ++ p :: after)%list /\
           selects grammar first startSymbol A p t /\
           forall q, In q after -> ~ selects grammar first startSymbol A q t)) /\
    (forall A prods t p,
        StdMap.find A grammar = Some prods ->
        (forall q q', In q prods -> In q' prods ->
           selects grammar first startSymbol A q t ->
           selects grammar first startSymbol A q' t -> q = q') ->
        (cell tb A t = Some p <->
         In p prods /\ selects grammar first startSymbol A p t)) /\
    (forall A t, StdMap.find A grammar = None -> cell tb A t = None).
Proof.
  intros ND He.
  destruct (@parsingTable_selects grammar startSymbol ND He)
    as (first & follow & tb & H).
  exists first, follow, tb. exact H.
Qed.

Lemma table_characterised_witness :
  (NoDup (StdMap.keys scenarioFinal) /\
   StdMap.find EPSILON scenarioFinal = None) /\
  exists first follow tb,
    firstSet scenarioFinal = Returns first /\
    computeFollowSets scenarioFinal first "S" = Returns follow /\
    parsingTable scenarioFinal first follow = Some tb /\
    (forall A prods t p,
        StdMap.find A scenarioFinal = Some prods ->
        (cell tb A t = Some p <->
         exists before after,
           prods = (before ++ p :: after)%list /\
           selects scenarioFinal first "S" A p t /\
           forall q, In q after -> ~ selects scenarioFinal first "S" A q t)).
Proof.
  split; [split; [exact scenario_keys_NoDup | reflexivity]|].
  destruct (@table_characterised scenarioFinal "S" scenario_keys_NoDup eq_refl)
    as (first & follow & tb & H1 & H2 & H3 & H4 & _).
  exists first, follow, tb. repeat split; auto; now apply H4.
Defined.




(** * The table, from FIRST of each production *)

Lemma firstOfScan_spec (grammar : Grammar) (first : SetMap) :
  StdMap.find EPSILON grammar = None ->
  forall tokens result r flag,
    firstOfScan tokens first grammar result = Some (r, flag) ->
    forall x,
      In x r \/ (flag = true /\ x = EPSILON) <->
      In x result \/ specFirstOfString grammar first tokens x.
Proof.
  intros He. induction tokens as [|token rest IH]; intros result r flag E x.
  - simpl in E. injection E as <- <-. rewrite specFirstOfString_nil. intuition.
  - cbn [firstOfScan] in E.
    destruct (StdMap.find token grammar) as [ps|] eqn:F.
    + assert (Hne : token <> EPSILON) by congruence.
      assert (Hk : StdMap.find token grammar <> None) by congruence.
      rewrite (@specFirstOfString_key grammar first token rest x Hne Hk).
      destruct (StdMap.find token first) as [firstToken|] eqn:F1;
        [|discriminate].
      rewrite (get_of_find _ _ F1).
      destruct (StdSet.mem EPSILON firstToken) eqn:M.
      * rewrite (IH _ _ _ E x), In_fold_insert_butEpsilon.
        apply mem_In in M. tauto.
      * injection E as <- <-. rewrite In_fold_insert_butEpsilon.
        apply mem_false in M.
        split; [|tauto]. intros [H|[H _]]; [tauto | discriminate].
    + injection E as <- <-.
      rewrite (@specFirstOfString_terminal grammar first token rest x F).
      rewrite In_insert. split; [|tauto].
      intros [H|[H _]]; [tauto | discriminate].
Qed.

Lemma computeFirstOfString_spec (grammar : Grammar) (first : SetMap) :
  (forall t, StdMap.find t grammar <> None -> StdMap.find t first <> None) ->
  StdMap.find EPSILON grammar = None ->
  forall tokens,
    exists firstAlpha,
      computeFirstOfString tokens first grammar = Some firstAlpha /\
      forall x, In x firstAlpha <-> specFirstOfString grammar first tokens x.
Proof.
  intros Htotal He tokens. unfold computeFirstOfString.
  destruct (firstOfScan tokens first grammar []) as [[r flag]|] eqn:E.
  2:{ now elim (@firstOfScan_total grammar first Htotal tokens [] E). }
  eexists. split; [reflexivity|]. intros x.
  pose proof (@firstOfScan_spec grammar first He tokens [] r flag E x) as D.
  assert (D' : In x r \/ (flag = true /\ x = EPSILON) <->
               specFirstOfString grammar first tokens x).
  { rewrite D. split; [intros [[]|H]; exact H | now right]. }
  rewrite <- D'. destruct flag.
  - rewrite In_insert. intuition.
  - split; [tauto|]. intros [H|[H _]]; [exact H | discriminate].
Qed.

Lemma claims_specClaims (grammar : Grammar) (first follow : SetMap) :
  (forall t, StdMap.find t grammar <> None -> StdMap.find t first <> None) ->
  StdMap.find EPSILON grammar = None ->
  forall A p t,
    claims grammar first follow A p t <-> specClaims grammar first follow A p t.
Proof.
  intros Htotal He A p t.
  destruct (@computeFirstOfString_spec grammar first Htotal He (tokens_of p))
    as (fa & E & H).
  unfold claims, specClaims. rewrite <- !H. split.
  - intros (fa' & E' & C). rewrite E in E'. injection E' as <-. exact C.
  - intros C. exists fa. split; [exact E | exact C].
Qed.

(** X26.  For a grammar with distinct keys in which the epsilon token is
    not a key, and a FIRST map that binds every key: the set
    [computeFirstOfString] returns for a production is FIRST of the
    production as the specification words it; the table builder returns a
    table; processing production [p] of [A] sets [table[A][t] = p] for every
    [t] in FIRST([p]) other than Epsilon and, when Epsilon is in FIRST([p]),
    for every [t] in FOLLOW([A]), whatever the cell held before, and touches
    no other cell; in the table returned the cell [(A, t)] holds the last
    production of [A] with a claim on [t], and is absent when no production
    of [A] has one. *)
Theorem table_last_claim_wins (grammar : Grammar) (first follow : SetMap) :
  NoDup (StdMap.keys grammar) ->
  (forall t, StdMap.find t grammar <> None -> StdMap.find t first <> None) ->
  StdMap.find EPSILON grammar = None ->
  exists tb,
    parsingTable grammar first follow = Some tb /\
    (forall p, exists firstAlpha,
        computeFirstOfString (tokens_of p) first grammar = Some firstAlpha /\
        forall x,
          In x firstAlpha <-> specFirstOfString grammar first (tokens_of p) x) /\
    (forall A p tb0, exists tb1,
        tableProd grammar first follow A p tb0 = Some tb1 /\
        forall A' t,
          (A' = A /\ specClaims grammar first follow A p t ->
           cell tb1 A' t = Some p) /\
          (~ (A' = A /\ specClaims grammar first follow A p t) ->
           cell tb1 A' t = cell tb0 A' t)) /\
    (forall A prods t p,
        StdMap.find A grammar = Some prods ->
        (cell tb A t = Some p <->
         exists before after,
           prods = (before ++ p :: after)%list /\
           specClaims grammar first follow A p t /\
           forall q, In q after -> ~ specClaims grammar first follow A q t)) /\
    (forall A prods t,
        StdMap.find A grammar = Some prods ->
        (cell tb A t = None <->
         forall q, In q prods -> ~ specClaims grammar first follow A q t)) /\
    (forall A t, StdMap.find A grammar = None -> cell tb A t = None).
Proof.
  intros ND Htotal He.
  pose proof (@claims_specClaims grammar first follow Htotal He) as CS.
  destruct (parsingTable grammar first follow) as [tb|] eqn:E.
  2:{ exfalso. revert E. apply tableRules_total. exact Htotal. }
  exists tb. split; [reflexivity|].
  assert (C : forall A t,
             cell tb A t =
             match StdMap.find A grammar with
             | Some prods => winner grammar first follow A prods t None
             | None => None
             end).
  { intros A t. unfold parsingTable in E.
    rewrite (cell_tableRules grammar first follow grammar [] A t ND E).
    reflexivity. }
  split; [|split; [|split; [|split]]].
  - intros p. apply computeFirstOfString_spec; assumption.
  - intros A p tb0.
    destruct (tableProd grammar first follow A p tb0) as [tb1|] eqn:E1.
    2:{ exfalso. revert E1. unfold tableProd.
        pose proof (computeFirstOfString_total grammar first Htotal (tokens_of p)).
        destruct (computeFirstOfString (tokens_of p) first grammar); congruence. }
    exists tb1. split; [reflexivity|]. intros A' t.
    rewrite (cell_tableProd grammar first follow A p tb0 A' t E1).
    rewrite <- CS. split.
    + intros [-> Hc]. apply claimsb_spec in Hc. now rewrite String.eqb_refl, Hc.
    + intros Hn. destruct (A' =? A) eqn:EA; [|reflexivity].
      destruct (claimsb grammar first follow A p t) eqn:Cb; [|reflexivity].
      exfalso. apply Hn. split; [now apply String.eqb_eq | now apply claimsb_spec].
  - intros A prods t p F. rewrite C, F, winner_Some. split.
    + intros [(b & a & -> & Hc & L)|[[=] _]].
      exists b, a. split; [reflexivity|].
      split; [now apply CS, claimsb_spec|].
      intros q Hq. rewrite <- CS. apply not_claims_iff. now apply L.
    + intros (b & a & -> & Hc & L). left. exists b, a.
      split; [reflexivity|]. split; [now apply claimsb_spec, CS|].
      intros q Hq. apply not_claims_iff. rewrite CS. now apply L.
  - intros A prods t F. rewrite C, F, winner_None. split.
    + intros H q Hq. rewrite <- CS. apply not_claims_iff. now apply H.
    + intros H q Hq. apply not_claims_iff. rewrite CS. now apply H.
  - intros A t F. now rewrite C, F.
Qed.

Lemma conflict_keys_NoDup : NoDup (StdMap.keys conflictGrammar).
Proof. repeat constructor; simpl; intuition discriminate. Qed.

Lemma conflict_first_total :
  forall t, StdMap.find t conflictGrammar <> None ->
            StdMap.find t conflictFirst <> None.
Proof.
  intros t. simpl. destruct (t =? "S"); [discriminate | tauto].
Qed.

Lemma table_last_claim_wins_witness :
  (NoDup (StdMap.keys conflictGrammar) /\
   (forall t, StdMap.find t conflictGrammar <> None ->
              StdMap.find t conflictFirst <> None) /\
   StdMap.find EPSILON conflictGrammar = None) /\
  exists tb,
    parsingTable conflictGrammar conflictFirst conflictFollow = Some tb /\
    cell tb "S" "a" = Some "a" /\
    cell tb "S" ENDMARK = Some "ε" /\
    cell tb "S" "b" = None.
Proof.
  split.
  - split; [exact conflict_keys_NoDup|].
    split; [exact conflict_first_total | reflexivity].
  - destruct (@table_last_claim_wins conflictGrammar conflictFirst
                conflictFollow conflict_keys_NoDup conflict_first_total
                eq_refl)
      as (tb & E & _ & _ & Hsome & Hnone & _).
    exists tb. split; [exact E|].
    assert (Fa : forall x,
               specFirstOfString conflictGrammar conflictFirst ["a"] x <->
               x = "a").
    { intros x. now apply specFirstOfString_terminal. }
    assert (FaS : forall x,
               specFirstOfString conflictGrammar conflictFirst ["a"; "S"] x <->
               x = "a").
    { intros x. now apply specFirstOfString_terminal. }
    assert (Fe : forall x,
               specFirstOfString conflictGrammar conflictFirst [EPSILON] x <->
               x = EPSILON).
    { intros x. apply specFirstOfString_epsilon. }
    split; [|split].
    + apply (Hsome "S" ["a S"; "a"; "ε"] "a" "a" eq_refl).
      exists ["a S"], ["ε"]. split; [reflexivity|]. split.
      * left. split; [now apply Fa | discriminate].
      * intros q [<-|[]] [[H _]|[_ [H|[]]]].
        -- apply Fe in H. discriminate.
        -- discriminate.
    + apply (Hsome "S" ["a S"; "a"; "ε"] ENDMARK "ε" eq_refl).
      exists ["a S"; "a"], []. split; [reflexivity|]. split.
      * right. split; [now apply Fe | now left].
      * intros q [].
    + apply (Hnone "S" ["a S"; "a"; "ε"] "b" eq_refl).
      intros q [<-|[<-|[<-|[]]]] [[H _]|[H1 H2]].
      * apply FaS in H. discriminate.
      * apply FaS in H1. discriminate.
      * apply Fa in H. discriminate.
      * apply Fa in H1. discriminate.
      * apply Fe in H. discriminate.
      * destruct H2 as [H2|[]]. discriminate.
Defined.

(** X27.  In a grammar (distinct keys, the epsilon token not a key) where
    [A] has a production [p] that is the epsilon token alone, the FIRST
    solver returns with Epsilon in FIRST([A]); FIRST([p]) is {Epsilon}, so
    the cells [p] claims are exactly the members of FOLLOW([A]); processing
    [p] writes [p] into one cell of row [A] per member of FOLLOW([A]) and
    nothing else; and in the table returned every member of FOLLOW([A]) has
    a cell in row [A], held by the last production of [A] that claims it. *)
Theorem epsilon_production_uses_follow (grammar : Grammar)
  (A : string) (prods : list string) (p : string) :
  NoDup (StdMap.keys grammar) ->
  StdMap.find EPSILON grammar = None ->
  StdMap.find A grammar = Some prods -> In p prods ->
  tokens_of p = [EPSILON] ->
  exists first,
    firstSet grammar = Returns first /\
    In EPSILON (sets_get A first) /\
    computeFirstOfString (tokens_of p) first grammar = Some [EPSILON] /\
    forall follow,
      (forall t, specClaims grammar first follow A p t <->
                 In t (sets_get A follow)) /\
      (forall tb0, exists tb1,
          tableProd grammar first follow A p tb0 = Some tb1 /\
          forall A' t,
            cell tb1 A' t =
            if (A' =? A) && StdSet.mem t (sets_get A follow) then Some p
            else cell tb0 A' t) /\
      exists tb,
        parsingTable grammar first follow = Some tb /\
        forall t, In t (sets_get A follow) ->
          exists q before after,
            cell tb A t = Some q /\
            prods = (before ++ q :: after)%list /\
            specClaims grammar first follow A q t /\
            forall r, In r after -> ~ specClaims grammar first follow A r t.
Proof.
  intros ND Feps FA Hp T.
  destruct (firstSet_returns grammar) as (first & Hf & Hk & Hst).
  exists first. split; [exact Hf|]. split.
  { apply epsilon_in_firstSet with (grammar := grammar) (prods := prods)
      (prod := p); auto. now apply find_In. }
  assert (CF : computeFirstOfString (tokens_of p) first grammar = Some [EPSILON]).
  { rewrite T. unfold computeFirstOfString. simpl. now rewrite Feps. }
  split; [exact CF|]. intros follow.
  assert (Htotal : forall t, StdMap.find t grammar <> None ->
                             StdMap.find t first <> None).
  { intros t Ht. apply (kept_keys Hk). now apply find_keys. }
  pose proof (@claims_specClaims grammar first follow Htotal Feps) as CS.
  assert (Cb : forall t, claimsb grammar first follow A p t =
                         StdSet.mem t (sets_get A follow)).
  { intros t. unfold claimsb, claimed. rewrite CF. simpl.
    rewrite orb_false_r. destruct (t =? EPSILON); reflexivity. }
  assert (Cl : forall t, specClaims grammar first follow A p t <->
                         In t (sets_get A follow)).
  { intros t. now rewrite <- CS, <- claimsb_spec, Cb, mem_In. }
  split; [exact Cl|]. split.
  - intros tb0. unfold tableProd. rewrite CF. eexists. split; [reflexivity|].
    intros A' t. rewrite cell_fillCells. unfold claimed. simpl.
    rewrite orb_false_r. destruct (t =? EPSILON); reflexivity.
  - destruct (parsingTable grammar first follow) as [tb|] eqn:E.
    2:{ exfalso. revert E. apply tableRules_total. exact Htotal. }
    exists tb. split; [reflexivity|]. intros t Ht.
    unfold parsingTable in E.
    pose proof (cell_tableRules grammar first follow grammar [] A t ND E) as C.
    rewrite FA in C. change (cell [] A t) with (@None string) in C.
    destruct (winner grammar first follow A prods t None) as [q|] eqn:W.
    + apply winner_Some in W. destruct W as [(b & a & -> & Hc & L)|[[=] _]].
      exists q, b, a. split; [exact C|]. split; [reflexivity|].
      split; [now apply CS, claimsb_spec|].
      intros r Hr. rewrite <- CS. apply not_claims_iff. now apply L.
    + exfalso. rewrite winner_None in W. specialize (W p Hp).
      rewrite Cb in W. apply mem_false in W. contradiction.
Qed.

Lemma epsilon_production_uses_follow_witness :
  (NoDup (StdMap.keys epsilonGrammar) /\
   StdMap.find EPSILON epsilonGrammar = None /\
   StdMap.find "S" epsilonGrammar = Some ["a S"; "ε"] /\
   In "ε" ["a S"; "ε"] /\
   tokens_of "ε" = [EPSILON]) /\
  exists first,
    firstSet epsilonGrammar = Returns first /\
    In EPSILON (sets_get "S" first) /\
    computeFirstOfString (tokens_of "ε") first epsilonGrammar =
      Some [EPSILON].
Proof.
  assert (ND : NoDup (StdMap.keys epsilonGrammar)).
  { repeat constructor; simpl; intuition discriminate. }
  assert (Hin : In "ε" ["a S"; "ε"]) by (right; now left).
  split.
  - split; [exact ND|]. split; [reflexivity|]. split; [reflexivity|].
    split; [exact Hin | reflexivity].
  - destruct (@epsilon_production_uses_follow epsilonGrammar "S"
                ["a S"; "ε"] "ε" ND eq_refl eq_refl Hin eq_refl)
      as (first & E & H1 & H2 & _).
    exists first. split; [exact E|]. split; [exact H1 | exact H2].
Defined.

(** * [main] on the text of the grammar file *)

Lemma pipeline_keys_final (grammar : Grammar) K :
  StdMap.find K grammar <> None -> StdMap.find K (finalGrammar grammar) <> None.
Proof.
  intros H. apply recursion_fold_keys. right. apply find_keys.
  apply (factor_fold_keys grammar [] 1%Z K). right. now apply find_keys.
Qed.

Lemma run_outcome (grammar : Grammar) (startSymbol : string) :
  let g := finalGrammar grammar in
  exists first follow tb,
    firstSet g = Returns first /\
    kept (StdMap.keys g) (firstUniverse g) first /\
    computeFollowSets g first startSymbol = Returns follow /\
    kept (startSymbol :: StdMap.keys g) (followUniverse g) follow /\
    subsets (followInit g startSymbol) follow /\
    parsingTable g first follow = Some tb /\
    run grammar startSymbol =
      Returns (Build_analysis (factoredGrammar grammar) g first follow tb).
Proof.
  intros g. unfold run. fold (finalGrammar grammar). fold g.
  destruct (firstSet_returns g) as (first & Hf & Hk & _).
  assert (Htotal : forall t, StdMap.find t g <> None ->
                             StdMap.find t first <> None).
  { intros t Ht. apply (kept_keys Hk). now apply find_keys. }
  destruct (@followSets_returns_within g first startSymbol (followUniverse g))
    as (follow & Ho & Hko & Hsub & _).
  - exact Htotal.
  - apply (first_within_follow Hk).
  - now left.
  - apply rules_right_within_terminals. intros t Ht. right.
    now apply incl_terminals.
  - unfold followUniverse. simpl. lia.
  - rewrite Hf, Ho.
    destruct (parsingTable g first follow) as [tb|] eqn:E.
    + exists first, follow, tb. repeat split; auto;
        try apply Hk; try apply Hko.
    + exfalso. revert E. apply tableRules_total. exact Htotal.
Qed.

(** X21.  For every text of the grammar file [main] reaches its end; the
    FIRST and FOLLOW maps bind every key of the final grammar; FOLLOW of the
    start symbol read holds the end marker; and the start symbol, when a
    line gave it a non-empty name, is a key of the final grammar. *)
Theorem main_on_text (text : string) :
  let startSymbol := snd (readGrammar text) in
  exists r,
    mainOn text = Returns r /\
    final r = finalGrammar (fst (readGrammar text)) /\
    (forall K, StdMap.find K (final r) <> None ->
       StdMap.find K (firstSets r) <> None /\
       StdMap.find K (followSets r) <> None) /\
    In ENDMARK (sets_get startSymbol (followSets r)) /\
    (startSymbol <> "" -> StdMap.find startSymbol (final r) <> None).
Proof.
  intros startSymbol. unfold mainOn. fold startSymbol.
  destruct (run_outcome (fst (readGrammar text)) startSymbol)
    as (first & follow & tb & H1 & H2 & H3 & H4 & H5 & H6 & H7).
  eexists. split; [exact H7|]. cbn [final firstSets followSets].
  split; [reflexivity|]. split.
  { intros K HK. apply find_keys in HK. split.
    - now apply (kept_keys H2).
    - apply (kept_keys H4). now right. }
  split.
  { apply H5. rewrite followInit_spec, String.eqb_refl. now left. }
  intros Hs.
  apply (pipeline_keys_final (fst (readGrammar text)) startSymbol).
  unfold startSymbol, readGrammar in *. now apply start_is_key.
Qed.

(** X22.  A grammar file in which no line defines a rule: the grammars,
    the FIRST map and the table are empty, the start symbol is the empty
    string, and the FOLLOW map still binds the empty string to the end
    marker. *)
Theorem main_without_rules (text : string) :
  (forall l, In l (getlines NEWLINE "" text) -> parseLine l = None) ->
  readGrammar text = ([], "") /\
  mainOn text =
    Returns (Build_analysis [] [] [] [("", [ENDMARK])] []).
Proof.
  intros H.
  assert (E : readGrammar text = ([], "")).
  { unfold readGrammar, readLines.
    induction (getlines NEWLINE "" text) as [|l lines IH] using rev_ind;
      [reflexivity|].
    rewrite fold_left_app. simpl. rewrite IH.
    - unfold readLine. rewrite H; [reflexivity|]. apply in_or_app. right.
      now left.
    - intros x Hx. apply H. apply in_or_app. now left. }
  split; [exact E|]. unfold mainOn. rewrite E. reflexivity.
Qed.

Lemma main_without_rules_witness :
  readGrammar "no rule here" = ([], "") /\
  mainOn "no rule here" =
    Returns (Build_analysis [] [] [] [("", [ENDMARK])] []).
Proof.
  apply main_without_rules.
  intros l [<-|[]]. reflexivity.
Defined.

Lemma occurs_EPSILON : occurs APOSTROPHE EPSILON = false.
Proof. reflexivity. Qed.

Lemma epsilon_not_final_key (grammar : Grammar) :
  StdMap.find EPSILON grammar = None ->
  StdMap.find EPSILON (finalGrammar grammar) = None.
Proof.
  intros He.
  assert (Hf : StdMap.find EPSILON (factoredGrammar grammar) = None).
  { destruct (StdMap.find EPSILON (factoredGrammar grammar)) eqn:E;
      [|reflexivity]. exfalso.
    destruct (factor_fold_keys grammar [] 1%Z EPSILON) as [_ F].
    destruct F as [H|[H|(N & q & c & _ & _ & H)]].
    - change (StdMap.find EPSILON (factoredGrammar grammar) <> None).
      rewrite E. discriminate.
    - now elim H.
    - apply find_None_keys in He. contradiction.
    - pose proof (occurs_freshName N c) as O. rewrite <- H in O.
      discriminate. }
  destruct (StdMap.find EPSILON (finalGrammar grammar)) as [ps|] eqn:E;
    [|reflexivity]. exfalso.
  apply recursion_fold_fresh in E; [|now apply find_None_keys].
  destruct E as [E|(A & q & _ & E & _)]; [discriminate|].
  now apply (epsilon_not_primed A).
Qed.

(** X23.  The table [main] computes from the text of a grammar file in which
    no line defines the epsilon token: the cell of [A] and [t] holds the last
    production of [A], in the final grammar, chosen on [t] by the FIRST and
    FOLLOW rules, and rows exist for the keys of the final grammar only. *)
Theorem main_table (text : string) :
  let startSymbol := snd (readGrammar text) in
  StdMap.find EPSILON (fst (readGrammar text)) = None ->
  exists r,
    mainOn text = Returns r /\
    (forall A prods t p,
        StdMap.find A (final r) = Some prods ->
        (cell (table r) A t = Some p <->
         exists before after,
           prods = (before ++ p :: after)%list /\
           selects (final r) (firstSets r) startSymbol A p t /\
           forall q, In q after ->
             ~ selects (final r) (firstSets r) startSymbol A q t)) /\
    (forall A t, StdMap.find A (final r) = None -> cell (table r) A t = None).
Proof.
  intros startSymbol He. unfold mainOn. fold startSymbol.
  set (grammar := fst (readGrammar text)) in *.
  destruct (run_outcome grammar startSymbol)
    as (first & follow & tb & H1 & _ & H3 & _ & _ & H6 & H7).
  destruct (@parsingTable_selects (finalGrammar grammar) startSymbol)
    as (first' & follow' & tb' & R1 & R2 & R3 & C1 & _ & C3).
  { apply ordered_NoDup, ordered_finalGrammar. }
  { now apply epsilon_not_final_key. }
  assert (first' = first) by congruence. subst first'.
  assert (follow' = follow) by congruence. subst follow'.
  assert (tb' = tb) by congruence. subst tb'.
  eexists. split; [exact H7|]. cbn [final firstSets table].
  split; [exact C1 | exact C3].
Qed.

Lemma main_table_witness :
  StdMap.find EPSILON (fst (readGrammar scenarioText)) = None /\
  exists r,
    mainOn scenarioText = Returns r /\
    (forall A t, StdMap.find A (final r) = None -> cell (table r) A t = None).
Proof.
  split; [reflexivity|].
  destruct (@main_table scenarioText eq_refl) as (r & H1 & _ & H3).
  exists r. now split.
Defined.

(** * The text written to [output.txt] *)

Lemma length_repeated n c : String.length (repeated n c) = n.
Proof. induction n; simpl; congruence. Qed.

Lemma length_setw width s :
  String.length (setw width s) = Nat.max width (String.length s).
Proof. unfold setw. rewrite length_append, length_repeated. lia. Qed.

Lemma length_printed (A : Type) (f : A -> string) items n :
  (forall x, In x items -> String.length (f x) = n) ->
  String.length (printed f items) = n * List.length items.
Proof.
  induction items as [|x items IH]; intros H; simpl; [lia|].
  rewrite length_append, (H x) by now left.
  rewrite IH by (intros y Hy; apply H; now right). lia.
Qed.

Lemma In_fold_insert_keys (V : Type) (entries : list (string * V)) ts t :
  In t (fold_left (fun ts entry => fst (StdSet.insert (fst entry) ts))
          entries ts) <->
  In t ts \/ In t (StdMap.keys entries).
Proof.
  revert ts. induction entries as [|[k v] entries IH]; intros ts; simpl.
  - tauto.
  - rewrite IH, In_insert. cbn [fst]. intuition.
Qed.

Lemma In_tableTerminals_from (rows : Table) ts t :
  In t (fold_left
          (fun terminals row =>
             fold_left
               (fun terminals entry => fst (StdSet.insert (fst entry) terminals))
               (snd row) terminals)
          rows ts) <->
  In t ts \/ exists A row, In (A, row) rows /\ In t (StdMap.keys row).
Proof.
  revert ts. induction rows as [|[A row] rows IH]; intros ts; simpl.
  - split; [now left | intros [H|(A & row & [] & _)]; exact H].
  - rewrite IH, In_fold_insert_keys. cbn [snd]. split.
    + intros [[H|H]|(B & r & H1 & H2)].
      * now left.
      * right. exists A, row. split; [now left | exact H].
      * right. exists B, r. split; [now right | exact H2].
    + intros [H|(B & r & [H1|H1] & H2)].
      * left. now left.
      * injection H1 as <- <-. left. now right.
      * right. now exists B, r.
Qed.

Lemma In_tableTerminals (tb : Table) t :
  In t (tableTerminals tb) <->
  exists A row, In (A, row) tb /\ In t (StdMap.keys row).
Proof.
  unfold tableTerminals. rewrite In_tableTerminals_from.
  split; [intros [[]|H]; exact H | now right].
Qed.

Lemma NoDup_insert x s : NoDup s -> NoDup (fst (StdSet.insert x s)).
Proof.
  intros H. unfold StdSet.insert. destruct (StdSet.mem x s) eqn:M; [exact H|].
  apply mem_false in M. now apply NoDup_place.
Qed.

Lemma NoDup_tableTerminals (tb : Table) : NoDup (tableTerminals tb).
Proof.
  unfold tableTerminals.
  assert (G : forall rows ts, NoDup ts ->
            NoDup (fold_left
                     (fun terminals (row : string * StdMap.t string) =>
                        fold_left
                          (fun terminals entry =>
                             fst (StdSet.insert (fst entry) terminals))
                          (snd row) terminals)
                     rows ts)).
  { induction rows as [|row rows IH]; intros ts H; [exact H|].
    simpl. apply IH. generalize (snd row). intros entries. revert ts H.
    induction entries as [|e entries IHe]; intros ts H; [exact H|].
    simpl. apply IHe. now apply NoDup_insert. }
  apply G. constructor.
Qed.

(** X24.  The table as it is written: the columns are the terminals that
    have a cell in some row, each once; the text is the header line, the
    line of dashes and one line per row; and when every non-terminal, every
    terminal and every production of the table is at most [colWidth]
    characters long, the header, the dashes and every row have the same
    length, [colWidth] times the number of columns plus one. *)
Theorem table_layout (tb : Table) :
  let terminals := tableTerminals tb in
  let width := colWidth * (List.length terminals + 1) in
  let header := setw colWidth "Non-Terminal" ++ printed (setw colWidth) terminals in
  NoDup terminals /\
  (forall t, In t terminals <->
             exists A row prod, In (A, row) tb /\ In (t, prod) row) /\
  printTable tb =
    header ++ NL ++ repeated width "-" ++ NL ++ printed (printRow terminals) tb /\
  ((forall A row, In (A, row) tb -> String.length A <= colWidth) ->
   (forall A row t prod, In (A, row) tb -> In (t, prod) row ->
      String.length t <= colWidth /\ String.length prod <= colWidth) ->
   String.length header = width /\
   String.length (repeated width "-") = width /\
   forall A row, In (A, row) tb ->
     String.length (printRow terminals (A, row)) = width + 1).
Proof.
  intros terminals width header.
  split; [apply NoDup_tableTerminals|]. split.
  { intros t. unfold terminals. rewrite In_tableTerminals. split.
    - intros (A & row & H1 & H2). unfold StdMap.keys in H2.
      apply in_map_iff in H2. destruct H2 as ([t' p] & <- & H2).
      now exists A, row, p.
    - intros (A & row & p & H1 & H2). exists A, row. split; [exact H1|].
      unfold StdMap.keys. apply in_map_iff. now exists (t, p). }
  split; [reflexivity|].
  intros HN H.
  assert (Ht : forall t, In t terminals -> String.length t <= colWidth).
  { intros t Ht. unfold terminals in Ht. apply In_tableTerminals in Ht.
    destruct Ht as (A & row & H1 & H2). unfold StdMap.keys in H2.
    apply in_map_iff in H2. destruct H2 as ([t' p] & <- & H2).
    now destruct (H A row t' p H1 H2) as (H3 & _). }
  split.
  { unfold header. rewrite length_append, length_setw.
    rewrite (@length_printed _ (setw colWidth) terminals colWidth).
    - unfold width, colWidth. change (String.length "Non-Terminal") with 12.
      lia.
    - intros t Hx. rewrite length_setw. specialize (Ht t Hx). lia. }
  split; [apply length_repeated|].
  intros A row HA. unfold printRow. cbn [fst snd].
  rewrite !length_append, length_setw.
  rewrite (@length_printed _ _ terminals colWidth).
  - specialize (HN A row HA). unfold width, NL.
    change (String.length (String NEWLINE "")) with 1. lia.
  - intros t Hx. rewrite length_setw.
    destruct (StdMap.find t row) as [p|] eqn:F.
    + apply find_In in F. destruct (H A row t p HA F) as (_ & H3). lia.
    + change (String.length "") with 0. lia.
Qed.

(** * Reading the printed grammar back *)

Lemma getlines_app_delim d cur s u :
  occurs d s = false ->
  getlines d cur (s ++ String d u) = (cur ++ s) :: getlines d "" u.
Proof.
  revert cur. induction s as [|c s IH]; intros cur H; simpl.
  - rewrite Ascii.eqb_refl. now rewrite append_empty_r.
  - simpl in H. apply orb_false_iff in H. destruct H as [H1 H2].
    rewrite H1, (IH _ H2), append_assoc. reflexivity.
Qed.

Lemma getlines_printed (A : Type) (f : A -> string) items :
  (forall x, In x items -> occurs NEWLINE (f x) = false) ->
  getlines NEWLINE "" (printed (fun x => f x ++ NL) items) = map f items.
Proof.
  induction items as [|x items IH]; intros H; [reflexivity|].
  simpl. rewrite append_assoc. unfold NL at 1. simpl append.
  rewrite getlines_app_delim by (apply H; now left).
  rewrite IH by (intros y Hy; apply H; now right). reflexivity.
Qed.

Lemma index_arrow_cons c s :
  index 0 ARROW (String c s) =
  if prefix ARROW (String c s) then Some 0
  else option_map S (index 0 ARROW s).
Proof.
  change (index 0 ARROW (String c s)) with
    (if prefix ARROW (String c s) then Some 0
     else match index 0 ARROW s with Some n => Some (S n) | None => None end).
  destruct (prefix ARROW (String c s)); [reflexivity|].
  now destruct (index 0 ARROW s).
Qed.

Lemma prefix_arrow c s :
  prefix ARROW (String c s) =
  (c =? "-")%char &&
  match s with String c' _ => (c' =? ">")%char | EmptyString => false end.
Proof.
  change (prefix ARROW (String c s)) with
    (match ascii_dec "-" c with
     | left _ => prefix ">" s
     | right _ => false
     end).
  destruct (ascii_dec "-" c) as [<-|N].
  - rewrite Ascii.eqb_refl. cbn [andb]. destruct s as [|c' s]; [reflexivity|].
    change (prefix ">" (String c' s)) with
      (match ascii_dec ">" c' with
       | left _ => prefix "" s
       | right _ => false
       end).
    destruct (ascii_dec ">" c') as [<-|N'].
    + rewrite Ascii.eqb_refl. now destruct s.
    + symmetry. apply Ascii.eqb_neq. congruence.
  - assert (E : (c =? "-")%char = false) by (apply Ascii.eqb_neq; congruence).
    now rewrite E.
Qed.

Lemma index_arrow name rest :
  index 0 ARROW name = None ->
  index 0 ARROW (name ++ String " " (ARROW ++ rest)) =
  Some (String.length name + 1).
Proof.
  set (tail := String " " (ARROW ++ rest)).
  induction name as [|c name IH]; intros H.
  - change ("" ++ tail) with (String " " (String "-" (String ">" rest))).
    rewrite index_arrow_cons, prefix_arrow. cbn [Ascii.eqb Bool.eqb andb].
    rewrite index_arrow_cons, prefix_arrow.
    now rewrite !Ascii.eqb_refl.
  - rewrite index_arrow_cons in H.
    change (String c name ++ tail) with (String c (name ++ tail)).
    rewrite index_arrow_cons.
    destruct (prefix ARROW (String c name)) eqn:P; [discriminate|].
    destruct (index 0 ARROW name) eqn:I; [discriminate|].
    assert (P' : prefix ARROW (String c (name ++ tail)) = false).
    { rewrite prefix_arrow in *. destruct name as [|c' name]; [|exact P].
      unfold tail. simpl. apply andb_false_r. }
    rewrite P', (IH eq_refl). reflexivity.
Qed.

Lemma substring_app_l a b k :
  substring 0 (String.length a + k) (a ++ b) = a ++ substring 0 k b.
Proof. induction a as [|c a IH]; simpl; [reflexivity | now rewrite IH]. Qed.

Lemma substring_app_r a b k m :
  substring (String.length a + k) m (a ++ b) = substring k m b.
Proof. induction a as [|c a IH]; simpl; [reflexivity | exact IH]. Qed.

Lemma substring_app_within a b n :
  n <= String.length a -> substring 0 n (a ++ b) = substring 0 n a.
Proof.
  revert n. induction a as [|c a IH]; intros n H; simpl in *.
  - replace n with 0 by lia. now destruct b.
  - destruct n; [reflexivity|]. rewrite IH by lia. reflexivity.
Qed.

Lemma find_last_lt s j : find_last_not_of s = Some j -> j < String.length s.
Proof.
  revert j. induction s as [|c s IH]; intros j; simpl; [discriminate|].
  destruct (find_last_not_of s) as [j'|].
  - intros [= <-]. specialize (IH j' eq_refl). lia.
  - destruct (is_blank c); [discriminate|]. intros [= <-]. lia.
Qed.

Lemma find_last_append_blank a b :
  find_first_not_of b = None ->
  find_last_not_of (a ++ b) = find_last_not_of a.
Proof.
  intros H.
  assert (L : find_last_not_of b = None).
  { destruct (find_last_not_of b) eqn:E; [|reflexivity].
    clear -H E. exfalso. revert n E. induction b as [|c b IH]; intros n E;
      simpl in *; [discriminate|].
    destruct (is_blank c); [|discriminate].
    destruct (find_first_not_of b); [discriminate|].
    destruct (find_last_not_of b) as [j|]; [|discriminate].
    now apply (IH eq_refl j). }
  induction a as [|c a IH]; simpl; [exact L|]. now rewrite IH.
Qed.

Lemma rstrip_append_blank a b :
  find_first_not_of b = None -> rstrip (a ++ b) = rstrip a.
Proof.
  intros H. unfold rstrip. rewrite (find_last_append_blank a b H).
  destruct (find_last_not_of a) as [j|] eqn:L; [|reflexivity].
  apply substring_app_within. apply find_last_lt in L. lia.
Qed.

Lemma trimmed_append_blank a b :
  find_first_not_of b = None -> trimmed (a ++ b) = trimmed a.
Proof.
  intros H. induction a as [|c a IH].
  - simpl. now apply blank_only_trimmed.
  - change (String c a ++ b) with (String c (a ++ b)).
    rewrite !trimmed_cons, IH, (rstrip_append_blank a b H). reflexivity.
Qed.

Lemma trimmed_trimOrKeep p :
  find_first_not_of p <> None -> trimmed p = [trimOrKeep p].
Proof.
  intros H. pose proof (find_last_of_first p H) as L.
  unfold trimmed, trimOrKeep.
  destruct (find_first_not_of p); [|congruence].
  destruct (find_last_not_of p); [reflexivity | congruence].
Qed.

Lemma split_no_delim s d :
  occurs d s = false -> split s d = trimmed s.
Proof.
  intros H. unfold split. rewrite (@getlines_no_delim d "" s H). simpl.
  destruct s; [reflexivity|]. simpl. apply app_nil_r.
Qed.

Lemma occurs_bar_padded p :
  occurs BAR p = false -> occurs BAR (" " ++ p ++ " ") = false.
Proof.
  intros H. simpl. rewrite occurs_append, H. reflexivity.
Qed.

Lemma split_joined prods :
  (forall p, In p prods ->
             find_first_not_of p <> None /\ occurs BAR p = false) ->
  split (" " ++ joined " | " prods) BAR = map trimOrKeep prods.
Proof.
  induction prods as [|p prods IH]; intros H; [reflexivity|].
  destruct (H p (or_introl eq_refl)) as [Hp1 Hp2].
  assert (T : trimmed (String " " p) = [trimOrKeep p]).
  { rewrite trimmed_cons. simpl. now apply trimmed_trimOrKeep. }
  destruct prods as [|q prods].
  - simpl. rewrite split_no_delim by (simpl; exact Hp2). exact T.
  - change (joined " | " (p :: q :: prods))
      with (p ++ " | " ++ joined " | " (q :: prods)).
    replace (" " ++ p ++ " | " ++ joined " | " (q :: prods))
      with ((" " ++ p ++ " ") ++ String BAR (" " ++ joined " | " (q :: prods))).
    2:{ simpl. f_equal. rewrite append_assoc. reflexivity. }
    unfold split. rewrite split_app_delim. fold (split (" " ++ p ++ " ") BAR).
    fold (split (" " ++ joined " | " (q :: prods)) BAR).
    rewrite IH by (intros x Hx; apply H; now right).
    rewrite split_no_delim by now apply occurs_bar_padded.
    change (" " ++ p ++ " ") with (String " " (p ++ " ")).
    rewrite trimmed_cons. simpl is_blank. cbv iota.
    rewrite trimmed_append_blank by reflexivity.
    rewrite trimmed_trimOrKeep by exact Hp1. reflexivity.
Qed.

Lemma trimOrKeep_padded name :
  find_first_not_of name = Some 0 ->
  find_last_not_of name = Some (String.length name - 1) ->
  trimOrKeep (name ++ " ") = name.
Proof.
  intros F L. unfold trimOrKeep.
  rewrite (find_first_append_head name " " F).
  rewrite (find_last_append_blank name " " eq_refl), L.
  destruct name as [|c name]; [discriminate|].
  replace (String.length (String c name) - 1 - 0 + 1)
    with (String.length (String c name) + 0) by (simpl; lia).
  rewrite substring_app_l. simpl. now rewrite append_empty_r.
Qed.

Lemma parseLine_printed name prods :
  find_first_not_of name = Some 0 ->
  find_last_not_of name = Some (String.length name - 1) ->
  index 0 ARROW name = None ->
  (forall p, In p prods ->
             find_first_not_of p <> None /\ occurs BAR p = false) ->
  parseLine (name ++ " -> " ++ joined " | " prods) =
  Some (name, map trimOrKeep prods).
Proof.
  intros F L I H.
  set (rest := " " ++ joined " | " prods).
  change (name ++ " -> " ++ joined " | " prods)
    with (name ++ String " " (ARROW ++ rest)).
  unfold parseLine. rewrite (index_arrow name rest I).
  destruct (name ++ String " " (ARROW ++ rest)) as [|c line] eqn:E.
  { destruct name; discriminate. }
  rewrite <- E. f_equal. f_equal.
  - rewrite substring_app_l. simpl substring. now apply trimOrKeep_padded.
  - unfold substr_from.
    replace (String.length name + 1 + 2) with (String.length name + 3) by lia.
    rewrite substring_app_r, length_append.
    replace (String.length name + String.length (String " " (ARROW ++ rest)) -
             (String.length name + 3)) with (String.length rest)
      by (simpl; lia).
    simpl substring. rewrite substring_0_length. now apply split_joined.
Qed.

Lemma occurs_joined c sep items :
  occurs c sep = false ->
  (forall x, In x items -> occurs c x = false) ->
  occurs c (joined sep items) = false.
Proof.
  intros Hs. induction items as [|x items IH]; intros H; [reflexivity|].
  destruct items as [|y items]; [apply H; now left|].
  change (joined sep (x :: y :: items)) with (x ++ sep ++ joined sep (y :: items)).
  rewrite !occurs_append, Hs, (H x) by now left.
  rewrite IH by (intros z Hz; apply H; now right). reflexivity.
Qed.

Lemma fst_readLines_printed (f : string * list string -> string)
  (h : list string -> list string) (rules : Grammar) st :
  (forall nt, In nt rules -> parseLine (f nt) = Some (fst nt, h (snd nt))) ->
  fst (fold_left readLine (map f rules) st) =
  fold_left (fun acc nt => StdMap.insert (fst nt) (snd nt) acc)
    (map (fun nt => (fst nt, h (snd nt))) rules) (fst st).
Proof.
  revert st. induction rules as [|nt rules IH]; intros st H; [reflexivity|].
  simpl. rewrite IH by (intros x Hx; apply H; now right).
  unfold readLine. rewrite (H nt) by now left. reflexivity.
Qed.

Lemma keys_trimmedRules (grammar : Grammar) :
  StdMap.keys (trimmedRules grammar) = StdMap.keys grammar.
Proof.
  unfold trimmedRules, StdMap.keys. rewrite map_map. reflexivity.
Qed.

Lemma trimmed_lead b cur :
  find_first_not_of b = None -> trimmed (b ++ cur) = trimmed cur.
Proof.
  induction b as [|c b IH]; intros H; [reflexivity|].
  simpl in H. destruct (is_blank c) eqn:B; [|discriminate].
  destruct (find_first_not_of b); [discriminate|].
  change (String c b ++ cur) with (String c (b ++ cur)).
  rewrite trimmed_cons, B. now apply IH.
Qed.

Lemma getlines_lead d b cur s :
  find_first_not_of b = None ->
  flat_map trimmed (getlines d (b ++ cur) s) =
  flat_map trimmed (getlines d cur s).
Proof.
  intros H. revert cur. induction s as [|c s IH]; intros cur; simpl.
  - destruct cur as [|x cur].
    + rewrite append_empty_r. destruct b; [reflexivity|]. simpl.
      now rewrite blank_only_trimmed.
    + destruct (b ++ String x cur) eqn:E.
      * destruct b; discriminate.
      * rewrite <- E. simpl. now rewrite trimmed_lead.
  - destruct (c =? d)%char.
    + simpl. now rewrite trimmed_lead.
    + rewrite append_assoc. apply IH.
Qed.

Lemma split_lead c s d :
  is_blank c = true -> split (String c s) d = split s d.
Proof.
  intros B. unfold split. simpl. destruct (c =? d)%char; [reflexivity|].
  apply (getlines_lead d (String c "") "" s). simpl. now rewrite B.
Qed.

Lemma getlines_trail d cur b :
  find_first_not_of b = None ->
  flat_map trimmed (getlines d cur b) = trimmed cur.
Proof.
  intros H. revert cur. induction b as [|c b IH]; intros cur.
  - simpl. destruct cur; [reflexivity|]. simpl. apply app_nil_r.
  - simpl in H. destruct (is_blank c) eqn:B; [|discriminate].
    destruct (find_first_not_of b) eqn:F; [discriminate|]. simpl.
    destruct (c =? d)%char.
    + simpl. rewrite (IH eq_refl). apply app_nil_r.
    + rewrite (IH eq_refl). apply trimmed_append_blank. simpl. now rewrite B.
Qed.

Lemma split_trail s b d :
  find_first_not_of b = None -> split (s ++ b) d = split s d.
Proof.
  intros H. unfold split. generalize "". induction s as [|c s IH]; intros cur.
  - simpl. rewrite (getlines_trail d cur b H).
    destruct cur; [reflexivity|]. simpl. now rewrite app_nil_r.
  - simpl. destruct (c =? d)%char; [simpl; now rewrite IH | apply IH].
Qed.

Lemma rstrip_decompose s :
  exists post, find_first_not_of post = None /\ s = rstrip s ++ post.
Proof.
  unfold rstrip. induction s as [|c s (post & P1 & P2)].
  - now exists "".
  - simpl. destruct (find_last_not_of s) as [j|] eqn:L.
    + exists post. split; [exact P1|]. simpl. now rewrite <- P2.
    + destruct (is_blank c) eqn:B.
      * exists (String c s). split; [|reflexivity]. simpl. rewrite B.
        simpl in P2. subst post. now rewrite P1.
      * exists s. split; [|now destruct s]. simpl in P2. now subst post.
Qed.

Lemma trimOrKeep_cons c s :
  trimOrKeep (String c s) =
  if is_blank c
  then match find_first_not_of s with
       | Some _ => trimOrKeep s
       | None => String c s
       end
  else String c (rstrip s).
Proof.
  unfold trimOrKeep, rstrip. simpl. destruct (is_blank c) eqn:B.
  - destruct (find_first_not_of s) as [a|] eqn:F; simpl; [|reflexivity].
    destruct (find_last_not_of s) as [b|] eqn:L; simpl; [reflexivity|].
    exfalso. apply (find_last_of_first s); [rewrite F; discriminate | exact L].
  - destruct (find_last_not_of s) as [b|]; simpl.
    + now rewrite Nat.add_1_r.
    + now destruct s.
Qed.

Lemma split_trimOrKeep p d : split (trimOrKeep p) d = split p d.
Proof.
  induction p as [|c p IH]; [reflexivity|].
  rewrite trimOrKeep_cons. destruct (is_blank c) eqn:B.
  - destruct (find_first_not_of p); [|reflexivity].
    now rewrite IH, split_lead.
  - destruct (rstrip_decompose p) as (post & P1 & P2).
    rewrite P2 at 2. change (String c (rstrip p ++ post))
      with (String c (rstrip p) ++ post).
    now rewrite split_trail.
Qed.

Lemma symbolsOf_trimmedRules (grammar : Grammar) :
  symbolsOf (trimmedRules grammar) = symbolsOf grammar.
Proof.
  unfold symbolsOf, trimmedRules. rewrite map_map. apply map_ext.
  intros [A prods]. cbn [fst snd]. f_equal. rewrite map_map.
  apply map_ext. intros p. apply split_trimOrKeep.
Qed.

(** X25.  The grammar listing [main] writes can be read back by its own
    loader: for a grammar in the order of [std::map] whose non-terminals are
    trimmed and hold no arrow, and whose productions are not blank and hold
    no ['|'] (no line break in either), reading the listing gives the same
    non-terminals, each with its productions trimmed, hence with the same
    token sequences, and the first key as start symbol; when the
    productions are already trimmed the grammar read is the grammar
    printed. *)
Theorem listing_reads_back (grammar : Grammar) :
  ordered grammar -> printable grammar ->
  readGrammar (printRules grammar) =
    (trimmedRules grammar, hd "" (StdMap.keys grammar)) /\
  symbolsOf (fst (readGrammar (printRules grammar))) = symbolsOf grammar /\
  ((forall A prods p, In (A, prods) grammar -> In p prods ->
      find_first_not_of p = Some 0 /\
      find_last_not_of p = Some (String.length p - 1)) ->
   fst (readGrammar (printRules grammar)) = grammar).
Proof.
  intros O P.
  assert (Main : readGrammar (printRules grammar) =
                 (trimmedRules grammar, hd "" (StdMap.keys grammar))).
  2:{ split; [exact Main|]. rewrite Main. cbn [fst].
      split; [apply symbolsOf_trimmedRules|].
      intros T. unfold trimmedRules. rewrite <- (map_id grammar) at 2.
      apply map_ext_in. intros [A prods] HA. cbn [fst snd]. f_equal.
      rewrite <- (map_id prods) at 2. apply map_ext_in. intros p Hp.
      destruct (T A prods p HA Hp) as [T1 T2].
      pose proof (trimmed_trimOrKeep p) as Q. rewrite T1 in Q.
      assert (Hq : Some 0 <> None) by discriminate. specialize (Q Hq).
      rewrite (trimmed_fixed p T1 T2) in Q. now injection Q. }
  set (line := fun nt : string * list string =>
                 fst nt ++ " -> " ++ joined " | " (snd nt)).
  assert (HP : forall nt, In nt grammar ->
             parseLine (line nt) = Some (fst nt, map trimOrKeep (snd nt))).
  { intros [A prods] H. destruct (P A prods H) as (H1 & H2 & H3 & _ & H5).
    apply parseLine_printed; auto. intros p Hp.
    destruct (H5 p Hp) as (H6 & H7 & _). now split. }
  assert (HL : getlines NEWLINE "" (printRules grammar) = map line grammar).
  { unfold printRules.
    replace (printed printRule grammar)
      with (printed (fun nt => line nt ++ NL) grammar).
    - apply getlines_printed. intros [A prods] H.
      destruct (P A prods H) as (_ & _ & _ & H4 & H5). unfold line.
      cbn [fst snd]. rewrite !occurs_append, H4. simpl.
      apply occurs_joined; [reflexivity|]. intros p Hp. now apply H5.
    - clear. induction grammar as [|nt g IH]; [reflexivity|]. simpl.
      rewrite IH. f_equal. unfold printRule, line.
      now rewrite !append_assoc. }
  unfold readGrammar. rewrite HL.
  assert (E1 : fst (readLines (map line grammar)) = trimmedRules grammar).
  { unfold readLines. rewrite (fst_readLines_printed line (map trimOrKeep))
      by exact HP.
    apply fold_insert_ordered. unfold ordered.
    fold (trimmedRules grammar). now rewrite keys_trimmedRules. }
  assert (E2 : snd (readLines (map line grammar)) = hd "" (StdMap.keys grammar)).
  { destruct grammar as [|[A prods] g]; [reflexivity|].
    destruct (P A prods (or_introl eq_refl)) as (H1 & _).
    change (map line ((A, prods) :: g))
      with ([] ++ line (A, prods) :: map line g)%list.
    apply (@start_readLines [] (line (A, prods)) (map line g) A
             (map trimOrKeep prods)).
    - apply (HP (A, prods)). now left.
    - intros ->. discriminate.
    - intros l B q []. }
  rewrite <- E1, <- E2. now destruct (readLines (map line grammar)).
Qed.

Lemma listing_reads_back_witness :
  readGrammar (printRules scenarioFinal) =
    (trimmedRules scenarioFinal, hd "" (StdMap.keys scenarioFinal)) /\
  symbolsOf (fst (readGrammar (printRules scenarioFinal))) =
    symbolsOf scenarioFinal.
Proof.
  assert (O : ordered scenarioFinal) by repeat constructor.
  assert (P : printable scenarioFinal).
  { intros A prods HA. simpl in HA.
    destruct HA as [E|[E|[E|[]]]]; injection E as <- <-;
      (split; [reflexivity|]); (split; [reflexivity|]);
      (split; [reflexivity|]); (split; [reflexivity|]);
      intros q Hq; simpl in Hq;
      repeat (destruct Hq as [<-|Hq];
              [split; [discriminate | split; reflexivity]|]);
      destruct Hq. }
  destruct (listing_reads_back O P) as (H1 & H2 & _). now split.
Defined.

(** The text written for the grammar file [scenarioText], line by line. *)
Example output_scenario :
  match mainOn scenarioText with
  | Returns r => getlines NEWLINE "" (output r)
  | _ => []
  end =
  ["Grammar after Left Factoring:";
   " -> x";
   "A -> c | d";
   "S -> A S'";
   "S' -> a  | b ";
   "";
   "Grammar after Left Recursion Removal:";
   " -> x";
   "A -> c | d";
   "S -> A S'";
   "S' -> a  | b ";
   "";
   "FIRST Sets:";
   "FIRST() = { x }";
   "FIRST(A) = { c, d }";
   "FIRST(S) = { c, d }";
   "FIRST(S') = { a, b }";
   "";
   "FOLLOW Sets:";
   "FOLLOW() = {  }";
   "FOLLOW(A) = { a, b }";
   "FOLLOW(S) = { $ }";
   "FOLLOW(S') = { $ }";
   "";
   "LL(1) Parsing Table:";
   "";
   "        Non-Terminal                   a                   b                   c                   d                   x";
   "------------------------------------------------------------------------------------------------------------------------";
   "                                                                                                                       x";
   "                   A                                                           c                   d                    ";
   "                   S                                                        A S'                A S'                    ";
   "                  S'                  a                   b                                                             "].
Proof. vm_compute. reflexivity. Qed.
